(** * TOPSIS scoring engine ([src/lib/topsis.ts], [src/lib/materials.ts])

    A shallow embedding of [runTopsisCalculation] and the properties of it
    that the specification states.

    JavaScript numbers are kept abstract behind the interface [JSNumber],
    and the engine is written once over that interface.  Two
    interpretations are given:

    - [float_number]: IEEE 754 binary64, the numbers JavaScript computes
      with.  The engine runs on it ([vm_compute]), rounding included, and
      what is proved of it for every input rests on the specification of
      the primitive operations ([FloatAxioms]): the order of the results,
      the sign of the scores, and that the normalization produces no
      [NaN].
    - [xreal_number]: exact real arithmetic extended with [NaN] and the two
      infinities; rounding, overflow, underflow and the sign of zero are
      idealised away.  What the method computes (distances, extremes,
      scores and their range) is proved on this interpretation.  Where
      binary64 departs from it (the unit norm of a normalized column,
      monotonicity in a benefit value), the departure is shown on
      [float_number] by a computed run.

    Properties of the structure of the computation (which cell is read,
    which entry is written, how many results come out) are proved for
    every interpretation at once. *)

From Stdlib Require Import Floats.
From Stdlib Require Import Reals RList Lra Lia Sorted.
From stdpp Require Import base option list gmap strings pretty.

#[local] Set Warnings "-clear-no-such-hyp,-inexact-float".

(** * The model *)

(** ** JavaScript numbers *)

(** The operations of the Number type that the engine uses.  [js_lt] is
    [<], [js_strict_eq] is [===], [js_is_neg_zero x] is [Object.is(x, -0)]. *)
Class JSNumber (num : Type) : Type := {
  js_zero : num;
  js_nan : num;
  js_infinity : num;
  js_neg_infinity : num;
  js_add : num → num → num;
  js_sub : num → num → num;
  js_mul : num → num → num;
  js_div : num → num → num;
  js_sqrt : num → num;
  js_lt : num → num → bool;
  js_strict_eq : num → num → bool;
  js_isNaN : num → bool;
  js_is_neg_zero : num → bool
}.

Section Number.
Context {num : Type} {N : JSNumber num}.

(** [x ** 2].  The exponentiation operator with the exponent 2 is taken to
    be the product [x * x]. *)
Definition js_pow2 (x : num) : num := js_mul x x.

(** ToBoolean on a number: [0], [-0] and [NaN] are falsy. *)
Definition js_truthy (x : num) : bool :=
  negb (js_strict_eq x js_zero || js_isNaN x).

(** [obj[key] || d] where [obj[key]] is a number or [undefined]
    ([None]): [undefined] is falsy. *)
Definition js_or (v : option num) (d : num) : num :=
  match v with
  | Some x => if js_truthy x then x else d
  | None => d
  end.

Definition js_is_pos_zero (x : num) : bool :=
  js_strict_eq x js_zero && negb (js_is_neg_zero x).

(** [Math.max(...values)] (ECMA-262, 21.3.2.24): [NaN] if any argument is
    [NaN]; otherwise start from [-Infinity] and keep the larger, [+0]
    counting as larger than [-0]. *)
Definition math_max_step (highest number : num) : num :=
  if js_is_pos_zero number && js_is_neg_zero highest then number
  else if js_lt highest number then number
  else highest.

Definition math_max (values : list num) : num :=
  if existsb js_isNaN values then js_nan
  else foldl math_max_step js_neg_infinity values.

(** [Math.min(...values)] (ECMA-262, 21.3.2.25). *)
Definition math_min_step (lowest number : num) : num :=
  if js_is_neg_zero number && js_is_pos_zero lowest then number
  else if js_lt number lowest then number
  else lowest.

Definition math_min (values : list num) : num :=
  if existsb js_isNaN values then js_nan
  else foldl math_min_step js_infinity values.

(** ** Arrays *)

(** [row[j]] read as a number: a read past the end is [undefined], which
    every use in the engine coerces to [NaN]. *)
Definition array_get (row : list num) (j : nat) : num :=
  default js_nan (row !! j).

(** [row[j] = v]: in range the entry is replaced; past the end JavaScript
    extends the array, the holes reading as [undefined]. *)
Definition array_set (row : list num) (j : nat) (v : num) : list num :=
  if j <? length row then <[j:=v]> row
  else row ++ replicate (j - length row) js_nan ++ [v].

(** [M[i][j]]: a [TypeError] ([None]) when [M[i]] is [undefined]. *)
Definition matrix_get (M : list (list num)) (i j : nat) : option num :=
  row ← M !! i; Some (array_get row j).

(** [M[i][j] = v]: a [TypeError] ([None]) when [M[i]] is [undefined]. *)
Definition matrix_set (M : list (list num)) (i j : nat) (v : num)
  : option (list (list num)) :=
  row ← M !! i; Some (<[i:=array_set row j v]> M).

End Number.

(** [for (let i = 0; i < n; i++) body]: the loop state is threaded through
    the iterations; [None] is an exception thrown by an iteration. *)
Definition for_range {S : Type} (n : nat) (body : nat → S → option S) (s : S)
  : option S :=
  foldl (λ acc i, acc ≫= body i) (Some s) (seq 0 n).

(** [array.map((x, index) => f(index, x))] with a callback that may throw. *)
Definition map_indexed {A B : Type} (f : nat → A → option B) (l : list A)
  : option (list B) :=
  mapM (λ p, f p.1 p.2) (imap pair l).

(** ** [Array.prototype.sort]

    [sort] calls the comparator on pairs of elements and reads the sign of
    the number it returns, a [NaN] counting as [0] (ECMA-262, SortCompare).
    The sort is stable.  For a comparator that orders the elements
    consistently the result is determined by these two facts, whatever
    algorithm the engine uses; it is computed here by straight insertion,
    each element being inserted in front of the sorted rest and moving past
    the elements that the comparator puts strictly before it. *)
Section Sort.
Context {num : Type} {N : JSNumber num} {A : Type}.
Variable comparefn : A → A → num.

(** [comparefn(x, y) > 0]: [x] is to come after [y]. *)
Definition sorts_after (x y : A) : bool := js_lt js_zero (comparefn x y).

Fixpoint sort_insert (x : A) (sorted : list A) : list A :=
  match sorted with
  | [] => [x]
  | y :: rest =>
      if sorts_after x y then y :: sort_insert x rest else x :: y :: rest
  end.

Definition array_sort (l : list A) : list A := foldr sort_insert [] l.

(** [x] may stand before [y]: the comparator does not put [x] after [y]. *)
Definition in_order (x y : A) : Prop := sorts_after x y = false.

End Sort.

(** ** Data model ([materials.ts]) *)

(** [CriterionKey]: the eight numeric attributes of a material, and the
    synthetic cost criterion ['cout']. *)
Inductive CriterionKey : Type :=
  | k_temp | k_corrosion | k_vie | k_pose | k_acoustique | k_feu
  | k_environnement | k_surpression | k_cout.

Global Instance CriterionKey_eq_dec : EqDecision CriterionKey.
Proof. solve_decision. Defined.

Definition CriterionKey_to_nat (k : CriterionKey) : nat :=
  match k with
  | k_temp => 0 | k_corrosion => 1 | k_vie => 2 | k_pose => 3
  | k_acoustique => 4 | k_feu => 5 | k_environnement => 6
  | k_surpression => 7 | k_cout => 8
  end.

Definition CriterionKey_of_nat (n : nat) : option CriterionKey :=
  match n with
  | 0 => Some k_temp | 1 => Some k_corrosion | 2 => Some k_vie
  | 3 => Some k_pose | 4 => Some k_acoustique | 5 => Some k_feu
  | 6 => Some k_environnement | 7 => Some k_surpression | 8 => Some k_cout
  | _ => None
  end.

Global Instance CriterionKey_countable : Countable CriterionKey :=
  inj_countable CriterionKey_to_nat CriterionKey_of_nat
    (λ k, match k with
          | k_temp | k_corrosion | k_vie | k_pose | k_acoustique | k_feu
          | k_environnement | k_surpression | k_cout => eq_refl
          end).

Record Material (num : Type) : Type := {
  name : string;
  type : string;
  pn : list num;
  temp : num;
  corrosion : num;
  vie : num;
  pose : num;
  acoustique : num;
  feu : num;
  environnement : num;
  surpression : num
}.
Arguments name {num}.
Arguments type {num}.
Arguments pn {num}.
Arguments temp {num}.
Arguments corrosion {num}.
Arguments vie {num}.
Arguments pose {num}.
Arguments acoustique {num}.
Arguments feu {num}.
Arguments environnement {num}.
Arguments surpression {num}.

Record Criterion : Type := {
  key : CriterionKey;
  label : string;
  isBenefit : bool
}.

(** The catalog [allCriteria]. *)
Definition allCriteria : list Criterion := [
  {| key := k_temp; isBenefit := true;
     label := "Temperature maximale (C)" |};
  {| key := k_corrosion; isBenefit := true;
     label := "Resistance a la corrosion" |};
  {| key := k_vie; isBenefit := true;
     label := "Duree de vie (annees)" |};
  {| key := k_pose; isBenefit := true;
     label := "Facilite de pose" |};
  {| key := k_acoustique; isBenefit := true;
     label := "Performance acoustique" |};
  {| key := k_feu; isBenefit := true;
     label := "Resistance au feu" |};
  {| key := k_environnement; isBenefit := true;
     label := "Impact environnemental" |};
  {| key := k_surpression; isBenefit := true;
     label := "Resistance a la surpression" |};
  {| key := k_cout; isBenefit := false;
     label := "Cout (MAD/m)" |}
].

(** ** The engine ([topsis.ts]) *)

(** [TopsisInput].  The maps [costs] and [weights] hold the own entries of
    the two objects; the name of a material is taken not to be one of the
    property names that every object inherits from [Object.prototype]
    (['toString'], ['constructor'], ...), for which [costs[name]] is not
    a number. *)
Record TopsisInput (num : Type) : Type := {
  selectedMaterialsData : list (Material num);
  selectedCriteriaKeys : list CriterionKey;
  allCriteriaDefinition : list Criterion;
  costs : gmap string num;
  weights : gmap CriterionKey num
}.
Arguments selectedMaterialsData {num}.
Arguments selectedCriteriaKeys {num}.
Arguments allCriteriaDefinition {num}.
Arguments costs {num}.
Arguments weights {num}.

(** [TopsisFullResults]: the fields of [TopsisResult] and the trail. *)
Record TopsisFullResults (num : Type) : Type := {
  r_name : string;
  r_score : num;
  r_originalData : Material num;
  r_calculatedValues : gmap CriterionKey num;
  r_initialMatrix : list (list num);
  r_normalizedMatrix : list (list num);
  r_weightedMatrix : list (list num);
  r_idealSolution : list num;
  r_antiIdealSolution : list num;
  r_distanceToIdeal : list num;
  r_distanceToAntiIdeal : list num
}.
Arguments r_name {num}.
Arguments r_score {num}.
Arguments r_originalData {num}.
Arguments r_calculatedValues {num}.
Arguments r_initialMatrix {num}.
Arguments r_normalizedMatrix {num}.
Arguments r_weightedMatrix {num}.
Arguments r_idealSolution {num}.
Arguments r_antiIdealSolution {num}.
Arguments r_distanceToIdeal {num}.
Arguments r_distanceToAntiIdeal {num}.

Section Engine.
Context {num : Type} {N : JSNumber num}.

(** [material[criterionKey]] for a key other than ['cout'].  A material has
    no property ['cout']; the engine never reads it (the read would be
    [undefined]). *)
Definition attribute (material : Material num) (criterionKey : CriterionKey)
  : num :=
  match criterionKey with
  | k_temp => temp material
  | k_corrosion => corrosion material
  | k_vie => vie material
  | k_pose => pose material
  | k_acoustique => acoustique material
  | k_feu => feu material
  | k_environnement => environnement material
  | k_surpression => surpression material
  | k_cout => js_nan
  end.

(** [new Map(allCriteriaDefinition.map(c => [c.key, c]))]: the entries are
    set in order, a later entry replacing an earlier one with its key. *)
Definition criteriaMap_of (allCriteriaDefinition : list Criterion)
  : gmap CriterionKey Criterion :=
  foldl (λ m c, <[key c:=c]> m) ∅ allCriteriaDefinition.

(** [criterion?.isBenefit] as a condition: [undefined] is falsy. *)
Definition isBenefit_opt (criterion : option Criterion) : bool :=
  match criterion with Some c => isBenefit c | None => false end.

(** The comparator of the final [sort]. *)
Definition sort_key (score : num) : num :=
  if js_isNaN score then js_neg_infinity else score.

Definition compare_results (a b : TopsisFullResults num) : num :=
  let scoreA := sort_key (r_score a) in
  let scoreB := sort_key (r_score b) in
  js_sub scoreB scoreA.

(** The values that stages 1 to 6 compute. *)
Record Trail : Type := {
  t_initialMatrix : list (list num);
  t_normalizedMatrix : list (list num);
  t_weightedMatrix : list (list num);
  t_idealSolution : list num;
  t_antiIdealSolution : list num;
  t_distanceToIdeal : list num;
  t_distanceToAntiIdeal : list num;
  t_scores : list num
}.

(** Stage 1. *)
Definition make_initialMatrix (input : TopsisInput num) : list (list num) :=
  (λ material,
    (λ criterionKey,
      if decide (criterionKey = k_cout)
      then js_or (costs input !! name material) js_zero
      else attribute material criterionKey)
    <$> selectedCriteriaKeys input)
  <$> selectedMaterialsData input.

(** Stages 2 to 6, from the initial matrix to the scores. *)
Definition compute_trail (input : TopsisInput num)
    (initialMatrix : list (list num)) : option Trail :=
  (* 2. Normalize the decision matrix *)
  let numRows := length initialMatrix in
  row0 ← initialMatrix !! 0;
  let numCols := length row0 in
  normalizedMatrix ←
    for_range numCols (λ j normalizedMatrix,
      sumOfSquares ←
        for_range numRows (λ i sumOfSquares,
          x ← matrix_get initialMatrix i j;
          Some (js_add sumOfSquares (js_pow2 x))) js_zero;
      let norm := js_sqrt sumOfSquares in
      if js_strict_eq norm js_zero then
        for_range numRows (λ i normalizedMatrix,
          matrix_set normalizedMatrix i j js_zero) normalizedMatrix
      else
        for_range numRows (λ i normalizedMatrix,
          x ← matrix_get initialMatrix i j;
          matrix_set normalizedMatrix i j (js_div x norm)) normalizedMatrix)
      (replicate numRows (replicate numCols js_zero));
  (* 3. Create the weighted normalized decision matrix *)
  weightedMatrix ←
    for_range numRows (λ i weightedMatrix,
      for_range numCols (λ j weightedMatrix,
        let criterionKey := selectedCriteriaKeys input !! j in
        x ← matrix_get normalizedMatrix i j;
        matrix_set weightedMatrix i j
          (js_mul x (js_or (criterionKey ≫= (weights input !!.)) js_zero)))
        weightedMatrix)
      (replicate numRows (replicate numCols js_zero));
  (* 4. Determine the ideal and anti-ideal solutions *)
  let criteriaMap := criteriaMap_of (allCriteriaDefinition input) in
  '(idealSolution, antiIdealSolution) ←
    for_range numCols (λ j '(idealSolution, antiIdealSolution),
      let criterionKey := selectedCriteriaKeys input !! j in
      let criterion := criterionKey ≫= (criteriaMap !!.) in
      let columnValues := (λ row, array_get row j) <$> weightedMatrix in
      if isBenefit_opt criterion then
        Some (array_set idealSolution j (math_max columnValues),
              array_set antiIdealSolution j (math_min columnValues))
      else
        Some (array_set idealSolution j (math_min columnValues),
              array_set antiIdealSolution j (math_max columnValues)))
      (replicate numCols js_zero, replicate numCols js_zero);
  (* 5. Calculate the separation measures *)
  '(distanceToIdeal, distanceToAntiIdeal) ←
    for_range numRows (λ i '(distanceToIdeal, distanceToAntiIdeal),
      '(sumSqIdeal, sumSqAntiIdeal) ←
        for_range numCols (λ j '(sumSqIdeal, sumSqAntiIdeal),
          x ← matrix_get weightedMatrix i j;
          Some (js_add sumSqIdeal
                  (js_pow2 (js_sub x (array_get idealSolution j))),
                js_add sumSqAntiIdeal
                  (js_pow2 (js_sub x (array_get antiIdealSolution j)))))
          (js_zero, js_zero);
      Some (array_set distanceToIdeal i (js_sqrt sumSqIdeal),
            array_set distanceToAntiIdeal i (js_sqrt sumSqAntiIdeal)))
      (replicate numRows js_zero, replicate numRows js_zero);
  (* 6. Calculate the relative closeness to the ideal solution *)
  scores ←
    for_range numRows (λ i scores,
      let denominator :=
        js_add (array_get distanceToIdeal i)
               (array_get distanceToAntiIdeal i) in
      Some (array_set scores i
              (if js_strict_eq denominator js_zero then js_nan
               else js_div (array_get distanceToAntiIdeal i) denominator)))
      (replicate numRows js_zero);
  Some {| t_initialMatrix := initialMatrix;
          t_normalizedMatrix := normalizedMatrix;
          t_weightedMatrix := weightedMatrix;
          t_idealSolution := idealSolution;
          t_antiIdealSolution := antiIdealSolution;
          t_distanceToIdeal := distanceToIdeal;
          t_distanceToAntiIdeal := distanceToAntiIdeal;
          t_scores := scores |}.

(** Stage 7, the result object of one material. *)
Definition make_result (input : TopsisInput num) (t : Trail)
    (index : nat) (material : Material num)
  : option (TopsisFullResults num) :=
  calculatedValues ←
    foldl (λ acc p,
      calculatedValues ← acc;
      x ← matrix_get (t_initialMatrix t) index p.1;
      Some (<[p.2:=x]> calculatedValues))
    (Some ∅) (imap pair (selectedCriteriaKeys input));
  Some {| r_name := name material;
          r_score := array_get (t_scores t) index;
          r_originalData := material;
          r_calculatedValues := calculatedValues;
          r_initialMatrix := t_initialMatrix t;
          r_normalizedMatrix := t_normalizedMatrix t;
          r_weightedMatrix := t_weightedMatrix t;
          r_idealSolution := t_idealSolution t;
          r_antiIdealSolution := t_antiIdealSolution t;
          r_distanceToIdeal := t_distanceToIdeal t;
          r_distanceToAntiIdeal := t_distanceToAntiIdeal t |}.

(** [runTopsisCalculation]; [None] is an exception thrown on the way. *)
Definition runTopsisCalculation (input : TopsisInput num)
  : option (list (TopsisFullResults num)) :=
  if (length (selectedMaterialsData input) =? 0)
     || (length (selectedCriteriaKeys input) =? 0)
  then Some []
  else
    (* 1. Create the decision matrix *)
    let initialMatrix := make_initialMatrix input in
    trail ← compute_trail input initialMatrix;
    (* 7. Rank the preferences *)
    results ←
      map_indexed (make_result input trail) (selectedMaterialsData input);
    Some (array_sort compare_results results).

End Engine.

(** ** Interpretation 1: binary64 floating point *)

Global Instance float_number : JSNumber float := {|
  js_zero := PrimFloat.zero;
  js_nan := PrimFloat.nan;
  js_infinity := PrimFloat.infinity;
  js_neg_infinity := PrimFloat.neg_infinity;
  js_add := PrimFloat.add;
  js_sub := PrimFloat.sub;
  js_mul := PrimFloat.mul;
  js_div := PrimFloat.div;
  js_sqrt := PrimFloat.sqrt;
  js_lt := PrimFloat.ltb;
  js_strict_eq := PrimFloat.eqb;
  js_isNaN := PrimFloat.is_nan;
  js_is_neg_zero := λ x,
    match PrimFloat.classify x with NZero => true | _ => false end
|}.

(** ** Interpretation 2: exact arithmetic on the extended reals *)

(** A number is a real, one of the two infinities, or [NaN].  The
    operations follow IEEE 754 on the special values and are exact on the
    finite ones; there is a single zero, which counts as [+0]. *)
Inductive xreal : Type :=
  | Fin (r : R)
  | PInf
  | NInf
  | NaN.

Definition Rltb (a b : R) : bool := if Rlt_dec a b then true else false.
Definition Reqb (a b : R) : bool := if Req_dec_T a b then true else false.

Definition xr_opp (x : xreal) : xreal :=
  match x with
  | Fin a => Fin (- a)
  | PInf => NInf
  | NInf => PInf
  | NaN => NaN
  end.

Definition xr_add (x y : xreal) : xreal :=
  match x, y with
  | NaN, _ | _, NaN => NaN
  | Fin a, Fin b => Fin (a + b)
  | PInf, NInf | NInf, PInf => NaN
  | PInf, _ | _, PInf => PInf
  | NInf, _ | _, NInf => NInf
  end.

Definition xr_sub (x y : xreal) : xreal := xr_add x (xr_opp y).

(** An infinity times the finite [a]. *)
Definition xr_scale_inf (positive : bool) (a : R) : xreal :=
  if Reqb a 0 then NaN
  else if Bool.eqb positive (Rltb 0 a) then PInf else NInf.

Definition xr_mul (x y : xreal) : xreal :=
  match x, y with
  | NaN, _ | _, NaN => NaN
  | Fin a, Fin b => Fin (a * b)
  | PInf, Fin a | Fin a, PInf => xr_scale_inf true a
  | NInf, Fin a | Fin a, NInf => xr_scale_inf false a
  | PInf, PInf | NInf, NInf => PInf
  | PInf, NInf | NInf, PInf => NInf
  end.

Definition xr_div (x y : xreal) : xreal :=
  match x, y with
  | NaN, _ | _, NaN => NaN
  | Fin a, Fin b =>
      if Reqb b 0 then
        if Reqb a 0 then NaN else if Rltb 0 a then PInf else NInf
      else Fin (a / b)
  | Fin _, (PInf | NInf) => Fin 0
  | PInf, Fin b => if Rltb b 0 then NInf else PInf
  | NInf, Fin b => if Rltb b 0 then PInf else NInf
  | (PInf | NInf), (PInf | NInf) => NaN
  end.

Definition xr_sqrt (x : xreal) : xreal :=
  match x with
  | Fin a => if Rltb a 0 then NaN else Fin (sqrt a)
  | PInf => PInf
  | NInf | NaN => NaN
  end.

Definition xr_lt (x y : xreal) : bool :=
  match x, y with
  | NaN, _ | _, NaN => false
  | Fin a, Fin b => Rltb a b
  | NInf, (Fin _ | PInf) => true
  | Fin _, PInf => true
  | _, _ => false
  end.

Definition xr_strict_eq (x y : xreal) : bool :=
  match x, y with
  | Fin a, Fin b => Reqb a b
  | PInf, PInf | NInf, NInf => true
  | _, _ => false
  end.

Definition xr_isNaN (x : xreal) : bool :=
  match x with NaN => true | _ => false end.

Global Instance xreal_number : JSNumber xreal := {|
  js_zero := Fin 0;
  js_nan := NaN;
  js_infinity := PInf;
  js_neg_infinity := NInf;
  js_add := xr_add;
  js_sub := xr_sub;
  js_mul := xr_mul;
  js_div := xr_div;
  js_sqrt := xr_sqrt;
  js_lt := xr_lt;
  js_strict_eq := xr_strict_eq;
  js_isNaN := xr_isNaN;
  js_is_neg_zero := λ _, false
|}.

(** ** The stages in closed form

    Each stage is a loop nest over the index ranges; its result is the
    array tabulated from a closed formula.  The formulas below are the
    loop bodies with the loop state removed; that the loops compute them, and
    never throw, is proved below ([compute_trail_eq], [run_eq]). *)

(** The array whose entry [i] is [f i], for [i] below [n]. *)
Definition tabulate {A : Type} (n : nat) (f : nat → A) : list A :=
  f <$> seq 0 n.

Definition tabulate2 {A : Type} (nr nc : nat) (f : nat → nat → A)
  : list (list A) :=
  tabulate nr (λ i, tabulate nc (f i)).

(** [sum_over n f] is [0 + f 0 + ... + f (n-1)], added in this order. *)
Definition sum_over {num : Type} {N : JSNumber num} (n : nat) (f : nat → num)
  : num :=
  foldl (λ acc i, js_add acc (f i)) js_zero (seq 0 n).

Section StageFormulas.
Context {num : Type} {N : JSNumber num}.
Variable input : TopsisInput num.

(** The raw value of material [i] on the selected criterion [j]. *)
Definition raw_value (i j : nat) : num :=
  match selectedMaterialsData input !! i, selectedCriteriaKeys input !! j with
  | Some material, Some criterionKey =>
      if decide (criterionKey = k_cout)
      then js_or (costs input !! name material) js_zero
      else attribute material criterionKey
  | _, _ => js_nan
  end.

Definition numRows : nat := length (selectedMaterialsData input).
Definition numCols : nat := length (selectedCriteriaKeys input).

(** [norm] of column [j]. *)
Definition column_norm (j : nat) : num :=
  js_sqrt (sum_over numRows (λ i, js_pow2 (raw_value i j))).

Definition normalized (i j : nat) : num :=
  if js_strict_eq (column_norm j) js_zero then js_zero
  else js_div (raw_value i j) (column_norm j).

(** [weights[criterionKey] || 0] for column [j]. *)
Definition weight_of (j : nat) : num :=
  js_or (selectedCriteriaKeys input !! j ≫= (weights input !!.)) js_zero.

Definition weighted (i j : nat) : num :=
  js_mul (normalized i j) (weight_of j).

(** [criterion?.isBenefit] for column [j]. *)
Definition benefit_column (j : nat) : bool :=
  isBenefit_opt
    (selectedCriteriaKeys input !! j
       ≫= (criteriaMap_of (allCriteriaDefinition input) !!.)).

Definition weighted_column (j : nat) : list num :=
  tabulate numRows (λ i, weighted i j).

Definition ideal (j : nat) : num :=
  if benefit_column j then math_max (weighted_column j)
  else math_min (weighted_column j).

Definition anti_ideal (j : nat) : num :=
  if benefit_column j then math_min (weighted_column j)
  else math_max (weighted_column j).

(** Euclidean distance of row [i] of the weighted matrix to the point [v]. *)
Definition separation (v : nat → num) (i : nat) : num :=
  js_sqrt (sum_over numCols (λ j, js_pow2 (js_sub (weighted i j) (v j)))).

Definition closeness (dPlus dMinus : num) : num :=
  let denominator := js_add dPlus dMinus in
  if js_strict_eq denominator js_zero then js_nan
  else js_div dMinus denominator.

Definition score_of (i : nat) : num :=
  closeness (separation ideal i) (separation anti_ideal i).

Definition trail_of : Trail := {|
  t_initialMatrix := tabulate2 numRows numCols raw_value;
  t_normalizedMatrix := tabulate2 numRows numCols normalized;
  t_weightedMatrix := tabulate2 numRows numCols weighted;
  t_idealSolution := tabulate numCols ideal;
  t_antiIdealSolution := tabulate numCols anti_ideal;
  t_distanceToIdeal := tabulate numRows (separation ideal);
  t_distanceToAntiIdeal := tabulate numRows (separation anti_ideal);
  t_scores := tabulate numRows score_of
|}.

End StageFormulas.

Section ResultFormulas.
Context {num : Type} {N : JSNumber num}.
Variable input : TopsisInput num.

(** The object [calculatedValues] of material [index]. *)
Definition calculated_values (index : nat) : gmap CriterionKey num :=
  foldl (λ calculatedValues (p : nat * CriterionKey),
           <[p.2:=raw_value input index p.1]> calculatedValues)
    ∅ (imap pair (selectedCriteriaKeys input)).

(** The result object of material [index], before the sort. *)
Definition result_of (index : nat) (material : Material num)
  : TopsisFullResults num := {|
  r_name := name material;
  r_score := score_of input index;
  r_originalData := material;
  r_calculatedValues := calculated_values index;
  r_initialMatrix := t_initialMatrix (trail_of input);
  r_normalizedMatrix := t_normalizedMatrix (trail_of input);
  r_weightedMatrix := t_weightedMatrix (trail_of input);
  r_idealSolution := t_idealSolution (trail_of input);
  r_antiIdealSolution := t_antiIdealSolution (trail_of input);
  r_distanceToIdeal := t_distanceToIdeal (trail_of input);
  r_distanceToAntiIdeal := t_distanceToAntiIdeal (trail_of input)
|}.

Definition unsorted_results : list (TopsisFullResults num) :=
  imap result_of (selectedMaterialsData input).

End ResultFormulas.

(** ** The vocabulary of the properties *)

(** Column [j] of a matrix, as the engine reads it
    ([matrix.map(row => row[j])]). *)
Definition column {num : Type} {N : JSNumber num} (M : list (list num))
    (j : nat) : list num :=
  (λ row, array_get row j) <$> M.

(** The entry in row [i] and column [j] of a matrix, if there is one. *)
Definition matrix_entry {A : Type} (M : list (list A)) (i j : nat) : option A :=
  row ← M !! i; row !! j.

(** Euclidean distance between a row and a point, as stage 5 accumulates
    it: the squared differences are added from the first column on. *)
Definition distance_to {num : Type} {N : JSNumber num} (row v : list num)
  : num :=
  js_sqrt (foldl (λ acc p, js_add acc (js_pow2 (js_sub p.1 p.2)))
             js_zero (zip row v)).

(** In the list of results, the result named [a] stands before the result
    named [b]. *)
Definition ranked_before {num : Type} (results : list (TopsisFullResults num))
    (a b : string) : Prop :=
  ∃ i j ra rb, i < j ∧ results !! i = Some ra ∧ results !! j = Some rb
               ∧ r_name ra = a ∧ r_name rb = b.

(** The names of the results of a run, in order. *)
Definition ranking {num : Type} (run : option (list (TopsisFullResults num)))
  : option (list string) :=
  (λ results : list (TopsisFullResults num), r_name <$> results) <$> run.


(** An entry of the cost map or of the weight map as the engine reads it:
    the entry itself, and 0 for an entry that is missing, that is [NaN],
    or that is a zero of either sign. *)
Definition entry_or_zero {num : Type} {N : JSNumber num} (entry : option num)
  : num :=
  match entry with
  | Some x => if js_isNaN x || js_strict_eq x js_zero then js_zero else x
  | None => js_zero
  end.

(** ** Exact arithmetic: the vocabulary of the properties *)

(** The real a finite number stands for. *)
Definition to_R (x : xreal) : R :=
  match x with Fin r => r | _ => 0%R end.

Definition xr_is_finite (x : xreal) : bool :=
  match x with Fin _ => true | _ => false end.

(** [0 + f 0 + ... + f (n-1)] over the reals, added in the order of
    [sum_over]. *)
Definition Rsum (n : nat) (f : nat → R) : R :=
  foldl (λ acc i, (acc + f i)%R) 0%R (seq 0 n).

(** The Euclidean norm of a list of reals. *)
Definition euclidean_norm (l : list R) : R :=
  sqrt (foldl (λ acc x, acc + x * x)%R 0%R l).

(** [m] is the greatest, or the least, entry of [l]. *)
Definition greatest (m : R) (l : list R) : Prop :=
  m ∈ l ∧ ∀ x, x ∈ l → (x <= m)%R.

Definition least (m : R) (l : list R) : Prop :=
  m ∈ l ∧ ∀ x, x ∈ l → (m <= x)%R.

(** The inputs of the data model: every attribute of a selected material,
    every cost and every weight is a finite number. *)
Definition numeric_material (material : Material xreal) : Prop :=
  ∀ k, k ≠ k_cout → xr_is_finite (attribute material k) = true.

Definition numeric_input (input : TopsisInput xreal) : Prop :=
  Forall numeric_material (selectedMaterialsData input)
  ∧ map_Forall (λ _ v, xr_is_finite v = true) (costs input)
  ∧ map_Forall (λ _ v, xr_is_finite v = true) (weights input).

Section RealFormulas.
Variable input : TopsisInput xreal.

(** The stages as real-valued formulas. *)
Definition Rraw (i j : nat) : R := to_R (raw_value input i j).
Definition Rweight (j : nat) : R := to_R (weight_of input j).

Definition Rnorm (j : nat) : R :=
  sqrt (Rsum (numRows input) (λ i, Rraw i j * Rraw i j)%R).

Definition Rnormalized (i j : nat) : R :=
  if Reqb (Rnorm j) 0 then 0%R else (Rraw i j / Rnorm j)%R.

Definition Rweighted (i j : nat) : R := (Rnormalized i j * Rweight j)%R.

Definition Rcolumn (j : nat) : list R :=
  tabulate (numRows input) (λ i, Rweighted i j).

Definition Rideal (j : nat) : R :=
  if benefit_column input j then MaxRlist (Rcolumn j) else MinRlist (Rcolumn j).

Definition Ranti_ideal (j : nat) : R :=
  if benefit_column input j then MinRlist (Rcolumn j) else MaxRlist (Rcolumn j).

Definition Rseparation (v : nat → R) (i : nat) : R :=
  sqrt (Rsum (numCols input)
          (λ j, (Rweighted i j - v j) * (Rweighted i j - v j))%R).

Definition Rscore (i : nat) : xreal :=
  let denominator := (Rseparation Rideal i + Rseparation Ranti_ideal i)%R in
  if Reqb denominator 0 then NaN
  else Fin (Rseparation Ranti_ideal i / denominator).

End RealFormulas.

(** The squared distance of row [i] of the weighted matrix to [v]. *)
Definition Rsq_separation (input : TopsisInput xreal) (v : nat → R) (i : nat)
  : R :=
  Rsum (numCols input)
    (λ j, (Rweighted input i j - v j) * (Rweighted input i j - v j))%R.

(** A number that is not negative: a real that is at least 0, [+Infinity],
    or [NaN]. *)
Definition xr_not_negative (x : xreal) : Prop :=
  match x with
  | Fin a => (0 <= a)%R
  | PInf | NaN => True
  | NInf => False
  end.

(** The range of a score: [NaN], or a real between 0 and 1. *)
Definition score_in_range (x : xreal) : Prop :=
  x = NaN ∨ ∃ s, x = Fin s ∧ (0 <= s <= 1)%R.

(** The result [r] carries the score of row [i]: with [D+] and [D-] the
    Euclidean distances of row [i] of the weighted matrix to the ideal and
    to the anti-ideal solution, the score is [NaN] when [D+ + D- === 0] and
    [D- / (D+ + D-)] otherwise. *)
Definition scored_from_row (r : TopsisFullResults xreal) (i : nat) : Prop :=
  ∃ row dPlus dMinus,
    r_weightedMatrix r !! i = Some row
    ∧ dPlus = distance_to row (r_idealSolution r)
    ∧ dMinus = distance_to row (r_antiIdealSolution r)
    ∧ r_distanceToIdeal r !! i = Some dPlus
    ∧ r_distanceToAntiIdeal r !! i = Some dMinus
    ∧ r_score r = (if xr_strict_eq (xr_add dPlus dMinus) (Fin 0) then NaN
                   else xr_div dMinus (xr_add dPlus dMinus)).

(** [input'] is [input] with the raw value of material [iA] on the
    criterion of column [jc] raised; every other cell, the selected
    criteria, their definitions and the weights are the same. *)
Record benefit_value_raised (input input' : TopsisInput xreal)
    (iA jc : nat) : Prop := {
  raised_keys : selectedCriteriaKeys input' = selectedCriteriaKeys input;
  raised_catalog : allCriteriaDefinition input' = allCriteriaDefinition input;
  raised_weights : weights input' = weights input;
  raised_names :
    name <$> selectedMaterialsData input'
    = name <$> selectedMaterialsData input;
  raised_cell :
    ∃ a a', raw_value input iA jc = Fin a ∧ raw_value input' iA jc = Fin a'
            ∧ (a < a')%R;
  raised_other_cells :
    ∀ i j, i ≠ iA ∨ j ≠ jc → raw_value input' i j = raw_value input i j
}.

(** Monotonicity, over the inputs that [admissible] lets in: raising the
    value of a material on a benefit criterion of positive weight does not
    move the material behind any other material that it stood before. *)
Definition benefit_monotonicity (admissible : TopsisInput xreal → Prop)
  : Prop :=
  ∀ input input' iA jc w,
    admissible input →
    numeric_input input → numeric_input input' →
    NoDup (name <$> selectedMaterialsData input) →
    benefit_column input jc = true →
    weight_of input jc = Fin w → (0 < w)%R →
    benefit_value_raised input input' iA jc →
    ∃ results results',
      runTopsisCalculation input = Some results
      ∧ runTopsisCalculation input' = Some results'
      ∧ ∀ iB mA mB, iB ≠ iA →
          selectedMaterialsData input !! iA = Some mA →
          selectedMaterialsData input !! iB = Some mB →
          ranked_before results (name mA) (name mB) →
          ranked_before results' (name mA) (name mB).

(** Every raw value of the decision matrix is at least 0. *)
Definition nonnegative_values (input : TopsisInput xreal) : Prop :=
  ∀ i j x, raw_value input i j = Fin x → (0 <= x)%R.

(** The inputs on which monotonicity is shown: exactly one criterion is
    selected, or at most two materials are, with no negative raw value. *)
Definition one_criterion_or_two_materials (input : TopsisInput xreal)
  : Prop :=
  length (selectedCriteriaKeys input) = 1
  ∨ (length (selectedMaterialsData input) ≤ 2 ∧ nonnegative_values input).

(** ** Binary64: the vocabulary of the properties

    The primitive binary64 numbers are specified through [Prim2SF], which
    gives the sign, the mantissa and the exponent of a number
    ([FloatAxioms]).  The definitions below are stated on that form. *)

(** The sign that a number other than [NaN] carries. *)
Definition SFsign_is (s : bool) (x : spec_float) : Prop :=
  match x with
  | S754_zero s' | S754_infinity s' | S754_finite s' _ _ => s' = s
  | S754_nan => False
  end.

(** A binary64 number as an integer, in units of the least positive number
    [2 ^ -1074]; the infinities stand beyond every finite number. *)
Definition SFint (x : spec_float) : Z :=
  match x with
  | S754_zero _ | S754_nan => 0%Z
  | S754_infinity s => cond_Zopp s (2 ^ 2098)%Z
  | S754_finite s m e => cond_Zopp s (Zpos m * 2 ^ (e + 1074))%Z
  end.

(** A number that is not negative: [NaN], a zero, a positive number or
    [+Infinity]. *)
Definition SFnot_negative (x : spec_float) : Prop :=
  match x with
  | S754_infinity true | S754_finite true _ _ => False
  | _ => True
  end.


Definition SFis_nan (x : spec_float) : bool :=
  match x with S754_nan => true | _ => false end.

Definition float_int (x : float) : Z := SFint (Prim2SF x).

Definition float_not_negative (x : float) : Prop :=
  SFnot_negative (Prim2SF x).

(** ** Example inputs *)

(** A material for the examples: its name, its [temp] and [corrosion], and
    one value for its other attributes. *)
Definition example_material {num : Type} (n : string) (t c other : num)
  : Material num :=
  {| name := n; type := "EF"; pn := []; temp := t; corrosion := c;
     vie := other; pose := other; acoustique := other; feu := other;
     environnement := other; surpression := other |}.

(** Scenario B: two materials, the one benefit criterion [temp] with the
    values 3 and 4, weight 1. *)
Definition scenarioB : TopsisInput float :=
  {| selectedMaterialsData :=
       [example_material "material1" 3%float 1%float 1%float;
        example_material "material2" 4%float 1%float 1%float];
     selectedCriteriaKeys := [k_temp];
     allCriteriaDefinition := allCriteria;
     costs := ∅;
     weights := {[ k_temp := 1%float ]} |}.

(** An input with no material selected. *)
Definition empty_selection_input : TopsisInput float :=
  {| selectedMaterialsData := [];
     selectedCriteriaKeys := [k_temp];
     allCriteriaDefinition := allCriteria;
     costs := ∅;
     weights := {[ k_temp := 1%float ]} |}.

(** Scenario B in exact arithmetic, the [temp] of the first material left
    open: two materials, the one criterion [temp], weight 1. *)
Definition single_criterion_input (temp1 : R) : TopsisInput xreal :=
  {| selectedMaterialsData :=
       [example_material "material1" (Fin temp1) (Fin 1) (Fin 1);
        example_material "material2" (Fin 4) (Fin 1) (Fin 1)];
     selectedCriteriaKeys := [k_temp];
     allCriteriaDefinition := allCriteria;
     costs := ∅;
     weights := {[ k_temp := Fin 1 ]} |}.

(** Two materials, [temp] and the cost criterion, the cost of the first
    material recorded and that of the second missing; the catalog is
    empty, so that neither key is defined. *)
Definition cost_input : TopsisInput xreal :=
  {| selectedMaterialsData :=
       [example_material "material1" (Fin 3) (Fin 1) (Fin 1);
        example_material "material2" (Fin 4) (Fin 1) (Fin 1)];
     selectedCriteriaKeys := [k_temp; k_cout];
     allCriteriaDefinition := [];
     costs := {[ "material1" := Fin 10 ]};
     weights := {[ k_temp := Fin (1 / 2); k_cout := Fin (1 / 2) ]} |}.

(** Three materials and the two benefit criteria [temp] (weight 1/8) and
    [corrosion] (weight 7/8).  [temp] and [corrosion] are 0 and 8 for B,
    3 and 0 for C, and [tempA] and 7 for A. *)
Definition rank_reversal_input (tempA : R) : TopsisInput xreal :=
  {| selectedMaterialsData :=
       [example_material "A" (Fin tempA) (Fin 7) (Fin 1);
        example_material "B" (Fin 0) (Fin 8) (Fin 1);
        example_material "C" (Fin 3) (Fin 0) (Fin 1)];
     selectedCriteriaKeys := [k_temp; k_corrosion];
     allCriteriaDefinition := allCriteria;
     costs := ∅;
     weights := {[ k_temp := Fin (1 / 8); k_corrosion := Fin (7 / 8) ]} |}.

(** The squared distances of A and of B to the ideal ([plus]) and to the
    anti-ideal ([minus]) solution, as functions of A's [temp]. *)
Definition rr_A_plus (a : R) : R :=
  ((a - 3) * (a - 3) / 64 / (a * a + 9) + 49 / 64 / 113)%R.
Definition rr_A_minus (a : R) : R :=
  (a * a / 64 / (a * a + 9) + 2401 / 64 / 113)%R.
Definition rr_B_plus (a : R) : R := (9 / 64 / (a * a + 9))%R.
Definition rr_B_minus : R := (49 / 113)%R.

(** Scenario A: one material, the one benefit criterion [temp] with the
    value 5, weight 1. *)
Definition scenarioA : TopsisInput float :=
  {| selectedMaterialsData :=
       [example_material "material1" 5%float 1%float 1%float];
     selectedCriteriaKeys := [k_temp];
     allCriteriaDefinition := allCriteria;
     costs := ∅;
     weights := {[ k_temp := 1%float ]} |}.

(** The rank reversal of [rank_reversal_input], as binary64 computes it. *)
Definition rank_reversal_input_float (tempA : float) : TopsisInput float :=
  {| selectedMaterialsData :=
       [example_material "A" tempA 7%float 1%float;
        example_material "B" 0%float 8%float 1%float;
        example_material "C" 3%float 0%float 1%float];
     selectedCriteriaKeys := [k_temp; k_corrosion];
     allCriteriaDefinition := allCriteria;
     costs := ∅;
     weights := {[ k_temp := 0.125%float; k_corrosion := 0.875%float ]} |}.


(** One material with [temp] 3; the cost recorded for it and the weight
    recorded for [temp] are [NaN]. *)
Definition nan_entries_input : TopsisInput float :=
  {| selectedMaterialsData :=
       [example_material "material1" 3%float 1%float 1%float];
     selectedCriteriaKeys := [k_temp; k_cout];
     allCriteriaDefinition := allCriteria;
     costs := {[ "material1" := nan ]};
     weights := {[ k_temp := nan; k_cout := 1%float ]} |}.

(** Two materials, B with [temp] 1 listed before A, and the one benefit
    criterion [temp] with weight 1. *)
Definition raised_input_float (tempA : float) : TopsisInput float :=
  {| selectedMaterialsData :=
       [example_material "B" 1%float 1%float 1%float;
        example_material "A" tempA 1%float 1%float];
     selectedCriteriaKeys := [k_temp];
     allCriteriaDefinition := allCriteria;
     costs := ∅;
     weights := {[ k_temp := 1%float ]} |}.

(** Three materials and the one benefit criterion [temp], with a weight so
    small that the squares of the distances underflow: in binary64 the
    scores come out as 0 for A, [NaN] for B and 1 for C. *)
Definition mixed_scores_input : TopsisInput float :=
  {| selectedMaterialsData :=
       [example_material "A" 0%float 1%float 1%float;
        example_material "B" 1.5%float 1%float 1%float;
        example_material "C" 3%float 1%float 1%float];
     selectedCriteriaKeys := [k_temp];
     allCriteriaDefinition := allCriteria;
     costs := ∅;
     weights := {[ k_temp := 3.4e-162%float ]} |}.

(** ** The vocabulary of the further properties *)

(** The value of a material on a criterion, as stage 1 reads it: the
    recorded cost for ['cout'], the attribute otherwise. *)
Definition criterion_value {num : Type} {N : JSNumber num}
    (input : TopsisInput num) (material : Material num) (k : CriterionKey)
  : num :=
  if decide (k = k_cout) then js_or (costs input !! name material) js_zero
  else attribute material k.

(** [M] is a matrix of [nr] rows of [nc] entries each. *)
Definition has_shape {A : Type} (nr nc : nat) (M : list (list A)) : Prop :=
  length M = nr ∧ Forall (λ row, length row = nc) M.

(** All rows of a matrix are the same. *)
Definition all_rows_equal {A : Type} (M : list (list A)) : Prop :=
  ∀ row row', row ∈ M → row' ∈ M → row = row'.

(** No weight in use is negative. *)
Definition nonnegative_weights (input : TopsisInput xreal) : Prop :=
  ∀ j w, weight_of input j = Fin w → (0 <= w)%R.

(** Material [iA] is at least as good as every material on every selected
    criterion: its value is the greatest of the column where the criterion is
    treated as a benefit, and the least where it is treated as a cost. *)
Definition best_on_every_criterion (input : TopsisInput xreal) (iA : nat)
  : Prop :=
  ∀ i j a x, raw_value input iA j = Fin a → raw_value input i j = Fin x →
    if benefit_column input j then (x <= a)%R else (a <= x)%R.

(** Material [iA] is at most as good as every material on every selected
    criterion. *)
Definition worst_on_every_criterion (input : TopsisInput xreal) (iA : nat)
  : Prop :=
  ∀ i j a x, raw_value input iA j = Fin a → raw_value input i j = Fin x →
    if benefit_column input j then (a <= x)%R else (x <= a)%R.

(** [input] and [input'] have the same decision data: the same names of
    materials, as many criteria, and cell by cell the same value, column by
    column the same weight in use and the same polarity. *)
Definition same_decision_data {num : Type} {N : JSNumber num}
    (input input' : TopsisInput num) : Prop :=
  name <$> selectedMaterialsData input' = name <$> selectedMaterialsData input
  ∧ numCols input' = numCols input
  ∧ (∀ i j, i < numRows input → j < numCols input →
            raw_value input' i j = raw_value input i j)
  ∧ (∀ j, j < numCols input → weight_of input' j = weight_of input j)
  ∧ (∀ j, j < numCols input →
          benefit_column input' j = benefit_column input j).

(** Two results with the same name, score and trail. *)
Definition same_result {num : Type} (r r' : TopsisFullResults num) : Prop :=
  r_name r' = r_name r ∧ r_score r' = r_score r
  ∧ r_initialMatrix r' = r_initialMatrix r
  ∧ r_normalizedMatrix r' = r_normalizedMatrix r
  ∧ r_weightedMatrix r' = r_weightedMatrix r
  ∧ r_idealSolution r' = r_idealSolution r
  ∧ r_antiIdealSolution r' = r_antiIdealSolution r
  ∧ r_distanceToIdeal r' = r_distanceToIdeal r
  ∧ r_distanceToAntiIdeal r' = r_distanceToAntiIdeal r.

(** ** The material database ([materials.ts]) *)

(** The number literals of the source are integers; [js_int z] is the
    number that the literal [z] denotes. *)
Class JSLiteral (num : Type) : Type := js_int : Z → num.

(** Binary64: exact for the integers below [2^53]. *)
Global Instance float_literal : JSLiteral float :=
  λ z, PrimFloat.of_uint63 (Uint63.of_Z z).

Global Instance xreal_literal : JSLiteral xreal := λ z, Fin (IZR z).

Section Database.
Context {num : Type} {L : JSLiteral num}.

(** [materialsDb]. *)
Definition materialsDb : list (Material num) := [
  {| name := "Cuivre"; type := "EF, ECS";
     pn := js_int <$> [10; 16; 20; 25]%Z;
     temp := js_int 90; corrosion := js_int 10; vie := js_int 70;
     pose := js_int 3; acoustique := js_int 7; feu := js_int 7;
     environnement := js_int 3; surpression := js_int 10 |};
  {| name := "PER"; type := "EF, ECS";
     pn := js_int <$> [6; 10; 16]%Z;
     temp := js_int 90; corrosion := js_int 7; vie := js_int 50;
     pose := js_int 9; acoustique := js_int 7; feu := js_int 5;
     environnement := js_int 5; surpression := js_int 3 |};
  {| name := "PP-R"; type := "EF, ECS";
     pn := js_int <$> [10; 16; 20; 25]%Z;
     temp := js_int 95; corrosion := js_int 9; vie := js_int 50;
     pose := js_int 6; acoustique := js_int 7; feu := js_int 7;
     environnement := js_int 5; surpression := js_int 7 |};
  {| name := "Fonte"; type := "EV";
     pn := js_int <$> [10; 16; 25; 40]%Z;
     temp := js_int 80; corrosion := js_int 9; vie := js_int 100;
     pose := js_int 3; acoustique := js_int 10; feu := js_int 9;
     environnement := js_int 3; surpression := js_int 10 |};
  {| name := "CPVC"; type := "EF, ECS";
     pn := js_int <$> [10; 16; 20; 25]%Z;
     temp := js_int 95; corrosion := js_int 10; vie := js_int 60;
     pose := js_int 9; acoustique := js_int 7; feu := js_int 9;
     environnement := js_int 5; surpression := js_int 10 |};
  {| name := "PEHD"; type := "EF, EV";
     pn := js_int <$> [6; 10; 16; 20; 25]%Z;
     temp := js_int 80; corrosion := js_int 10; vie := js_int 100;
     pose := js_int 8; acoustique := js_int 7; feu := js_int 5;
     environnement := js_int 5; surpression := js_int 9 |};
  {| name := "PVC"; type := "EV";
     pn := js_int <$> [6; 10; 16; 25]%Z;
     temp := js_int 60; corrosion := js_int 8; vie := js_int 50;
     pose := js_int 9; acoustique := js_int 6; feu := js_int 5;
     environnement := js_int 5; surpression := js_int 6 |}
].

(** [pressureNominalValues]. *)
Definition pressureNominalValues : list num :=
  js_int <$> [6; 10; 16; 20; 25; 40]%Z.

End Database.

(** ** The page ([page.tsx]) *)

(** [s.includes(sub)] on strings: [sub] occurs in [s]. *)
Fixpoint string_includes (s sub : string) : bool :=
  String.prefix sub s
  || match s with
     | EmptyString => false
     | String _ rest => string_includes rest sub
     end.

(** A string, or [null] or [undefined], as a condition: the empty string
    is falsy. *)
Definition js_truthy_string (s : option string) : bool :=
  match s with
  | Some s => negb (String.eqb s "")
  | None => false
  end.

(** [NetworkMainType]. *)
Inductive NetworkMainType : Type := Alimentation | Evacuation.

Global Instance NetworkMainType_eq_dec : EqDecision NetworkMainType.
Proof. solve_decision. Defined.

(** The state that the effect on the materials writes. *)
Record MaterialsState (num : Type) : Type := {
  availableMaterials : list (Material num);
  selectedMaterialNames : list string;
  selectedPN : option num
}.
Arguments availableMaterials {num}.
Arguments selectedMaterialNames {num}.
Arguments selectedPN {num}.

(** The updater of [handleMaterialSelection] and of
    [handleCriteriaSelection]: an item that is selected is taken out, an
    item that is not is added at the end. *)
Definition toggle_selected {A : Type} `{EqDecision A} (item : A)
    (prev : list A) : list A :=
  if bool_decide (item ∈ prev) then filter (λ x, x ≠ item) prev
  else prev ++ [item].

Definition handleMaterialSelection (materialName : string)
    (prev : list string) : list string :=
  toggle_selected materialName prev.

Definition handleCriteriaSelection (criterionKey : CriterionKey)
    (prev : list CriterionKey) : list CriterionKey :=
  toggle_selected criterionKey prev.

(** The row header of [renderMatrixAsTable]:
    [rowHeaders[rowIndex] || `Matériau ${rowIndex + 1}`]. *)
Definition row_header (rowHeaders : list string) (rowIndex : nat) : string :=
  match rowHeaders !! rowIndex with
  | Some header =>
      if String.eqb header "" then "Matériau " +:+ pretty (rowIndex + 1)
      else header
  | None => "Matériau " +:+ pretty (rowIndex + 1)
  end.

Section Page.
Context {num : Type} {N : JSNumber num} {L : JSLiteral num}.

(** [array.includes(x)] on numbers (SameValueZero: [NaN] is found). *)
Definition array_includes (array : list num) (x : num) : bool :=
  existsb (λ y, js_strict_eq y x || (js_isNaN y && js_isNaN x)) array.

(** [x >= y] and [x <= y]: false when an operand is [NaN]. *)
Definition js_ge (x y : num) : bool :=
  negb (js_isNaN x || js_isNaN y) && negb (js_lt x y).

Definition js_le (x y : num) : bool :=
  negb (js_isNaN x || js_isNaN y) && negb (js_lt y x).

(** The effect on [networkMainType], [selectedSubtype] and [selectedPN]:
    the materials of the database that suit the network. *)
Definition materials_effect (networkMainType : option NetworkMainType)
    (selectedSubtype : option string) (state : MaterialsState num)
  : MaterialsState num :=
  if bool_decide (is_Some networkMainType) && js_truthy_string selectedSubtype
  then
    let filtered :=
      match networkMainType, selectedPN state with
      | Some Evacuation, _ =>
          filter (λ m, string_includes (type m) "EV") materialsDb
      | Some Alimentation, Some selectedPN =>
          let mappedType := default "" selectedSubtype in
          filter (λ m, string_includes (type m) mappedType
                       && array_includes (pn m) selectedPN) materialsDb
      | _, _ => []
      end in
    {| availableMaterials := filtered;
       selectedMaterialNames := [];
       selectedPN :=
         if bool_decide (networkMainType = Some Evacuation) then None
         else selectedPN state |}
  else
    {| availableMaterials := [];
       selectedMaterialNames := selectedMaterialNames state;
       selectedPN := selectedPN state |}.

(** The effect on [networkMainType], [selectedSubtype] and
    [selectedCriteriaKeys]: the criteria that can be selected, and the
    selected keys, emptied when one of them can no longer be selected. *)
Definition criteria_effect (networkMainType : option NetworkMainType)
    (selectedSubtype : option string)
    (selectedCriteriaKeys : list CriterionKey)
  : list Criterion * list CriterionKey :=
  let criteriaToUse := allCriteria in
  let criteriaToUse :=
    if bool_decide (selectedSubtype ≠ Some "ECS")
    then filter (λ c, key c ≠ k_temp) criteriaToUse
    else criteriaToUse in
  let criteriaToUse :=
    if bool_decide (networkMainType = Some Evacuation)
    then filter (λ c, key c ≠ k_surpression) criteriaToUse
    else criteriaToUse in
  let currentSelectedStillValid :=
    forallb (λ k, existsb (λ c, bool_decide (key c = k)) criteriaToUse)
      selectedCriteriaKeys in
  (criteriaToUse,
   if currentSelectedStillValid then selectedCriteriaKeys else []).

Section Submit.
(** [parseFloat] is left open: what follows holds whatever number it reads
    from a string. *)
Variable parseFloat : string → num.

(** [costsValid] of [handleNextStep]. *)
Definition costsValid (selectedMaterialNames : list string)
    (materialCosts : gmap string string) : bool :=
  forallb (λ name,
    match materialCosts !! name with
    | Some cost =>
        negb (String.eqb cost "")
        && negb (js_isNaN (parseFloat cost))
        && js_ge (parseFloat cost) js_zero
    | None => false
    end) selectedMaterialNames.

(** [weightsValid] of [handleNextStep], with the [totalWeight] that the
    callback of [every] adds up until it returns false. *)
Fixpoint weightsValid_from (criteriaWeights : gmap CriterionKey string)
    (totalWeight : num) (keys : list CriterionKey) : bool * num :=
  match keys with
  | [] => (true, totalWeight)
  | key :: keys =>
      match criteriaWeights !! key with
      | Some weight =>
          let weightVal := parseFloat weight in
          if negb (String.eqb weight "")
             && negb (js_isNaN weightVal)
             && js_ge weightVal js_zero
             && js_le weightVal (js_int 1)
          then weightsValid_from criteriaWeights
                 (js_add totalWeight weightVal) keys
          else (false, totalWeight)
      | None => (false, totalWeight)
      end
  end.

Definition weightsValid (selectedCriteriaKeys : list CriterionKey)
    (criteriaWeights : gmap CriterionKey string) : bool * num :=
  weightsValid_from criteriaWeights js_zero selectedCriteriaKeys.

(** The argument of [runTopsisCalculation] in [handleNextStep]. *)
Definition topsis_input (selectedMaterialNames : list string)
    (selectedCriteriaKeys : list CriterionKey)
    (selectableCriteria : list Criterion)
    (materialCosts : gmap string string)
    (criteriaWeights : gmap CriterionKey string) : TopsisInput num :=
  {| selectedMaterialsData :=
       filter (λ m, name m ∈ selectedMaterialNames) materialsDb;
     selectedCriteriaKeys := selectedCriteriaKeys;
     allCriteriaDefinition := selectableCriteria;
     costs := parseFloat <$> materialCosts;
     weights := parseFloat <$> criteriaWeights |}.

End Submit.
End Page.

(** ** The step indicator ([step-indicator.tsx]) *)

(** One item of the list that [StepIndicator] renders: the number in the
    circle, the two flags, and what the class names depend on. *)
Record StepItem : Type := {
  stepNumber : Z;
  isCompleted : bool;
  isActive : bool;
  (** the connector to the next step is drawn *)
  hasConnector : bool;
  (** the circle is filled with the primary colour *)
  circlePrimary : bool;
  (** the label, [stepNames[index]] *)
  stepName : option string
}.

(** [StepIndicator]; the step numbers are integers. *)
Definition StepIndicator (currentStep totalSteps : Z)
    (stepNames : list string) : list StepItem :=
  imap (λ index _,
    let stepNumber := (Z.of_nat index + 1)%Z in
    let isCompleted := (stepNumber <? currentStep)%Z in
    let isActive := (stepNumber =? currentStep)%Z in
    {| stepNumber := stepNumber;
       isCompleted := isCompleted;
       isActive := isActive;
       hasConnector := (stepNumber <? totalSteps)%Z;
       circlePrimary := if isActive then true else isCompleted;
       stepName := stepNames !! index |})
    (replicate (Z.to_nat totalSteps) ()).

(** [input] with the criterion [k] selected in addition, after the
    others. *)
Definition with_criterion {num : Type} (input : TopsisInput num)
    (k : CriterionKey) : TopsisInput num :=
  {| selectedMaterialsData := selectedMaterialsData input;
     selectedCriteriaKeys := selectedCriteriaKeys input ++ [k];
     allCriteriaDefinition := allCriteriaDefinition input;
     costs := costs input;
     weights := weights input |}.

(** Scenario A in exact arithmetic: one material, the one criterion
    [temp], weight 1. *)
Definition single_material_input : TopsisInput xreal :=
  {| selectedMaterialsData :=
       [example_material "material1" (Fin 5) (Fin 1) (Fin 1)];
     selectedCriteriaKeys := [k_temp];
     allCriteriaDefinition := allCriteria;
     costs := ∅;
     weights := {[ k_temp := Fin 1 ]} |}.

(** * Properties *)

(** ** Loops and tabulated arrays *)

Lemma for_range_S {S : Type} (n : nat) (body : nat → S → option S) (s : S) :
  for_range (Datatypes.S n) body s = for_range n body s ≫= body n.
Proof.
  unfold for_range. rewrite seq_S, foldl_app. reflexivity.
Qed.

(** The loop rule: an invariant that holds before the loop and is kept by
    every iteration, none of which throws, holds after it, and the loop
    does not throw. *)
Lemma for_range_inv {S : Type} (P : nat → S → Prop) (n : nat)
    (body : nat → S → option S) (s : S) :
  P 0 s →
  (∀ i s, i < n → P i s → ∃ s', body i s = Some s' ∧ P (Datatypes.S i) s') →
  ∃ s', for_range n body s = Some s' ∧ P n s'.
Proof.
  intros H0 Hstep. induction n as [|n IH].
  - exists s. split; [reflexivity | exact H0].
  - destruct IH as (s1 & Hrun & HP).
    { intros i s0 Hi. apply Hstep. lia. }
    destruct (Hstep n s1 (Nat.lt_succ_diag_r n) HP) as (s2 & Hbody & HP2).
    exists s2. split; [|exact HP2].
    rewrite for_range_S, Hrun. exact Hbody.
Qed.

(** A loop whose state after [i] iterations is [g i]. *)
Lemma for_range_eq {S : Type} (g : nat → S) (n : nat)
    (body : nat → S → option S) :
  (∀ i, i < n → body i (g i) = Some (g (Datatypes.S i))) →
  for_range n body (g 0) = Some (g n).
Proof.
  intros Hstep.
  destruct (for_range_inv (λ i s, s = g i) n body (g 0)) as (s & Hrun & ->);
    [reflexivity | | exact Hrun].
  intros i s Hi ->. eauto.
Qed.

Section Tabulate.
Context {A : Type}.
Implicit Types (f g : nat → A) (l : list A).

Lemma length_tabulate n f : length (tabulate n f) = n.
Proof. unfold tabulate. by rewrite length_fmap, length_seq. Qed.

Lemma lookup_tabulate n f i : i < n → tabulate n f !! i = Some (f i).
Proof.
  intros Hi. unfold tabulate.
  by rewrite list_lookup_fmap, lookup_seq_lt.
Qed.

Lemma lookup_tabulate_ge n f i : n ≤ i → tabulate n f !! i = None.
Proof. intros Hi. apply lookup_ge_None_2. by rewrite length_tabulate. Qed.

Lemma lookup_tabulate_Some n f i x :
  tabulate n f !! i = Some x ↔ i < n ∧ x = f i.
Proof.
  destruct (decide (i < n)) as [Hi|Hi].
  - rewrite lookup_tabulate by done.
    split; [intros [= <-]; done | intros [_ ->]; done].
  - rewrite lookup_tabulate_ge by lia.
    split; [done | intros [? _]; lia].
Qed.

Lemma tabulate_ext n f g :
  (∀ i, i < n → f i = g i) → tabulate n f = tabulate n g.
Proof.
  intros Hfg. apply list_eq. intros i.
  destruct (decide (i < n)) as [Hi|Hi].
  - rewrite !lookup_tabulate by done. by rewrite Hfg.
  - by rewrite !lookup_tabulate_ge by lia.
Qed.

Lemma tabulate_S n f : tabulate (S n) f = tabulate n f ++ [f n].
Proof. unfold tabulate. by rewrite seq_S, fmap_app. Qed.

Lemma replicate_tabulate n (x : A) : replicate n x = tabulate n (λ _, x).
Proof.
  apply list_eq. intros i. destruct (decide (i < n)) as [Hi|Hi].
  - rewrite lookup_tabulate by done. by apply lookup_replicate_2.
  - rewrite lookup_tabulate_ge by lia.
    apply lookup_ge_None_2. rewrite length_replicate. lia.
Qed.

Lemma insert_tabulate n f i (v : A) :
  <[i:=v]> (tabulate n f) = tabulate n (λ k, if decide (k = i) then v else f k).
Proof.
  apply list_eq. intros k.
  destruct (decide (k < n)) as [Hk|Hk].
  - rewrite (lookup_tabulate n _ k) by done.
    destruct (decide (k = i)) as [->|Hne].
    + apply list_lookup_insert_eq. by rewrite length_tabulate.
    + rewrite list_lookup_insert_ne by done. by apply lookup_tabulate.
  - rewrite (lookup_tabulate_ge n _ k) by lia.
    apply lookup_ge_None_2. rewrite length_insert, length_tabulate. lia.
Qed.

(** A list is the tabulation of its own entries. *)
Lemma tabulate_lookup_total (d : A) l :
  l = tabulate (length l) (λ i, default d (l !! i)).
Proof.
  apply list_eq. intros i.
  destruct (decide (i < length l)) as [Hi|Hi].
  - rewrite lookup_tabulate by done.
    destruct (lookup_lt_is_Some_2 l i Hi) as [x ->]. done.
  - rewrite lookup_tabulate_ge by lia. apply lookup_ge_None_2. lia.
Qed.

End Tabulate.

(** Case analysis on the index tests of a tabulated array. *)
Ltac index_cases :=
  intros; repeat case_decide;
  first [done | lia | exfalso; lia | naive_solver lia].

Lemma tabulate2_ext {A : Type} (nr nc : nat) (f g : nat → nat → A) :
  (∀ i j, i < nr → j < nc → f i j = g i j) →
  tabulate2 nr nc f = tabulate2 nr nc g.
Proof.
  intros Hfg. apply tabulate_ext. intros i Hi.
  apply tabulate_ext. intros j Hj. by apply Hfg.
Qed.

Lemma for_range_ext {S : Type} (n : nat) (body body' : nat → S → option S)
    (s : S) :
  (∀ i s, i < n → body i s = body' i s) →
  for_range n body s = for_range n body' s.
Proof.
  intros Hext. induction n as [|n IH]; [reflexivity|].
  rewrite !for_range_S, IH by (intros; apply Hext; lia).
  destruct (for_range n body' s) as [s'|]; [|reflexivity].
  simpl. apply Hext. lia.
Qed.

Section ArrayFacts.
Context {num : Type} {N : JSNumber num}.
Implicit Types (f g : nat → num) (F G : nat → nat → num).

Lemma array_get_tabulate n f j : j < n → array_get (tabulate n f) j = f j.
Proof. intros Hj. unfold array_get. by rewrite lookup_tabulate. Qed.

Lemma array_set_tabulate n f j (v : num) :
  j < n →
  array_set (tabulate n f) j v
  = tabulate n (λ k, if decide (k = j) then v else f k).
Proof.
  intros Hj. unfold array_set. rewrite length_tabulate.
  destruct (Nat.ltb_spec j n); [|lia]. apply insert_tabulate.
Qed.

Lemma matrix_get_tabulate2 nr nc F i j :
  i < nr → j < nc → matrix_get (tabulate2 nr nc F) i j = Some (F i j).
Proof.
  intros Hi Hj. unfold matrix_get, tabulate2.
  rewrite lookup_tabulate by done. simpl.
  by rewrite array_get_tabulate.
Qed.

Lemma matrix_set_tabulate2 nr nc F i j (v : num) :
  i < nr → j < nc →
  matrix_set (tabulate2 nr nc F) i j v
  = Some (tabulate2 nr nc
            (λ i' j', if decide (i' = i ∧ j' = j) then v else F i' j')).
Proof.
  intros Hi Hj. unfold matrix_set, tabulate2.
  rewrite lookup_tabulate by done. simpl. f_equal.
  rewrite insert_tabulate. apply tabulate_ext. intros i' Hi'.
  destruct (decide (i' = i)) as [->|Hne].
  - rewrite array_set_tabulate by done. apply tabulate_ext. intros j' Hj'.
    destruct (decide (j' = j)); repeat case_decide; naive_solver.
  - apply tabulate_ext. intros j' Hj'. case_decide; naive_solver.
Qed.

Lemma column_tabulate2 nr nc F j :
  j < nc →
  (λ row, array_get row j) <$> tabulate2 nr nc F = tabulate nr (λ i, F i j).
Proof.
  intros Hj. unfold tabulate2, tabulate at 1. rewrite <- list_fmap_compose.
  apply tabulate_ext. intros i Hi. simpl. by apply array_get_tabulate.
Qed.

(** The loop [for i: M[i][j] = v i] writes column [j]. *)
Lemma write_column_loop nr nc G (v : nat → num) j :
  j < nc →
  for_range nr (λ i M, matrix_set M i j (v i)) (tabulate2 nr nc G)
  = Some (tabulate2 nr nc (λ i' j', if decide (j' = j) then v i' else G i' j')).
Proof.
  intros Hj.
  pose (g := λ i, tabulate2 nr nc
    (λ i' j', if decide (j' = j ∧ i' < i) then v i' else G i' j')).
  assert (Hstart : tabulate2 nr nc G = g 0).
  { apply tabulate2_ext. index_cases. }
  assert (Hend : g nr = tabulate2 nr nc
    (λ i' j', if decide (j' = j) then v i' else G i' j')).
  { apply tabulate2_ext. index_cases. }
  rewrite Hstart, <- Hend. apply for_range_eq. intros i Hi.
  unfold g. rewrite matrix_set_tabulate2 by done. f_equal.
  apply tabulate2_ext. index_cases.
Qed.

(** The loop [for j: M[i][j] = v j] writes row [i]. *)
Lemma write_row_loop nr nc G (v : nat → num) i :
  i < nr →
  for_range nc (λ j M, matrix_set M i j (v j)) (tabulate2 nr nc G)
  = Some (tabulate2 nr nc (λ i' j', if decide (i' = i) then v j' else G i' j')).
Proof.
  intros Hi.
  pose (g := λ j, tabulate2 nr nc
    (λ i' j', if decide (i' = i ∧ j' < j) then v j' else G i' j')).
  assert (Hstart : tabulate2 nr nc G = g 0).
  { apply tabulate2_ext. index_cases. }
  assert (Hend : g nc = tabulate2 nr nc
    (λ i' j', if decide (i' = i) then v j' else G i' j')).
  { apply tabulate2_ext. index_cases. }
  rewrite Hstart, <- Hend. apply for_range_eq. intros j Hj.
  unfold g. rewrite matrix_set_tabulate2 by done. f_equal.
  apply tabulate2_ext. index_cases.
Qed.

(** The loop [for i: a[i] = u i; b[i] = v i] fills two arrays. *)
Lemma fill_pair_loop n (u v : nat → num) (a0 b0 : num) :
  for_range n (λ i '(a, b), Some (array_set a i (u i), array_set b i (v i)))
    (replicate n a0, replicate n b0)
  = Some (tabulate n u, tabulate n v).
Proof.
  pose (g := λ i, (tabulate n (λ k, if decide (k < i) then u k else a0),
                   tabulate n (λ k, if decide (k < i) then v k else b0))).
  assert (Hstart : (replicate n a0, replicate n b0) = g 0).
  { unfold g. rewrite !replicate_tabulate. f_equal; apply tabulate_ext;
      index_cases. }
  assert (Hend : g n = (tabulate n u, tabulate n v)).
  { unfold g. f_equal; apply tabulate_ext; index_cases. }
  rewrite Hstart, <- Hend. apply for_range_eq. intros i Hi.
  unfold g. rewrite !array_set_tabulate by done. do 2 f_equal;
    apply tabulate_ext; index_cases.
Qed.

Lemma fill_loop n (u : nat → num) (a0 : num) :
  for_range n (λ i a, Some (array_set a i (u i))) (replicate n a0)
  = Some (tabulate n u).
Proof.
  pose (g := λ i, tabulate n (λ k, if decide (k < i) then u k else a0)).
  assert (Hstart : replicate n a0 = g 0).
  { unfold g. rewrite replicate_tabulate. apply tabulate_ext;
      index_cases. }
  assert (Hend : g n = tabulate n u).
  { unfold g. apply tabulate_ext; index_cases. }
  rewrite Hstart, <- Hend. apply for_range_eq. intros i Hi.
  unfold g. rewrite array_set_tabulate by done. f_equal.
  apply tabulate_ext; index_cases.
Qed.

Lemma sum_over_S n f : sum_over (S n) f = js_add (sum_over n f) (f n).
Proof. unfold sum_over. by rewrite seq_S, foldl_app. Qed.

Lemma sum_over_ext n f g :
  (∀ i, i < n → f i = g i) → sum_over n f = sum_over n g.
Proof.
  intros Hfg. induction n as [|n IH]; [done|].
  rewrite !sum_over_S, IH, Hfg by (intros; auto with lia). done.
Qed.

Lemma sum_loop n f :
  for_range n (λ i acc, Some (js_add acc (f i))) js_zero = Some (sum_over n f).
Proof.
  apply (for_range_eq (λ i, sum_over i f)). intros i _.
  by rewrite sum_over_S.
Qed.

Lemma sum_pair_loop n f g :
  for_range n (λ i '(a, b), Some (js_add a (f i), js_add b (g i)))
    (js_zero, js_zero)
  = Some (sum_over n f, sum_over n g).
Proof.
  apply (for_range_eq (λ i, (sum_over i f, sum_over i g))). intros i _.
  by rewrite !sum_over_S.
Qed.

End ArrayFacts.

Section Stages.
Context {num : Type} {N : JSNumber num}.
Variable input : TopsisInput num.

(** The dimensions of the matrices. *)
Local Abbreviation nr := (numRows input).
Local Abbreviation nc := (numCols input).

Lemma make_initialMatrix_eq :
  make_initialMatrix input = tabulate2 nr nc (raw_value input).
Proof.
  unfold make_initialMatrix, tabulate2, numRows, numCols.
  apply list_eq. intros i. rewrite list_lookup_fmap.
  destruct (selectedMaterialsData input !! i) as [material|] eqn:Hm; simpl.
  - rewrite lookup_tabulate by (eapply lookup_lt_Some; eauto). f_equal.
    apply list_eq. intros j. rewrite list_lookup_fmap.
    destruct (selectedCriteriaKeys input !! j) as [k|] eqn:Hk; simpl.
    + rewrite lookup_tabulate by (eapply lookup_lt_Some; eauto).
      unfold raw_value. by rewrite Hm, Hk.
    + rewrite lookup_tabulate_ge; [done|]. by apply lookup_ge_None.
  - rewrite lookup_tabulate_ge; [done|]. by apply lookup_ge_None.
Qed.

(** Stage 2. *)
Lemma normalize_loop :
  for_range nc (λ j normalizedMatrix,
      sumOfSquares ←
        for_range nr (λ i sumOfSquares,
          x ← matrix_get (tabulate2 nr nc (raw_value input)) i j;
          Some (js_add sumOfSquares (js_pow2 x))) js_zero;
      let norm := js_sqrt sumOfSquares in
      if js_strict_eq norm js_zero then
        for_range nr (λ i normalizedMatrix,
          matrix_set normalizedMatrix i j js_zero) normalizedMatrix
      else
        for_range nr (λ i normalizedMatrix,
          x ← matrix_get (tabulate2 nr nc (raw_value input)) i j;
          matrix_set normalizedMatrix i j (js_div x norm)) normalizedMatrix)
      (replicate nr (replicate nc js_zero))
  = Some (tabulate2 nr nc (normalized input)).
Proof.
  pose (g := λ j, tabulate2 nr nc
    (λ i j', if decide (j' < j) then normalized input i j' else js_zero)).
  assert (Hstart : replicate nr (replicate nc js_zero) = g 0).
  { unfold g, tabulate2. rewrite replicate_tabulate.
    apply tabulate_ext. intros i _. rewrite replicate_tabulate.
    apply tabulate_ext. index_cases. }
  assert (Hend : g nc = tabulate2 nr nc (normalized input)).
  { apply tabulate2_ext. index_cases. }
  rewrite Hstart, <- Hend. apply for_range_eq. intros j Hj.
  rewrite (for_range_ext nr _
    (λ i acc, Some (js_add acc (js_pow2 (raw_value input i j)))))
    by (intros i s Hi; by rewrite matrix_get_tabulate2).
  rewrite (sum_loop nr (λ i, js_pow2 (raw_value input i j))). simpl.
  fold (column_norm input j).
  destruct (js_strict_eq (column_norm input j) js_zero) eqn:Hnorm.
  - unfold g. rewrite (write_column_loop _ _ _ (λ _, js_zero)) by done.
    f_equal. apply tabulate2_ext. intros i j' Hi Hj'.
    unfold normalized. repeat case_decide; subst; try lia; try done.
    by rewrite Hnorm.
  - rewrite (for_range_ext nr _
      (λ i M, matrix_set M i j
                (js_div (raw_value input i j) (column_norm input j))))
      by (intros i s Hi; by rewrite matrix_get_tabulate2).
    unfold g. rewrite write_column_loop by done.
    f_equal. apply tabulate2_ext. intros i j' Hi Hj'.
    unfold normalized. repeat case_decide; subst; try lia; try done.
    by rewrite Hnorm.
Qed.

(** Stage 3. *)
Lemma weight_loop :
  for_range nr (λ i weightedMatrix,
      for_range nc (λ j weightedMatrix,
        let criterionKey := selectedCriteriaKeys input !! j in
        x ← matrix_get (tabulate2 nr nc (normalized input)) i j;
        matrix_set weightedMatrix i j
          (js_mul x (js_or (criterionKey ≫= (weights input !!.)) js_zero)))
        weightedMatrix)
      (replicate nr (replicate nc js_zero))
  = Some (tabulate2 nr nc (weighted input)).
Proof.
  pose (g := λ i, tabulate2 nr nc
    (λ i' j, if decide (i' < i) then weighted input i' j else js_zero)).
  assert (Hstart : replicate nr (replicate nc js_zero) = g 0).
  { unfold g, tabulate2. rewrite replicate_tabulate.
    apply tabulate_ext. intros i _. rewrite replicate_tabulate.
    apply tabulate_ext. index_cases. }
  assert (Hend : g nr = tabulate2 nr nc (weighted input)).
  { apply tabulate2_ext. index_cases. }
  rewrite Hstart, <- Hend. apply for_range_eq. intros i Hi.
  rewrite (for_range_ext nc _
    (λ j M, matrix_set M i j (weighted input i j)))
    by (intros j s Hj; simpl; by rewrite matrix_get_tabulate2).
  unfold g. rewrite write_row_loop by done.
  f_equal. apply tabulate2_ext. index_cases.
Qed.

(** Stage 4. *)
Lemma ideal_loop :
  for_range nc (λ j '(idealSolution, antiIdealSolution),
      let criterionKey := selectedCriteriaKeys input !! j in
      let criterion :=
        criterionKey ≫= (criteriaMap_of (allCriteriaDefinition input) !!.) in
      let columnValues :=
        (λ row, array_get row j) <$> tabulate2 nr nc (weighted input) in
      if isBenefit_opt criterion then
        Some (array_set idealSolution j (math_max columnValues),
              array_set antiIdealSolution j (math_min columnValues))
      else
        Some (array_set idealSolution j (math_min columnValues),
              array_set antiIdealSolution j (math_max columnValues)))
      (replicate nc js_zero, replicate nc js_zero)
  = Some (tabulate nc (ideal input), tabulate nc (anti_ideal input)).
Proof.
  rewrite <- fill_pair_loop with (a0 := js_zero) (b0 := js_zero).
  apply for_range_ext. intros j [a b] Hj. simpl.
  rewrite column_tabulate2 by done.
  unfold ideal, anti_ideal, benefit_column, weighted_column.
  by destruct (isBenefit_opt _).
Qed.

(** Stage 5. *)
Lemma separation_loop :
  for_range nr (λ i '(distanceToIdeal, distanceToAntiIdeal),
      '(sumSqIdeal, sumSqAntiIdeal) ←
        for_range nc (λ j '(sumSqIdeal, sumSqAntiIdeal),
          x ← matrix_get (tabulate2 nr nc (weighted input)) i j;
          Some (js_add sumSqIdeal
                  (js_pow2
                     (js_sub x (array_get (tabulate nc (ideal input)) j))),
                js_add sumSqAntiIdeal
                  (js_pow2
                     (js_sub x
                        (array_get (tabulate nc (anti_ideal input)) j)))))
          (js_zero, js_zero);
      Some (array_set distanceToIdeal i (js_sqrt sumSqIdeal),
            array_set distanceToAntiIdeal i (js_sqrt sumSqAntiIdeal)))
      (replicate nr js_zero, replicate nr js_zero)
  = Some (tabulate nr (separation input (ideal input)),
          tabulate nr (separation input (anti_ideal input))).
Proof.
  rewrite <- fill_pair_loop with (a0 := js_zero) (b0 := js_zero).
  apply for_range_ext. intros i [a b] Hi.
  rewrite (for_range_ext nc _
    (λ j '(s1, s2),
       Some (js_add s1 (js_pow2 (js_sub (weighted input i j) (ideal input j))),
             js_add s2
               (js_pow2 (js_sub (weighted input i j) (anti_ideal input j))))))
    by (intros j [s1 s2] Hj;
        by rewrite matrix_get_tabulate2, !array_get_tabulate).
  rewrite (sum_pair_loop nc
    (λ j, js_pow2 (js_sub (weighted input i j) (ideal input j)))
    (λ j, js_pow2 (js_sub (weighted input i j) (anti_ideal input j)))).
  reflexivity.
Qed.

(** Stage 6. *)
Lemma score_loop :
  for_range nr (λ i scores,
      let denominator :=
        js_add (array_get (tabulate nr (separation input (ideal input))) i)
               (array_get
                  (tabulate nr (separation input (anti_ideal input))) i) in
      Some (array_set scores i
              (if js_strict_eq denominator js_zero then js_nan
               else js_div
                      (array_get
                         (tabulate nr (separation input (anti_ideal input)))
                         i)
                      denominator)))
      (replicate nr js_zero)
  = Some (tabulate nr (score_of input)).
Proof.
  rewrite <- fill_loop with (a0 := js_zero).
  apply for_range_ext. intros i a Hi. simpl.
  by rewrite !array_get_tabulate.
Qed.

(** Stages 2 to 6 together: no exception, and the trail is [trail_of]. *)
Lemma compute_trail_eq :
  0 < nr →
  compute_trail input (tabulate2 nr nc (raw_value input))
  = Some (trail_of input).
Proof.
  intros Hrows. unfold compute_trail.
  assert (Hlen : length (tabulate2 nr nc (raw_value input)) = nr)
    by apply length_tabulate.
  assert (Hrow0 : tabulate2 nr nc (raw_value input) !! 0
                  = Some (tabulate nc (raw_value input 0)))
    by (unfold tabulate2; by rewrite lookup_tabulate).
  pose proof normalize_loop as Hnormalize.
  pose proof weight_loop as Hweight.
  pose proof ideal_loop as Hideal.
  pose proof separation_loop as Hseparation.
  pose proof score_loop as Hscore.
  cbv zeta in *.
  rewrite Hlen, Hrow0. simpl. rewrite length_tabulate.
  rewrite Hnormalize. simpl.
  rewrite Hweight. simpl.
  rewrite Hideal. simpl.
  rewrite Hseparation. simpl.
  rewrite Hscore. reflexivity.
Qed.

End Stages.

(** ** The results *)

Lemma foldl_option_Some {A B : Type} (step : A → B → option A)
    (g : A → B → A) (l : list B) (a : A) :
  (∀ a b, b ∈ l → step a b = Some (g a b)) →
  foldl (λ acc b, acc ≫= λ a, step a b) (Some a) l = Some (foldl g a l).
Proof.
  revert a. induction l as [|b l IH]; intros a Hstep; [reflexivity|].
  simpl. rewrite Hstep by apply list_elem_of_here.
  apply IH. intros a' b' Hb'. apply Hstep. by apply list_elem_of_further.
Qed.

Lemma map_indexed_eq {A B : Type} (f : nat → A → option B) (g : nat → A → B)
    (l : list A) :
  (∀ i x, l !! i = Some x → f i x = Some (g i x)) →
  map_indexed f l = Some (imap g l).
Proof.
  intros Hfg. unfold map_indexed. apply mapM_Some_2.
  apply Forall2_same_length_lookup_2; [by rewrite !length_imap|].
  intros i p y. rewrite !list_lookup_imap.
  destruct (l !! i) as [x|] eqn:Hx; simpl; [|done].
  intros [= <-] [= <-]. simpl. by apply Hfg.
Qed.

Section Results.
Context {num : Type} {N : JSNumber num}.
Variable input : TopsisInput num.

Lemma make_result_eq (index : nat) (material : Material num) :
  index < numRows input →
  make_result input (trail_of input) index material
  = Some (result_of input index material).
Proof.
  intros Hindex. unfold make_result.
  rewrite (foldl_option_Some
    (λ calculatedValues (p : nat * CriterionKey),
       x ← matrix_get (t_initialMatrix (trail_of input)) index p.1;
       Some (<[p.2:=x]> calculatedValues))
    (λ calculatedValues (p : nat * CriterionKey),
       <[p.2:=raw_value input index p.1]> calculatedValues)).
  - simpl. unfold result_of. f_equal. by rewrite array_get_tabulate.
  - intros cv [j k] Hjk.
    apply elem_of_lookup_imap in Hjk as (j' & k' & [= -> ->] & Hk).
    simpl. rewrite matrix_get_tabulate2; [done..|].
    eapply lookup_lt_Some; eauto.
Qed.

(** Past the empty-selection guard the engine does not throw, and returns
    the result objects of the materials, sorted. *)
Lemma run_eq :
  selectedMaterialsData input ≠ [] →
  selectedCriteriaKeys input ≠ [] →
  runTopsisCalculation input
  = Some (array_sort compare_results (unsorted_results input)).
Proof.
  intros Hm Hk. unfold runTopsisCalculation.
  destruct (selectedMaterialsData input) as [|m ms] eqn:Em; [done|].
  destruct (selectedCriteriaKeys input) as [|k ks] eqn:Ek; [done|].
  simpl. cbv zeta. rewrite make_initialMatrix_eq.
  rewrite compute_trail_eq by (unfold numRows; rewrite Em; simpl; lia).
  simpl. rewrite <- Em.
  rewrite (map_indexed_eq _ (result_of input)).
  - reflexivity.
  - intros i x Hx. apply make_result_eq. eapply lookup_lt_Some; eauto.
Qed.

Lemma run_empty :
  selectedMaterialsData input = [] ∨ selectedCriteriaKeys input = [] →
  runTopsisCalculation input = Some [].
Proof.
  intros [H|H]; unfold runTopsisCalculation; rewrite H; simpl;
    [reflexivity|].
  by rewrite orb_true_r.
Qed.

Lemma lookup_unsorted_results (i : nat) (r : TopsisFullResults num) :
  (unsorted_results input) !! i = Some r ↔
  ∃ material, selectedMaterialsData input !! i = Some material
              ∧ r = (result_of input) i material.
Proof.
  unfold unsorted_results. rewrite list_lookup_imap.
  destruct (selectedMaterialsData input !! i) as [m|]; simpl.
  - split; [intros [= <-]; eauto | intros (m' & [= <-] & ->); done].
  - split; [done | intros (m' & [=] & _)].
Qed.

End Results.

(** ** The sort *)

Section SortFacts.
Context {num : Type} {N : JSNumber num} {A : Type}.
Variable comparefn : A → A → num.

Lemma sort_insert_Permutation (x : A) (l : list A) :
  sort_insert comparefn x l ≡ₚ x :: l.
Proof.
  induction l as [|y l IH]; [reflexivity|]. simpl.
  destruct (sorts_after comparefn x y); [|reflexivity].
  rewrite IH. apply Permutation_swap.
Qed.

(** The sort rearranges: nothing is lost, added or duplicated. *)
Lemma array_sort_Permutation (l : list A) : array_sort comparefn l ≡ₚ l.
Proof.
  induction l as [|x l IH]; [reflexivity|]. simpl.
  rewrite sort_insert_Permutation. by rewrite IH.
Qed.

(** Under a comparator that never puts two elements after each other, and
    whose "not after" is transitive, the result is sorted: no element
    stands before one that the comparator puts strictly before it. *)
Hypothesis after_asym :
  ∀ x y, sorts_after comparefn x y = true → sorts_after comparefn y x = false.
Hypothesis not_after_trans :
  ∀ x y z, sorts_after comparefn x y = false →
           sorts_after comparefn y z = false →
           sorts_after comparefn x z = false.

Lemma sort_insert_sorted (x : A) (l : list A) :
  StronglySorted (in_order comparefn) l →
  StronglySorted (in_order comparefn) (sort_insert comparefn x l).
Proof.
  induction 1 as [|y l Hl IH Hy]; simpl.
  - repeat constructor.
  - destruct (sorts_after comparefn x y) eqn:Hxy.
    + constructor; [exact IH|].
      rewrite sort_insert_Permutation. constructor; [|exact Hy].
      by apply after_asym.
    + constructor; [by constructor|].
      constructor; [exact Hxy|].
      eapply Forall_impl; [exact Hy|].
      intros z Hyz. by eapply not_after_trans.
Qed.

Lemma array_sort_sorted (l : list A) :
  StronglySorted (in_order comparefn) (array_sort comparefn l).
Proof.
  induction l as [|x l IH]; simpl; [constructor|].
  by apply sort_insert_sorted.
Qed.

End SortFacts.

Lemma StronglySorted_lookup {A : Type} (R : A → A → Prop) (l : list A)
    (i j : nat) (x y : A) :
  StronglySorted R l → i < j → l !! i = Some x → l !! j = Some y → R x y.
Proof.
  intros Hl. revert i j. induction Hl as [|z l Hl IH Hz]; intros i j Hij Hi Hj.
  - by rewrite lookup_nil in Hi.
  - destruct j as [|j]; [lia|]. simpl in Hj.
    destruct i as [|i]; simpl in Hi.
    + injection Hi as ->. rewrite Forall_forall in Hz.
      apply Hz. by eapply list_elem_of_lookup_2.
    + apply (IH i j); [lia|done..].
Qed.

(** ** Binary64 arithmetic

    What the properties need of the rounded operations: rounding keeps the
    sign and never gives [NaN]; the comparison of two numbers is the
    comparison of the integers they stand for; and the difference of two
    numbers has the sign of the exact difference. *)

Section Binary64.
Local Open Scope Z_scope.

Lemma iter_pos_nat {A : Type} (f : A → A) (p : positive) (x : A) :
  SpecFloat.iter_pos f p x = Nat.iter (Pos.to_nat p) f x.
Proof.
  revert x. induction p as [p IH|p IH|]; intros x;
    cbn [SpecFloat.iter_pos].
  - rewrite !IH, Pos2Nat.inj_xI.
    replace (S (2 * Pos.to_nat p))%nat
      with (Pos.to_nat p + S (Pos.to_nat p))%nat by lia.
    by rewrite Nat.iter_add, Nat.iter_succ_r.
  - rewrite !IH, Pos2Nat.inj_xO.
    replace (2 * Pos.to_nat p)%nat
      with (Pos.to_nat p + Pos.to_nat p)%nat by lia.
    by rewrite Nat.iter_add.
  - done.
Qed.

Lemma shr_1_nonneg (mrs : shr_record) :
  0 <= shr_m mrs → 0 <= shr_m (shr_1 mrs).
Proof.
  destruct mrs as [m r s]. destruct m as [|[p|p|]|[p|p|]]; simpl; lia.
Qed.

Lemma iter_shr_1_nonneg (k : nat) (mrs : shr_record) :
  0 <= shr_m mrs → 0 <= shr_m (Nat.iter k shr_1 mrs).
Proof.
  intros Hm. induction k as [|k IH]; [done|].
  simpl. by apply shr_1_nonneg.
Qed.

Lemma iter_shr_1_pos (k : nat) (q : positive) (r s : bool) :
  (k < Pos.to_nat (digits2_pos q))%nat →
  ∃ q' r' s',
    Nat.iter k shr_1 {| shr_m := Zpos q; shr_r := r; shr_s := s |}
    = {| shr_m := Zpos q'; shr_r := r'; shr_s := s' |}
    ∧ Pos.to_nat (digits2_pos q') = (Pos.to_nat (digits2_pos q) - k)%nat.
Proof.
  induction k as [|k IH]; intros Hk.
  - exists q, r, s. split; [done|lia].
  - destruct IH as (q' & r' & s' & Hq & Hd); [lia|]. simpl. rewrite Hq.
    destruct q' as [p|p|]; simpl in *.
    + eexists _, _, _. split; [done|]. rewrite Pos2Nat.inj_succ in Hd. lia.
    + eexists _, _, _. split; [done|]. rewrite Pos2Nat.inj_succ in Hd. lia.
    + lia.
Qed.

Lemma fexp_eq (e : Z) : SpecFloat.fexp prec emax e = Z.max (e - 53) (-1074).
Proof. reflexivity. Qed.

Lemma shr_record_of_loc_m (m : Z) (l : location) :
  ∃ r s, shr_record_of_loc m l = {| shr_m := m; shr_r := r; shr_s := s |}.
Proof. destruct l as [|[]]; simpl; eauto. Qed.

Lemma shr_fexp_nonneg (m e : Z) (l : location) :
  0 <= m → 0 <= shr_m (shr_fexp prec emax m e l).1.
Proof.
  intros Hm. unfold shr_fexp, shr.
  destruct (shr_record_of_loc_m m l) as (r & s & ->).
  destruct (_ - e) as [|n|n]; simpl; try done.
  rewrite iter_pos_nat. by apply iter_shr_1_nonneg.
Qed.

Lemma shr_fexp_pos (q : positive) (e : Z) (l : location) :
  -1074 <= e →
  ∃ q' r s e',
    shr_fexp prec emax (Zpos q) e l
    = ({| shr_m := Zpos q'; shr_r := r; shr_s := s |}, e')
    ∧ e <= e'.
Proof.
  intros He. unfold shr_fexp, shr.
  destruct (shr_record_of_loc_m (Zpos q) l) as (r & s & ->).
  rewrite fexp_eq. simpl Zdigits2.
  destruct (_ - e) as [|n|n] eqn:Hn.
  - eexists _, _, _, _. split; [done|lia].
  - rewrite iter_pos_nat.
    destruct (iter_shr_1_pos (Pos.to_nat n) q r s) as (q' & r' & s' & -> & _).
    { apply Pos2Nat.inj_lt. lia. }
    eexists _, _, _, _. split; [done|lia].
  - eexists _, _, _, _. split; [done|lia].
Qed.

Lemma round_nearest_even_pos (q : positive) (l : location) :
  ∃ q', round_nearest_even (Zpos q) l = Zpos q'.
Proof.
  destruct l as [|[]]; simpl; eauto. destruct q; simpl; eauto.
Qed.

Lemma round_nearest_even_nonneg (m : Z) (l : location) :
  0 <= m → 0 <= round_nearest_even m l.
Proof.
  intros Hm. destruct l as [|[]]; simpl; try lia.
  destruct (Z.even m); lia.
Qed.

(** Rounding keeps the sign, and never gives [NaN]. *)
Lemma binary_round_aux_sign (sx : bool) (m e : Z) (l : location) :
  0 <= m → SFsign_is sx (binary_round_aux prec emax sx m e l).
Proof.
  intros Hm. unfold binary_round_aux.
  pose proof (shr_fexp_nonneg m e l Hm) as H1.
  destruct (shr_fexp prec emax m e l) as [mrs1 e1]. simpl in H1.
  pose proof (shr_fexp_nonneg
    (round_nearest_even (shr_m mrs1) (loc_of_shr_record mrs1)) e1 loc_Exact
    (round_nearest_even_nonneg _ _ H1)) as H2.
  destruct (shr_fexp prec emax _ e1 loc_Exact) as [mrs2 e2]. simpl in H2.
  destruct (shr_m mrs2) as [|p|p]; simpl; [done| |lia].
  by destruct (e2 <=? _).
Qed.

(** Rounding a positive integer whose unit is at least the least positive
    number does not give zero. *)
Lemma binary_round_aux_pos (sx : bool) (q : positive) (e : Z) (l : location) :
  -1074 <= e →
  match binary_round_aux prec emax sx (Zpos q) e l with
  | S754_finite s _ _ | S754_infinity s => s = sx
  | _ => False
  end.
Proof.
  intros He. unfold binary_round_aux.
  destruct (shr_fexp_pos q e l He) as (q1 & r1 & s1 & e1 & -> & He1).
  simpl shr_m.
  destruct (round_nearest_even_pos q1
    (loc_of_shr_record {| shr_m := Zpos q1; shr_r := r1; shr_s := s1 |}))
    as (q2 & ->).
  destruct (shr_fexp_pos q2 e1 loc_Exact) as (q3 & r3 & s3 & e3 & -> & He3);
    [lia|].
  simpl. by destruct (e3 <=? _).
Qed.

Lemma binary_round_pos (sx : bool) (q : positive) (e : Z) :
  -1074 <= e →
  match binary_round prec emax sx q e with
  | S754_finite s _ _ | S754_infinity s => s = sx
  | _ => False
  end.
Proof.
  intros He. unfold binary_round.
  destruct (shl_align q e _) as [mz ez] eqn:Hs.
  apply binary_round_aux_pos.
  unfold shl_align in Hs. rewrite fexp_eq in Hs.
  destruct (_ - e) as [|d|d] eqn:Hd; inversion Hs; subst; lia.
Qed.

(** *** The order of the binary64 numbers *)

Lemma digits2_pos_bounds (p : positive) :
  2 ^ (Zpos (digits2_pos p) - 1) <= Zpos p < 2 ^ Zpos (digits2_pos p).
Proof.
  induction p as [p IH|p IH|]; simpl digits2_pos.
  - rewrite Pos2Z.inj_succ.
    replace (Z.succ (Zpos (digits2_pos p)) - 1)
      with (Z.succ (Zpos (digits2_pos p) - 1)) by lia.
    rewrite !Z.pow_succ_r by lia. lia.
  - rewrite Pos2Z.inj_succ.
    replace (Z.succ (Zpos (digits2_pos p)) - 1)
      with (Z.succ (Zpos (digits2_pos p) - 1)) by lia.
    rewrite !Z.pow_succ_r by lia. lia.
  - simpl. lia.
Qed.

(** A finite binary64 number [m * 2 ^ e]: the exponent is at least -1074;
    the mantissa has at most 53 digits, and exactly 53 unless the exponent
    is the least one. *)
Lemma valid_finite (s : bool) (m : positive) (e : Z) :
  valid_binary (S754_finite s m e) = true →
  -1074 <= e <= 971
  ∧ Zpos (digits2_pos m) <= 53
  ∧ (-1074 < e → Zpos (digits2_pos m) = 53).
Proof.
  intros H. change (SpecFloat.bounded prec emax m e = true) in H.
  unfold SpecFloat.bounded, canonical_mantissa in H. rewrite fexp_eq in H.
  apply andb_true_iff in H as [H1 H2].
  apply Z.eqb_eq in H1. apply Z.leb_le in H2.
  change (emax - prec) with 971 in H2. lia.
Qed.

Lemma magnitude_bounds (s : bool) (m : positive) (e : Z) :
  valid_binary (S754_finite s m e) = true →
  0 < Zpos m * 2 ^ (e + 1074) < 2 ^ 2098.
Proof.
  intros (He & Hd & _)%valid_finite.
  pose proof (digits2_pos_bounds m) as [_ Hm].
  assert (Hp : 0 < 2 ^ (e + 1074)) by (apply Z.pow_pos_nonneg; lia).
  split; [lia|].
  assert (H53 : Zpos m < 2 ^ 53).
  { eapply Z.lt_le_trans; [exact Hm|]. apply Z.pow_le_mono_r; lia. }
  assert (H2045 : 2 ^ (e + 1074) <= 2 ^ 2045)
    by (apply Z.pow_le_mono_r; lia).
  replace (2 ^ 2098) with (2 ^ 53 * 2 ^ 2045)
    by (rewrite <- Z.pow_add_r by lia; reflexivity).
  apply Z.lt_le_trans with (2 ^ 53 * 2 ^ (e + 1074)).
  - by apply Z.mul_lt_mono_pos_r.
  - apply Z.mul_le_mono_nonneg_l; [lia | done].
Qed.

Lemma magnitude_lt (s1 s2 : bool) (m1 m2 : positive) (e1 e2 : Z) :
  valid_binary (S754_finite s1 m1 e1) = true →
  valid_binary (S754_finite s2 m2 e2) = true →
  e1 < e2 →
  Zpos m1 * 2 ^ (e1 + 1074) < Zpos m2 * 2 ^ (e2 + 1074).
Proof.
  intros (He1 & Hd1 & _)%valid_finite (He2 & _ & Hd2)%valid_finite He.
  pose proof (digits2_pos_bounds m1) as [_ Hm1].
  pose proof (digits2_pos_bounds m2) as [Hm2 _].
  rewrite Hd2 in Hm2 by lia.
  assert (H53 : Zpos m1 < 2 ^ 53).
  { eapply Z.lt_le_trans; [exact Hm1|]. apply Z.pow_le_mono_r; lia. }
  replace (e2 + 1074) with ((e1 + 1074) + (e2 - e1)) by lia.
  rewrite (Z.pow_add_r 2 (e1 + 1074) (e2 - e1)) by lia.
  assert (Hp : 0 < 2 ^ (e1 + 1074)) by (apply Z.pow_pos_nonneg; lia).
  assert (Hk : 2 ^ 1 <= 2 ^ (e2 - e1)) by (apply Z.pow_le_mono_r; lia).
  change (2 ^ 53) with 9007199254740992 in H53.
  change (2 ^ (53 - 1)) with 4503599627370496 in Hm2.
  change (2 ^ 1) with 2 in Hk.
  set (P := 2 ^ (e1 + 1074)) in *. set (K := 2 ^ (e2 - e1)) in *.
  apply Z.lt_le_trans with (9007199254740992 * P);
    [by apply Z.mul_lt_mono_pos_r|].
  replace (9007199254740992 * P) with (4503599627370496 * (P * 2)) by lia.
  apply Z.mul_le_mono_nonneg; [lia | done | lia |].
  apply Z.mul_le_mono_nonneg_l; lia.
Qed.

Lemma magnitude_compare (s1 s2 : bool) (m1 m2 : positive) (e1 e2 : Z) :
  valid_binary (S754_finite s1 m1 e1) = true →
  valid_binary (S754_finite s2 m2 e2) = true →
  match e1 ?= e2 with
  | Lt => Lt
  | Gt => Gt
  | Eq => Pos.compare_cont Eq m1 m2
  end
  = (Zpos m1 * 2 ^ (e1 + 1074) ?= Zpos m2 * 2 ^ (e2 + 1074)).
Proof.
  intros H1 H2. destruct (Z.compare_spec e1 e2) as [->|He|He].
  - change (Pos.compare_cont Eq m1 m2) with (Zpos m1 ?= Zpos m2).
    apply Zmult_compare_compat_r.
    apply Z.lt_gt, Z.pow_pos_nonneg; [lia|].
    apply valid_finite in H2. lia.
  - symmetry. apply Z.compare_lt_iff. by eapply magnitude_lt.
  - symmetry. apply Z.compare_gt_iff. by eapply magnitude_lt.
Qed.

Ltac solve_compare :=
  f_equal; symmetry;
  first [ apply Z.compare_eq_iff; lia
        | apply Z.compare_lt_iff; lia
        | apply Z.compare_gt_iff; lia ].

(** Comparing two binary64 numbers is comparing the integers they stand
    for. *)
Lemma SFcompare_int (x y : spec_float) :
  valid_binary x = true → valid_binary y = true →
  x ≠ S754_nan → y ≠ S754_nan →
  SFcompare x y = Some (SFint x ?= SFint y).
Proof.
  assert (Htop : 0 < 2 ^ 2098) by (apply Z.pow_pos_nonneg; lia).
  destruct x as [sx|sx| |sx mx ex], y as [sy|sy| |sy my ey];
    intros Hx Hy Hnx Hny; try done;
    try pose proof (magnitude_bounds _ _ _ Hx) as Bx;
    try pose proof (magnitude_bounds _ _ _ Hy) as By;
    unfold SFint, SFcompare, cond_Zopp.
  - destruct sy; solve_compare.
  - destruct sy; solve_compare.
  - destruct sx; solve_compare.
  - destruct sx, sy; solve_compare.
  - destruct sx, sy; solve_compare.
  - destruct sx; solve_compare.
  - destruct sx, sy; solve_compare.
  - pose proof (magnitude_compare sx sy mx my ex ey Hx Hy) as Hc.
    destruct sx, sy; try solve_compare.
    + rewrite Z.compare_opp.
      rewrite (Z.compare_antisym (Zpos mx * 2 ^ (ex + 1074))), <- Hc.
      by destruct (ex ?= ey).
    + by rewrite Hc.
Qed.

Lemma SFltb_int (x y : spec_float) :
  valid_binary x = true → valid_binary y = true →
  x ≠ S754_nan → y ≠ S754_nan →
  SFltb x y = (SFint x <? SFint y).
Proof.
  intros. unfold SFltb, Z.ltb. by rewrite SFcompare_int.
Qed.

Lemma SFleb_int (x y : spec_float) :
  valid_binary x = true → valid_binary y = true →
  x ≠ S754_nan → y ≠ S754_nan →
  SFleb x y = (SFint x <=? SFint y).
Proof.
  intros. unfold SFleb, Z.leb. rewrite SFcompare_int by done.
  by destruct (_ ?= _).
Qed.

(** *** The sign of a difference *)

Lemma iter_xO_value (m d : positive) :
  Zpos (Pos.iter xO m d) = Zpos m * 2 ^ Zpos d.
Proof.
  induction d as [|d IH] using Pos.peano_ind.
  - simpl. lia.
  - rewrite Pos.iter_succ, Pos2Z.inj_xO, IH, Pos2Z.inj_succ.
    rewrite Z.pow_succ_r by lia. lia.
Qed.

Lemma shl_align_value (m : positive) (e ez : Z) :
  ez <= e → Zpos (shl_align m e ez).1 = Zpos m * 2 ^ (e - ez).
Proof.
  intros He. unfold shl_align.
  destruct (ez - e) as [|d|d] eqn:Hd; simpl.
  - replace (e - ez) with 0 by lia. lia.
  - lia.
  - rewrite iter_xO_value. f_equal. f_equal. lia.
Qed.

Lemma SFsub_finite (sx sy : bool) (mx my : positive) (ex ey : Z) :
  valid_binary (S754_finite sx mx ex) = true →
  valid_binary (S754_finite sy my ey) = true →
  let z := SFint (S754_finite sx mx ex) - SFint (S754_finite sy my ey) in
  match SF64sub (S754_finite sx mx ex) (S754_finite sy my ey) with
  | S754_zero _ => z = 0
  | S754_finite s _ _ | S754_infinity s => if s then z < 0 else 0 < z
  | S754_nan => False
  end.
Proof.
  intros Hx Hy z.
  pose proof (valid_finite _ _ _ Hx) as (Hex & _).
  pose proof (valid_finite _ _ _ Hy) as (Hey & _).
  unfold SF64sub, SFsub. cbv zeta.
  set (ez := Z.min ex ey).
  rewrite !shl_align_value by lia.
  set (d := cond_Zopp sx (Zpos mx * 2 ^ (ex - ez))
            - cond_Zopp sy (Zpos my * 2 ^ (ey - ez))).
  assert (Hp : 0 < 2 ^ (ez + 1074)) by (apply Z.pow_pos_nonneg; lia).
  assert (Hz : z = d * 2 ^ (ez + 1074)).
  { unfold z, d, SFint.
    replace (ex + 1074) with ((ex - ez) + (ez + 1074)) by lia.
    replace (ey + 1074) with ((ey - ez) + (ez + 1074)) by lia.
    rewrite (Z.pow_add_r 2 (ex - ez) (ez + 1074)) by lia.
    rewrite (Z.pow_add_r 2 (ey - ez) (ez + 1074)) by lia.
    destruct sx, sy; unfold cond_Zopp; ring. }
  unfold binary_normalize. destruct d as [|p|p] eqn:Hd.
  - lia.
  - pose proof (binary_round_pos false p ez ltac:(lia)) as Hr.
    destruct (binary_round _ _ _ _ _) as [s|s| |s m e]; try done; subst s;
      nia.
  - pose proof (binary_round_pos true p ez ltac:(lia)) as Hr.
    destruct (binary_round _ _ _ _ _) as [s|s| |s m e]; try done; subst s;
      nia.
Qed.

(** [0 < y - x] exactly when [x < y]: the difference of two numbers is
    rounded, but never to zero, and never across zero. *)
Lemma SFsub_positive (x y : spec_float) :
  valid_binary x = true → valid_binary y = true →
  x ≠ S754_nan → y ≠ S754_nan →
  SFltb (S754_zero false) (SF64sub y x) = (SFint x <? SFint y).
Proof.
  assert (Htop : 0 < 2 ^ 2098) by (apply Z.pow_pos_nonneg; lia).
  destruct x as [sx|sx| |sx mx ex], y as [sy|sy| |sy my ey];
    intros Hx Hy Hnx Hny; try done;
    try pose proof (magnitude_bounds _ _ _ Hx) as Bx;
    try pose proof (magnitude_bounds _ _ _ Hy) as By.
  - by destruct sx, sy.
  - destruct sy; simpl; symmetry;
      [apply Z.ltb_ge | apply Z.ltb_lt]; lia.
  - destruct sy; simpl; symmetry;
      [apply Z.ltb_ge | apply Z.ltb_lt]; lia.
  - destruct sx; simpl; symmetry;
      [apply Z.ltb_lt | apply Z.ltb_ge]; lia.
  - destruct sx, sy; simpl; symmetry;
      first [apply Z.ltb_lt; lia | apply Z.ltb_ge; lia].
  - destruct sx, sy; simpl; symmetry;
      first [apply Z.ltb_lt; lia | apply Z.ltb_ge; lia].
  - destruct sx; simpl; symmetry;
      [apply Z.ltb_lt | apply Z.ltb_ge]; lia.
  - destruct sx, sy; simpl; symmetry;
      first [apply Z.ltb_lt; lia | apply Z.ltb_ge; lia].
  - pose proof (SFsub_finite sy sx my mx ey ex Hy Hx) as Hs. cbv zeta in Hs.
    destruct (SF64sub _ _) as [s|s| |s m e]; try done;
      try destruct s; destruct sx, sy; unfold SFint, cond_Zopp in *;
      simpl SFltb; symmetry;
      first [apply Z.ltb_lt; lia | apply Z.ltb_ge; lia].
Qed.

(** *** Signs and [NaN] through the operations *)

Lemma binary_round_sign (sx : bool) (q : positive) (e : Z) :
  SFsign_is sx (binary_round prec emax sx q e).
Proof.
  unfold binary_round. destruct (shl_align q e _) as [mz ez].
  by apply binary_round_aux_sign.
Qed.

Lemma SFsign_is_not_nan (s : bool) (x : spec_float) :
  SFsign_is s x → x ≠ S754_nan.
Proof. by destruct x. Qed.

Lemma SFsign_is_not_negative (x : spec_float) :
  SFsign_is false x → SFnot_negative x.
Proof. destruct x as [s|s| |s m e]; simpl; try done; by intros ->. Qed.


Lemma SFadd_not_negative (x y : spec_float) :
  SFnot_negative x → SFnot_negative y →
  SFnot_negative (SF64add x y)
  ∧ (x ≠ S754_nan → y ≠ S754_nan → SF64add x y ≠ S754_nan).
Proof.
  destruct x as [sx|sx| |sx mx ex], y as [sy|sy| |sy my ey]; simpl;
    try done; try (by destruct sx); try (by destruct sy);
    try (by destruct sx, sy).
  destruct sx, sy; try done. intros _ _. simpl.
  pose proof (binary_round_sign false
    ((shl_align mx ex (ex `min` ey)).1 + (shl_align my ey (ex `min` ey)).1)
    (ex `min` ey)) as H.
  split; [by apply SFsign_is_not_negative|].
  intros _ _. by eapply SFsign_is_not_nan.
Qed.

Lemma SFsqrt_not_negative (x : spec_float) :
  SFnot_negative (SF64sqrt x)
  ∧ (SFnot_negative x → x ≠ S754_nan → SF64sqrt x ≠ S754_nan).
Proof.
  destruct x as [s|s| |s m e]; simpl; try done; try (by destruct s).
  destruct s; [done|].
  unfold SF64sqrt, SFsqrt.
  destruct (SFsqrt_core_binary prec emax (Zpos m) e) as [[mz ez] lz] eqn:Hc.
  assert (Hmz : 0 <= mz).
  { unfold SFsqrt_core_binary in Hc.
    destruct (Z.sqrtrem _) as [q r] eqn:Hq.
    assert (Hs : q = (q, r).1) by done.
    rewrite <- Hq, Z.sqrtrem_sqrt in Hs.
    inversion Hc; subst. apply Z.sqrt_nonneg. }
  pose proof (binary_round_aux_sign false mz ez lz Hmz) as H.
  split; [by apply SFsign_is_not_negative|].
  intros _ _. by eapply SFsign_is_not_nan.
Qed.

Lemma SFdiv_core_nonneg (mx my : positive) (ex ey : Z) :
  0 <= (SFdiv_core_binary prec emax (Zpos mx) ex (Zpos my) ey).1.1.
Proof.
  unfold SFdiv_core_binary.
  set (s := _ - _ - _).
  set (m' := match s with Zpos _ => _ | Z0 => _ | Zneg _ => _ end).
  assert (Hm : 0 <= m').
  { unfold m'. destruct s; [lia| |lia]. apply Z.shiftl_nonneg. lia. }
  pose proof (Z.div_pos m' (Zpos my) Hm ltac:(lia)) as Hq.
  unfold Z.div in Hq. by destruct (Z.div_eucl m' (Zpos my)).
Qed.

Lemma SFdiv_finite_sign (sx sy : bool) (mx my : positive) (ex ey : Z) :
  SFsign_is (xorb sx sy)
    (SF64div (S754_finite sx mx ex) (S754_finite sy my ey)).
Proof.
  unfold SF64div, SFdiv.
  pose proof (SFdiv_core_nonneg mx my ex ey) as Hq.
  destruct (SFdiv_core_binary _ _ _ _ _ _) as [[mz ez] lz].
  by apply binary_round_aux_sign.
Qed.

(** The quotient of two numbers that are not negative, the second of them
    not a zero, is not negative. *)
Lemma SFdiv_not_negative (x y : spec_float) :
  SFnot_negative x → SFnot_negative y →
  SFeqb y (S754_zero false) = false →
  SFnot_negative (SF64div x y).
Proof.
  destruct x as [sx|sx| |sx mx ex], y as [sy|sy| |sy my ey];
    try done; try (by destruct sx); try (by destruct sy);
    try (by destruct sx, sy).
  destruct sx, sy; try done. intros _ _ _.
  apply SFsign_is_not_negative. apply (SFdiv_finite_sign false false).
Qed.


Lemma SFnot_negative_int (x : spec_float) :
  SFnot_negative x → 0 <= SFint x.
Proof.
  assert (Hp : ∀ n, 0 <= 2 ^ n) by (intros n; apply Z.pow_nonneg; lia).
  destruct x as [s|s| |s m e]; try destruct s; simpl SFnot_negative;
    try done; intros _; unfold SFint, cond_Zopp;
    first [lia | apply Hp | apply Z.mul_nonneg_nonneg; [lia|apply Hp]].
Qed.

(** *** The primitive numbers *)

Lemma SFeqb_refl (x : spec_float) :
  SFeqb x x = negb (SFis_nan x).
Proof.
  unfold SFeqb. destruct x as [s|s| |s m e]; simpl; try done.
  - by destruct s.
  - destruct s; by rewrite Z.compare_refl, Pos.compare_cont_refl.
Qed.

Lemma is_nan_Prim2SF (x : float) : is_nan x = SFis_nan (Prim2SF x).
Proof.
  unfold is_nan. rewrite FloatAxioms.eqb_spec, SFeqb_refl.
  by destruct (SFis_nan _).
Qed.

Lemma is_nan_false (x : float) :
  is_nan x = false → Prim2SF x ≠ S754_nan.
Proof. rewrite is_nan_Prim2SF. by destruct (Prim2SF x). Qed.

Lemma float_ltb_int (x y : float) :
  is_nan x = false → is_nan y = false →
  (x <? y)%float = (float_int x <? float_int y).
Proof.
  intros Hx%is_nan_false Hy%is_nan_false. rewrite ltb_spec.
  apply SFltb_int; try done; apply Prim2SF_valid.
Qed.

Lemma float_leb_int (x y : float) :
  is_nan x = false → is_nan y = false →
  (x <=? y)%float = (float_int x <=? float_int y).
Proof.
  intros Hx%is_nan_false Hy%is_nan_false. rewrite leb_spec.
  apply SFleb_int; try done; apply Prim2SF_valid.
Qed.

Lemma float_sub_positive (x y : float) :
  is_nan x = false → is_nan y = false →
  (0 <? y - x)%float = (float_int x <? float_int y).
Proof.
  intros Hx%is_nan_false Hy%is_nan_false. rewrite ltb_spec, sub_spec.
  apply SFsub_positive; try done; apply Prim2SF_valid.
Qed.

Lemma float_not_negative_int (x : float) :
  float_not_negative x → 0 <= float_int x.
Proof. apply SFnot_negative_int. Qed.

Lemma float_sqrt_not_negative (x : float) :
  float_not_negative (PrimFloat.sqrt x).
Proof.
  unfold float_not_negative. rewrite sqrt_spec. apply SFsqrt_not_negative.
Qed.

Lemma float_add_not_negative (x y : float) :
  float_not_negative x → float_not_negative y →
  float_not_negative (x + y)%float.
Proof.
  unfold float_not_negative. rewrite add_spec. intros.
  by apply SFadd_not_negative.
Qed.

Lemma float_div_not_negative (x y : float) :
  float_not_negative x → float_not_negative y →
  (y =? 0)%float = false →
  float_not_negative (x / y)%float.
Proof.
  unfold float_not_negative. rewrite div_spec, FloatAxioms.eqb_spec. intros.
  by apply SFdiv_not_negative.
Qed.








End Binary64.

(** ** Claims on the shape of the output (every interpretation) *)

Section Shape.
Context {num : Type} {N : JSNumber num}.
Implicit Types (input : TopsisInput num).

Lemma unsorted_results_names input :
  r_name <$> unsorted_results input = name <$> selectedMaterialsData input.
Proof.
  apply list_eq. intros i. unfold unsorted_results.
  rewrite !list_lookup_fmap, list_lookup_imap.
  by destruct (selectedMaterialsData input !! i).
Qed.

Lemma sorted_results_names input :
  r_name <$> array_sort compare_results (unsorted_results input)
  ≡ₚ name <$> selectedMaterialsData input.
Proof.
  rewrite <- unsorted_results_names.
  apply fmap_Permutation, array_sort_Permutation.
Qed.

(** Every result of a run is the result object of one of the materials. *)
Lemma sorted_results_elem input (r : TopsisFullResults num) :
  r ∈ array_sort compare_results (unsorted_results input) ↔
  ∃ i material, selectedMaterialsData input !! i = Some material
                ∧ r = result_of input i material.
Proof.
  rewrite array_sort_Permutation, list_elem_of_lookup.
  split.
  - intros (i & Hi). apply lookup_unsorted_results in Hi as (m & ? & ?).
    eauto.
  - intros (i & m & Hm & ->). exists i. apply lookup_unsorted_results. eauto.
Qed.

(** C6.  If the list of selected materials or the list of selected
    criterion keys is empty, the engine returns the empty list of results
    and throws nothing. *)
Theorem empty_selection_gives_empty_results input :
  selectedMaterialsData input = [] ∨ selectedCriteriaKeys input = [] →
  runTopsisCalculation input = Some [].
Proof.
  unfold runTopsisCalculation.
  intros [Hempty|Hempty]; rewrite Hempty; simpl.
  - reflexivity.
  - by rewrite orb_true_r.
Qed.

(** C7.  For a non-empty input the engine returns one result per selected
    material: the results are as many as the materials, their names are
    the names of the materials up to order, and where the materials are
    named apart (the name identifies a material within a run) the name of
    each material is the name of exactly one result. *)
Theorem one_result_per_material input :
  selectedMaterialsData input ≠ [] →
  selectedCriteriaKeys input ≠ [] →
  ∃ results,
    runTopsisCalculation input = Some results
    ∧ length results = length (selectedMaterialsData input)
    ∧ r_name <$> results ≡ₚ name <$> selectedMaterialsData input
    ∧ (NoDup (name <$> selectedMaterialsData input) →
       ∀ material, material ∈ selectedMaterialsData input →
         ∃ i r, results !! i = Some r ∧ r_name r = name material
           ∧ ∀ i' r', results !! i' = Some r' →
                      r_name r' = name material → i' = i).
Proof.
  intros Hm Hk. eexists. split; [by apply run_eq|].
  pose proof (sorted_results_names input) as Hnames.
  split; [|split; [exact Hnames|]].
  - apply Permutation_length in Hnames. by rewrite !length_fmap in Hnames.
  - intros Hnodup material Hin.
    rewrite <- Hnames in Hnodup.
    assert (Hname :
      name material
      ∈ r_name <$> array_sort compare_results (unsorted_results input)).
    { rewrite Hnames. by apply list_elem_of_fmap_2. }
    apply list_elem_of_lookup in Hname as (i & Hi).
    pose proof Hi as Hi'. rewrite list_lookup_fmap in Hi'.
    destruct (array_sort compare_results (unsorted_results input) !! i)
      as [r|] eqn:Hr; [|done].
    injection Hi' as Hrn. exists i, r. split; [done|]. split; [done|].
    intros i' r' Hr' Hrn'.
    eapply (NoDup_lookup _ i' i (name material)); [exact Hnodup| |exact Hi].
    by rewrite list_lookup_fmap, Hr', <- Hrn'.
Qed.

End Shape.

(** ** Exact arithmetic: basic facts *)

Lemma Rltb_true (a b : R) : Rltb a b = true ↔ (a < b)%R.
Proof. unfold Rltb. destruct (Rlt_dec a b); split; done. Qed.

Lemma Rltb_false (a b : R) : Rltb a b = false ↔ (b <= a)%R.
Proof. unfold Rltb. destruct (Rlt_dec a b); split; try done; lra. Qed.

Lemma Reqb_true (a b : R) : Reqb a b = true ↔ a = b.
Proof. unfold Reqb. destruct (Req_dec_T a b); split; done. Qed.

Lemma Reqb_false (a b : R) : Reqb a b = false ↔ a ≠ b.
Proof. unfold Reqb. destruct (Req_dec_T a b); split; done. Qed.

Lemma xr_is_finite_Fin (x : xreal) : xr_is_finite x = true → x = Fin (to_R x).
Proof. by destruct x. Qed.

Lemma Rsum_S (n : nat) (f : nat → R) : Rsum (S n) f = (Rsum n f + f n)%R.
Proof. unfold Rsum. by rewrite seq_S, foldl_app. Qed.

Lemma Rsum_ext (n : nat) (f g : nat → R) :
  (∀ i, i < n → f i = g i) → Rsum n f = Rsum n g.
Proof.
  intros Hfg. induction n as [|n IH]; [done|].
  rewrite !Rsum_S, IH, Hfg by (intros; auto with lia). done.
Qed.

Lemma Rsum_nonneg (n : nat) (f : nat → R) :
  (∀ i, i < n → (0 <= f i)%R) → (0 <= Rsum n f)%R.
Proof.
  intros Hf. induction n as [|n IH]; [unfold Rsum; simpl; lra|].
  rewrite Rsum_S. pose proof (Hf n (Nat.lt_succ_diag_r n)).
  assert (0 <= Rsum n f)%R by (apply IH; intros; apply Hf; lia).
  lra.
Qed.

Lemma Rsum_term_le (n : nat) (f : nat → R) (i : nat) :
  (∀ i, i < n → (0 <= f i)%R) → i < n → (f i <= Rsum n f)%R.
Proof.
  intros Hf Hi. induction n as [|n IH]; [lia|].
  rewrite Rsum_S.
  assert (0 <= Rsum n f)%R by (apply Rsum_nonneg; auto with lia).
  pose proof (Hf n (Nat.lt_succ_diag_r n)).
  destruct (decide (i = n)) as [->|Hne]; [lra|].
  assert (f i <= Rsum n f)%R by (apply IH; auto with lia).
  lra.
Qed.

Lemma Rsum_zero (n : nat) (f : nat → R) (i : nat) :
  (∀ i, i < n → (0 <= f i)%R) → Rsum n f = 0%R → i < n → f i = 0%R.
Proof.
  intros Hf H0 Hi.
  pose proof (Rsum_term_le n f i Hf Hi). pose proof (Hf i Hi). lra.
Qed.

Lemma Rsum_all_zero (n : nat) (f : nat → R) :
  (∀ i, i < n → f i = 0%R) → Rsum n f = 0%R.
Proof.
  intros Hf. induction n as [|n IH]; [done|].
  rewrite Rsum_S, IH, Hf by auto with lia. lra.
Qed.

Lemma Rsum_scale (n : nat) (c : R) (f : nat → R) :
  Rsum n (λ i, c * f i)%R = (c * Rsum n f)%R.
Proof.
  induction n as [|n IH]; [unfold Rsum; simpl; lra|].
  rewrite !Rsum_S, IH. lra.
Qed.

Lemma sum_over_Fin (n : nat) (f : nat → R) :
  sum_over n (λ i, Fin (f i)) = Fin (Rsum n f).
Proof.
  induction n as [|n IH]; [done|].
  by rewrite sum_over_S, Rsum_S, IH.
Qed.

Lemma xr_sqrt_Fin (a : R) : (0 <= a)%R → xr_sqrt (Fin a) = Fin (sqrt a).
Proof.
  intros Ha. simpl. by rewrite (proj2 (Rltb_false a 0) Ha).
Qed.

(** [Math.max] and [Math.min] of finite numbers. *)
Lemma foldl_Rmax (a : R) (l : list R) : foldl Rmax a l = MaxRlist (a :: l).
Proof.
  revert a. induction l as [|b l IH]; intros a; [done|].
  simpl foldl. rewrite IH.
  destruct l as [|c l]; [done|].
  change (Rmax (Rmax a b) (MaxRlist (c :: l))
          = Rmax a (Rmax b (MaxRlist (c :: l)))).
  by rewrite Rmax_assoc.
Qed.

Lemma foldl_Rmin (a : R) (l : list R) : foldl Rmin a l = MinRlist (a :: l).
Proof.
  revert a. induction l as [|b l IH]; intros a; [done|].
  simpl foldl. rewrite IH.
  destruct l as [|c l]; [done|].
  change (Rmin (Rmin a b) (MinRlist (c :: l))
          = Rmin a (Rmin b (MinRlist (c :: l)))).
  by rewrite Rmin_assoc.
Qed.

Lemma math_max_step_Fin (a b : R) :
  math_max_step (Fin a) (Fin b) = Fin (Rmax a b).
Proof.
  unfold math_max_step, js_is_pos_zero. simpl.
  rewrite andb_false_r. unfold Rmax, Rltb.
  destruct (Rlt_dec a b), (Rle_dec a b); try done; f_equal; lra.
Qed.

Lemma math_min_step_Fin (a b : R) :
  math_min_step (Fin a) (Fin b) = Fin (Rmin a b).
Proof.
  unfold math_min_step. simpl. unfold Rmin, Rltb.
  destruct (Rlt_dec b a), (Rle_dec a b); try done; f_equal; lra.
Qed.

Lemma math_max_step_NInf (a : R) : math_max_step NInf (Fin a) = Fin a.
Proof. unfold math_max_step. simpl. by rewrite andb_false_r. Qed.

Lemma math_min_step_PInf (a : R) : math_min_step PInf (Fin a) = Fin a.
Proof. unfold math_min_step. by simpl. Qed.

Lemma existsb_isNaN_Fin (l : list R) : existsb js_isNaN (Fin <$> l) = false.
Proof. induction l; [done|]. simpl. done. Qed.

Lemma foldl_math_max_step_Fin (a : R) (l : list R) :
  foldl math_max_step (Fin a) (Fin <$> l) = Fin (foldl Rmax a l).
Proof.
  revert a. induction l as [|b l IH]; intros a; [done|].
  rewrite fmap_cons. simpl foldl. by rewrite math_max_step_Fin, IH.
Qed.

Lemma foldl_math_min_step_Fin (a : R) (l : list R) :
  foldl math_min_step (Fin a) (Fin <$> l) = Fin (foldl Rmin a l).
Proof.
  revert a. induction l as [|b l IH]; intros a; [done|].
  rewrite fmap_cons. simpl foldl. by rewrite math_min_step_Fin, IH.
Qed.

Lemma math_max_Fin (l : list R) :
  l ≠ [] → math_max (Fin <$> l) = Fin (MaxRlist l).
Proof.
  destruct l as [|a l]; [done|]. intros _.
  unfold math_max. rewrite existsb_isNaN_Fin.
  rewrite fmap_cons. simpl foldl.
  by rewrite math_max_step_NInf, foldl_math_max_step_Fin, foldl_Rmax.
Qed.

Lemma math_min_Fin (l : list R) :
  l ≠ [] → math_min (Fin <$> l) = Fin (MinRlist l).
Proof.
  destruct l as [|a l]; [done|]. intros _.
  unfold math_min. rewrite existsb_isNaN_Fin.
  rewrite fmap_cons. simpl foldl.
  by rewrite math_min_step_PInf, foldl_math_min_step_Fin, foldl_Rmin.
Qed.

(** [MaxRlist] is the greatest and [MinRlist] the least entry. *)
Lemma MaxRlist_elem (l : list R) : l ≠ [] → MaxRlist l ∈ l.
Proof.
  intros Hl. apply list_elem_of_In, MaxRlist_P2.
  destruct l as [|a l]; [done|]. exists a. by left.
Qed.

Lemma MaxRlist_upper (l : list R) (x : R) : x ∈ l → (x <= MaxRlist l)%R.
Proof. intros Hx. by apply MaxRlist_P1, list_elem_of_In. Qed.

Lemma MinRlist_elem (l : list R) : l ≠ [] → MinRlist l ∈ l.
Proof.
  induction l as [|a l IH]; [done|]. intros _.
  destruct l as [|b l]; [apply list_elem_of_here|].
  change (Rmin a (MinRlist (b :: l)) ∈ a :: b :: l).
  unfold Rmin. destruct (Rle_dec a (MinRlist (b :: l))).
  - apply list_elem_of_here.
  - apply list_elem_of_further, IH. done.
Qed.

Lemma MinRlist_lower (l : list R) (x : R) : x ∈ l → (MinRlist l <= x)%R.
Proof. intros Hx. by apply MinRlist_P1, list_elem_of_In. Qed.

(** ** Exact arithmetic: the stages on numeric inputs *)

Section RealModel.
Variable input : TopsisInput xreal.

Hypothesis Hnumeric : numeric_input input.

Lemma js_or_finite (v : option xreal) :
  (∀ x, v = Some x → xr_is_finite x = true) →
  xr_is_finite (js_or v (Fin 0)) = true.
Proof.
  intros Hv. destruct v as [x|]; simpl; [|done].
  destruct (js_truthy x); [by apply Hv | done].
Qed.

Lemma raw_value_finite (i j : nat) :
  i < numRows input → j < numCols input →
  xr_is_finite (raw_value input i j) = true.
Proof.
  intros Hi Hj. unfold raw_value.
  destruct (lookup_lt_is_Some_2 _ _ Hi) as [m Hm].
  destruct (lookup_lt_is_Some_2 _ _ Hj) as [k Hk].
  rewrite Hm, Hk. destruct Hnumeric as (Hmats & Hcosts & _).
  case_decide.
  - apply js_or_finite. intros x Hx. by apply (Hcosts _ _ Hx).
  - rewrite Forall_forall in Hmats. apply Hmats; [|done].
    by eapply list_elem_of_lookup_2.
Qed.

Lemma raw_value_Fin (i j : nat) :
  i < numRows input → j < numCols input →
  raw_value input i j = Fin (Rraw input i j).
Proof. intros. by apply xr_is_finite_Fin, raw_value_finite. Qed.

Lemma weight_of_Fin (j : nat) : weight_of input j = Fin (Rweight input j).
Proof.
  apply xr_is_finite_Fin. unfold weight_of. apply js_or_finite.
  intros x Hx. destruct Hnumeric as (_ & _ & Hweights).
  destruct (selectedCriteriaKeys input !! j) as [k|]; simpl in Hx; [|done].
  by apply (Hweights _ _ Hx).
Qed.

Lemma Rsum_squares_nonneg (n : nat) (f : nat → R) :
  (0 <= Rsum n (λ i, f i * f i))%R.
Proof. apply Rsum_nonneg. intros. nra. Qed.

Lemma column_norm_Fin (j : nat) :
  j < numCols input → column_norm input j = Fin (Rnorm input j).
Proof.
  intros Hj. unfold column_norm, Rnorm.
  rewrite (sum_over_ext _ _ (λ i, Fin (Rraw input i j * (Rraw input) i j))).
  - rewrite sum_over_Fin. apply xr_sqrt_Fin, Rsum_squares_nonneg.
  - intros i Hi. by rewrite raw_value_Fin.
Qed.

Lemma normalized_Fin (i j : nat) :
  i < numRows input → j < numCols input →
  normalized input i j = Fin (Rnormalized input i j).
Proof.
  intros Hi Hj. unfold normalized, Rnormalized.
  rewrite column_norm_Fin, raw_value_Fin by done. simpl.
  by destruct (Reqb (Rnorm input j) 0).
Qed.

Lemma weighted_Fin (i j : nat) :
  i < numRows input → j < numCols input →
  weighted input i j = Fin (Rweighted input i j).
Proof.
  intros Hi Hj. unfold weighted. by rewrite normalized_Fin, weight_of_Fin.
Qed.

Lemma weighted_column_Fin (j : nat) :
  j < numCols input → weighted_column input j = Fin <$> (Rcolumn input) j.
Proof.
  intros Hj. unfold weighted_column, Rcolumn, tabulate.
  rewrite <- list_fmap_compose. apply tabulate_ext.
  intros i Hi. by apply weighted_Fin.
Qed.

Hypothesis Hrows : 0 < numRows input.

Lemma Rcolumn_nonempty (j : nat) : (Rcolumn input) j ≠ [].
Proof.
  intros Hnil. apply (f_equal length) in Hnil.
  unfold Rcolumn in Hnil. rewrite length_tabulate in Hnil. simpl in Hnil. lia.
Qed.

Lemma ideal_Fin (j : nat) :
  j < numCols input → ideal input j = Fin (Rideal input j).
Proof.
  intros Hj. unfold ideal, Rideal. rewrite weighted_column_Fin by done.
  destruct (benefit_column input j);
    [apply math_max_Fin | apply math_min_Fin]; apply Rcolumn_nonempty.
Qed.

Lemma anti_ideal_Fin (j : nat) :
  j < numCols input → anti_ideal input j = Fin (Ranti_ideal input j).
Proof.
  intros Hj. unfold anti_ideal, Ranti_ideal.
  rewrite weighted_column_Fin by done.
  destruct (benefit_column input j);
    [apply math_min_Fin | apply math_max_Fin]; apply Rcolumn_nonempty.
Qed.

Lemma separation_Fin (v : nat → xreal) (rv : nat → R) (i : nat) :
  i < numRows input →
  (∀ j, j < numCols input → v j = Fin (rv j)) →
  separation input v i = Fin (Rseparation input rv i).
Proof.
  intros Hi Hv. unfold separation, Rseparation.
  rewrite (sum_over_ext _ _
    (λ j, Fin ((Rweighted input i j - rv j) * (Rweighted input i j - rv j)))).
  - rewrite sum_over_Fin. apply xr_sqrt_Fin, Rsum_squares_nonneg.
  - intros j Hj. by rewrite weighted_Fin, Hv.
Qed.

Lemma score_of_Rscore (i : nat) :
  i < numRows input → score_of input i = (Rscore input) i.
Proof.
  intros Hi. unfold score_of, closeness, Rscore.
  rewrite (separation_Fin _ (Rideal input)),
    (separation_Fin _ (Ranti_ideal input))
    by (done || apply ideal_Fin || apply anti_ideal_Fin).
  simpl.
  by destruct (Reqb _ 0).
Qed.

End RealModel.

(** ** Claims on the numbers (exact arithmetic) *)

Lemma euclidean_norm_tabulate (n : nat) (f : nat → R) :
  euclidean_norm (tabulate n f) = sqrt (Rsum n (λ i, f i * f i)%R).
Proof. unfold euclidean_norm, tabulate, Rsum. by rewrite foldl_fmap. Qed.

Lemma fmap_tabulate {A B : Type} (h : A → B) (n : nat) (f : nat → A) :
  h <$> tabulate n f = tabulate n (λ i, h (f i)).
Proof. unfold tabulate. by rewrite <- list_fmap_compose. Qed.

Lemma MaxRlist_greatest (l : list R) : l ≠ [] → greatest (MaxRlist l) l.
Proof. split; [by apply MaxRlist_elem | apply MaxRlist_upper]. Qed.

Lemma MinRlist_least (l : list R) : l ≠ [] → least (MinRlist l) l.
Proof. split; [by apply MinRlist_elem | apply MinRlist_lower]. Qed.

(** The polarity lookup: [criteriaMap.get(k)] is an entry of the catalog
    with the key [k], and is [undefined] exactly when there is none. *)
Lemma criteriaMap_fold_lookup (l : list Criterion)
    (m : gmap CriterionKey Criterion) (k : CriterionKey) :
  match foldl (λ m c, <[key c:=c]> m) m l !! k with
  | Some c => (c ∈ l ∧ key c = k) ∨ m !! k = Some c
  | None => m !! k = None ∧ ∀ c, c ∈ l → key c ≠ k
  end.
Proof.
  revert m. induction l as [|c0 l IH]; intros m; simpl.
  - destruct (m !! k) as [c|] eqn:Hm; [by right|].
    split; [done|]. intros c Hc. by apply elem_of_nil in Hc.
  - specialize (IH (<[key c0:=c0]> m)).
    destruct (foldl _ _ l !! k) as [c|].
    + destruct IH as [[Hc Hk]|Hins].
      * left. split; [by apply list_elem_of_further | done].
      * apply lookup_insert_Some in Hins as [[Hk <-]|[Hk Hm]].
        -- left. split; [apply list_elem_of_here | done].
        -- by right.
    + destruct IH as [Hins Hl].
      apply lookup_insert_None in Hins as [Hm Hk].
      split; [done|]. intros c Hc.
      apply elem_of_cons in Hc as [->|Hc]; [done | by apply Hl].
Qed.

Lemma criteriaMap_of_Some (l : list Criterion) (k : CriterionKey)
    (c : Criterion) :
  criteriaMap_of l !! k = Some c → c ∈ l ∧ key c = k.
Proof.
  intros Hc. pose proof (criteriaMap_fold_lookup l ∅ k) as H.
  unfold criteriaMap_of in Hc. rewrite Hc in H.
  destruct H as [H|H]; [done|]. by rewrite lookup_empty in H.
Qed.

Lemma criteriaMap_of_None (l : list Criterion) (k : CriterionKey) :
  criteriaMap_of l !! k = None → ∀ c, c ∈ l → key c ≠ k.
Proof.
  intros Hc. pose proof (criteriaMap_fold_lookup l ∅ k) as H.
  unfold criteriaMap_of in Hc. rewrite Hc in H. by destruct H.
Qed.

Section Polarity.
Context {num : Type} {N : JSNumber num}.
Variable input : TopsisInput num.

(** A column whose key has entries in the catalog, all of them flagged
    as benefit, is treated as a benefit column. *)
Lemma benefit_column_true (j : nat) (k : CriterionKey) :
  selectedCriteriaKeys input !! j = Some k →
  (∃ c, c ∈ allCriteriaDefinition input ∧ key c = k) →
  (∀ c, c ∈ allCriteriaDefinition input → key c = k → isBenefit c = true) →
  benefit_column input j = true.
Proof.
  intros Hk (c0 & Hc0 & Hk0) Hall. unfold benefit_column. rewrite Hk. simpl.
  destruct (criteriaMap_of _ !! k) as [c|] eqn:Hc; simpl.
  - apply criteriaMap_of_Some in Hc as [Hc Hkc]. by apply Hall.
  - exfalso. by apply (criteriaMap_of_None _ _ Hc c0).
Qed.

(** A column whose key has no entry flagged as benefit, and in particular
    one whose key has no entry at all, is treated as a cost column. *)
Lemma benefit_column_false (j : nat) (k : CriterionKey) :
  selectedCriteriaKeys input !! j = Some k →
  (∀ c, c ∈ allCriteriaDefinition input → key c = k → isBenefit c = false) →
  benefit_column input j = false.
Proof.
  intros Hk Hall. unfold benefit_column. rewrite Hk. simpl.
  destruct (criteriaMap_of _ !! k) as [c|] eqn:Hc; simpl; [|done].
  apply criteriaMap_of_Some in Hc as [Hc Hkc]. by apply Hall.
Qed.

End Polarity.

Section NumericClaims.
Variable input : TopsisInput xreal.
Hypothesis Hmaterials : selectedMaterialsData input ≠ [].
Hypothesis Hkeys : selectedCriteriaKeys input ≠ [].

Lemma numRows_pos : 0 < numRows input.
Proof.
  unfold numRows. destruct (selectedMaterialsData input); [done|simpl; lia].
Qed.

Lemma result_initialMatrix (r : TopsisFullResults xreal) :
  r ∈ array_sort compare_results (unsorted_results input) →
  r_initialMatrix r
  = tabulate2 (numRows input) (numCols input) (raw_value input)
  ∧ r_normalizedMatrix r
    = tabulate2 (numRows input) (numCols input) (normalized input)
  ∧ r_weightedMatrix r
    = tabulate2 (numRows input) (numCols input) (weighted input)
  ∧ r_idealSolution r = tabulate (numCols input) (ideal input)
  ∧ r_antiIdealSolution r = tabulate (numCols input) (anti_ideal input)
  ∧ r_distanceToIdeal r
    = tabulate (numRows input) (separation input (ideal input))
  ∧ r_distanceToAntiIdeal r
    = tabulate (numRows input) (separation input (anti_ideal input)).
Proof.
  intros Hr. apply sorted_results_elem in Hr as (i & m & _ & ->).
  repeat split.
Qed.

Hypothesis Hnumeric : numeric_input input.

Lemma normalized_column_norm (j : nat) :
  j < numCols input →
  let raw := tabulate (numRows input) (λ i, Rraw input i j) in
  euclidean_norm raw = Rnorm input j
  ∧ (euclidean_norm raw ≠ 0%R →
     euclidean_norm ((λ x, x / euclidean_norm raw)%R <$> raw) = 1%R).
Proof.
  intros Hj raw.
  assert (Hnorm : euclidean_norm raw = Rnorm input j)
    by apply euclidean_norm_tabulate.
  split; [exact Hnorm|]. intros Hnz. rewrite Hnorm in *.
  unfold raw. rewrite fmap_tabulate, euclidean_norm_tabulate.
  rewrite (Rsum_ext _ _
    (λ i, / (Rnorm input j * Rnorm input j)
          * (Rraw input i j * Rraw input i j))%R)
    by (intros; field; done).
  rewrite Rsum_scale.
  assert (Hsq :
    (Rnorm input j * Rnorm input j
     = Rsum (numRows input) (λ i, Rraw input i j * Rraw input i j))%R)
    by apply sqrt_def, Rsum_squares_nonneg.
  rewrite <- Hsq, Rinv_l by nra. apply sqrt_1.
Qed.

(** In exact arithmetic, for a non-empty numeric input, every column of
    the normalized matrix is the column of the initial matrix divided by
    its Euclidean norm, and then has Euclidean norm 1; unless that norm is
    0, in which case every entry of the normalized column is 0.  Binary64
    departs from this: see [normalized_column_is_raw_over_norm]. *)
Lemma exact_normalized_columns_are_unit_or_zero :
  ∃ results,
    runTopsisCalculation input = Some results
    ∧ ∀ r j, r ∈ results → j < length (selectedCriteriaKeys input) →
      ∃ raw : list R,
        column (r_initialMatrix r) j = Fin <$> raw
        ∧ length raw = length (selectedMaterialsData input)
        ∧ (euclidean_norm raw ≠ 0%R →
           column (r_normalizedMatrix r) j
             = (λ x, Fin (x / euclidean_norm raw)) <$> raw
           ∧ euclidean_norm ((λ x, x / euclidean_norm raw)%R <$> raw) = 1%R)
        ∧ (euclidean_norm raw = 0%R →
           column (r_normalizedMatrix r) j = (λ _, Fin 0) <$> raw).
Proof.
  eexists. split; [by apply run_eq|].
  intros r j Hr Hj. fold (numCols input) in Hj.
  destruct (result_initialMatrix r Hr) as (-> & -> & _).
  exists (tabulate (numRows input) (λ i, Rraw input i j)).
  destruct (normalized_column_norm j Hj) as (Hnorm & Hunit).
  unfold column. rewrite !column_tabulate2, !fmap_tabulate by done.
  split; [|split; [apply length_tabulate|split]].
  - apply tabulate_ext. intros i Hi. by apply raw_value_Fin.
  - intros Hnz. split; [|rewrite fmap_tabulate in Hunit; by apply Hunit].
    apply tabulate_ext. intros i Hi.
    rewrite normalized_Fin by done. unfold Rnormalized.
    rewrite Hnorm in *. by rewrite (proj2 (Reqb_false _ _) Hnz).
  - intros Hz. apply tabulate_ext. intros i Hi.
    rewrite normalized_Fin by done. unfold Rnormalized.
    rewrite Hnorm in *. by rewrite (proj2 (Reqb_true _ _) Hz).
Qed.

(** The ideal and the anti-ideal entry of column [j] are the greatest and
    the least entry of the weighted column, which way round depending on
    the polarity the engine finds for the column. *)
Lemma ideal_entries (r : TopsisFullResults xreal) (j : nat) :
  r ∈ array_sort compare_results (unsorted_results input) →
  j < numCols input →
  ∃ (col : list R) (hi lo : R),
    column (r_weightedMatrix r) j = Fin <$> col
    ∧ greatest hi col ∧ least lo col
    ∧ r_idealSolution r !! j
      = Some (Fin (if benefit_column input j then hi else lo))
    ∧ r_antiIdealSolution r !! j
      = Some (Fin (if benefit_column input j then lo else hi)).
Proof.
  intros Hr Hj.
  destruct (result_initialMatrix r Hr) as (_ & _ & -> & -> & -> & _).
  exists (Rcolumn input j), (MaxRlist (Rcolumn input j)),
    (MinRlist (Rcolumn input j)).
  pose proof (Rcolumn_nonempty input numRows_pos j) as Hne.
  split; [|split; [by apply MaxRlist_greatest|split;
                    [by apply MinRlist_least|]]].
  - unfold column. rewrite column_tabulate2 by done.
    exact (weighted_column_Fin input Hnumeric j Hj).
  - rewrite !lookup_tabulate by done.
    rewrite ideal_Fin, anti_ideal_Fin by (done || apply numRows_pos).
    unfold Rideal, Ranti_ideal. by destruct (benefit_column input j).
Qed.

(** C4.  For a non-empty numeric input the run returns one result for each
    material, and for a selected criterion key that the criteria catalog
    defines: if the criterion is flagged as benefit,
    the ideal entry of its column is the greatest and the anti-ideal entry
    the least value of the column of the weighted matrix; if it is not,
    the ideal entry is the least and the anti-ideal entry the greatest. *)
Theorem ideal_is_column_extreme_by_polarity :
  ∃ results,
    runTopsisCalculation input = Some results
    ∧ length results = length (selectedMaterialsData input)
    ∧ ∀ r j k flag, r ∈ results →
      selectedCriteriaKeys input !! j = Some k →
      (∃ c, c ∈ allCriteriaDefinition input ∧ key c = k) →
      (∀ c, c ∈ allCriteriaDefinition input → key c = k → isBenefit c = flag) →
      ∃ (col : list R) (hi lo : R),
        column (r_weightedMatrix r) j = Fin <$> col
        ∧ greatest hi col ∧ least lo col
        ∧ r_idealSolution r !! j = Some (Fin (if flag then hi else lo))
        ∧ r_antiIdealSolution r !! j = Some (Fin (if flag then lo else hi)).
Proof.
  eexists. split; [by apply run_eq|]. split.
  { rewrite (Permutation_length (array_sort_Permutation _ _)).
    apply length_imap. }
  intros r j k flag Hr Hk Hdefined Hflag.
  assert (Hj : j < numCols input) by (eapply lookup_lt_Some; eauto).
  destruct (ideal_entries r j Hr Hj) as (col & hi & lo & ? & ? & ? & Hi & Ha).
  exists col, hi, lo. repeat (split; [done|]).
  assert (Hb : benefit_column input j = flag).
  { destruct flag.
    - by eapply benefit_column_true.
    - by eapply benefit_column_false. }
  by rewrite <- Hb.
Qed.

(** C10.  For a non-empty numeric input, a selected criterion key that has
    no entry in the criteria catalog is treated as a cost criterion: the
    ideal entry of its column is the least and the anti-ideal entry the
    greatest value of the column of the weighted matrix.  The run throws
    nothing and rejects nothing. *)
Theorem unknown_key_is_treated_as_cost :
  ∃ results,
    runTopsisCalculation input = Some results
    ∧ length results = length (selectedMaterialsData input)
    ∧ ∀ r j k, r ∈ results →
      selectedCriteriaKeys input !! j = Some k →
      (∀ c, c ∈ allCriteriaDefinition input → key c ≠ k) →
      ∃ (col : list R) (hi lo : R),
        column (r_weightedMatrix r) j = Fin <$> col
        ∧ greatest hi col ∧ least lo col
        ∧ r_idealSolution r !! j = Some (Fin lo)
        ∧ r_antiIdealSolution r !! j = Some (Fin hi).
Proof.
  eexists. split; [by apply run_eq|]. split.
  { rewrite (Permutation_length (array_sort_Permutation _ _)).
    apply length_imap. }
  intros r j k Hr Hk Hunknown.
  assert (Hj : j < numCols input) by (eapply lookup_lt_Some; eauto).
  destruct (ideal_entries r j Hr Hj) as (col & hi & lo & ? & ? & ? & Hi & Ha).
  exists col, hi, lo. repeat (split; [done|]).
  assert (Hb : benefit_column input j = false).
  { eapply benefit_column_false; [done|]. intros c Hc Hkc.
    by destruct (Hunknown c Hc). }
  by rewrite Hb in Hi, Ha.
Qed.

End NumericClaims.

(** ** The normalized matrix (binary64) *)



Section FloatNormalization.
Variable input : TopsisInput float.
Hypothesis Hmaterials : selectedMaterialsData input ≠ [].
Hypothesis Hkeys : selectedCriteriaKeys input ≠ [].



End FloatNormalization.


(** ** Scores and ranking (exact arithmetic, any input) *)

Lemma zip_tabulate {A B : Type} (n : nat) (f : nat → A) (g : nat → B) :
  zip (tabulate n f) (tabulate n g) = tabulate n (λ i, (f i, g i)).
Proof.
  apply list_eq. intros i. rewrite lookup_zip_with.
  destruct (decide (i < n)) as [Hi|Hi].
  - by rewrite !lookup_tabulate by done.
  - by rewrite !lookup_tabulate_ge by lia.
Qed.

Lemma separation_distance_to {num : Type} {N : JSNumber num}
    (input : TopsisInput num) (v : nat → num) (i : nat) :
  separation input v i
  = distance_to (tabulate (numCols input) (weighted input i))
                (tabulate (numCols input) v).
Proof.
  unfold separation, distance_to, sum_over.
  rewrite zip_tabulate. unfold tabulate. by rewrite foldl_fmap.
Qed.

Lemma xr_pow2_not_negative (x : xreal) : xr_not_negative (js_pow2 x).
Proof.
  destruct x as [a| | |]; simpl; try done. nra.
Qed.

Lemma xr_add_not_negative (x y : xreal) :
  xr_not_negative x → xr_not_negative y → xr_not_negative (xr_add x y).
Proof. destruct x, y; simpl; try done. lra. Qed.

Lemma sum_over_not_negative (n : nat) (f : nat → xreal) :
  (∀ i, xr_not_negative (f i)) → xr_not_negative (sum_over n f).
Proof.
  intros Hf. induction n as [|n IH]; [simpl; lra|].
  rewrite sum_over_S. by apply xr_add_not_negative.
Qed.

Lemma xr_sqrt_not_negative (x : xreal) :
  xr_not_negative x → xr_not_negative (xr_sqrt x).
Proof.
  destruct x as [a| | |]; simpl; try done. intros Ha.
  rewrite (proj2 (Rltb_false a 0) Ha). apply sqrt_pos.
Qed.

Lemma closeness_in_range (dPlus dMinus : xreal) :
  xr_not_negative dPlus → xr_not_negative dMinus →
  score_in_range (closeness dPlus dMinus).
Proof.
  unfold closeness, score_in_range.
  destruct dPlus as [p| | |], dMinus as [m| | |]; simpl; try done;
    try (left; reflexivity); intros Hp Hm.
  - destruct (Reqb (p + m) 0) eqn:Hz; [by left|]. right.
    apply Reqb_false in Hz. eexists. split; [reflexivity|].
    assert (0 < p + m)%R by lra.
    split.
    + apply Rmult_le_pos; [lra|]. left. by apply Rinv_0_lt_compat.
    + apply (Rmult_le_reg_r (p + m)); [done|].
      unfold Rdiv. rewrite Rmult_assoc, Rinv_l by lra. lra.
  - right. exists 0%R. split; [reflexivity | lra].
Qed.

Lemma separation_not_negative (input : TopsisInput xreal) (v : nat → xreal)
    (i : nat) :
  xr_not_negative (separation input v i).
Proof.
  apply xr_sqrt_not_negative, sum_over_not_negative.
  intros j. apply xr_pow2_not_negative.
Qed.

Lemma score_of_in_range (input : TopsisInput xreal) (i : nat) :
  score_in_range (score_of input i).
Proof. apply closeness_in_range; apply separation_not_negative. Qed.

(** The comparator of the final sort orders the results by their sort key,
    the score with [NaN] replaced by [-Infinity]: [a] is to come after [b]
    exactly when the key of [a] is less than the key of [b]. *)
Lemma sort_key_not_NaN (x : xreal) : xr_isNaN (sort_key x) = false.
Proof. unfold sort_key. by destruct x. Qed.

Lemma xr_sub_positive (a b : xreal) :
  xr_isNaN a = false → xr_isNaN b = false →
  xr_lt (Fin 0) (xr_sub b a) = xr_lt a b.
Proof.
  destruct a as [a| | |], b as [b| | |]; simpl; try done. intros _ _.
  unfold Rltb. destruct (Rlt_dec 0 (b + - a)), (Rlt_dec a b); try done; lra.
Qed.

Lemma sorts_after_compare_results (a b : TopsisFullResults xreal) :
  sorts_after compare_results a b
  = xr_lt (sort_key (r_score a)) (sort_key (r_score b)).
Proof.
  unfold sorts_after, compare_results.
  apply xr_sub_positive; apply sort_key_not_NaN.
Qed.

Lemma xr_lt_asym (a b : xreal) : xr_lt a b = true → xr_lt b a = false.
Proof.
  destruct a as [a| | |], b as [b| | |]; simpl; try done.
  rewrite Rltb_true, Rltb_false. lra.
Qed.

Lemma xr_not_lt_trans (a b c : xreal) :
  xr_isNaN a = false → xr_isNaN b = false → xr_isNaN c = false →
  xr_lt a b = false → xr_lt b c = false → xr_lt a c = false.
Proof.
  destruct a as [a| | |], b as [b| | |], c as [c| | |]; simpl; try done.
  rewrite !Rltb_false. lra.
Qed.

Lemma compare_results_sorted (l : list (TopsisFullResults xreal)) :
  StronglySorted (in_order compare_results) (array_sort compare_results l).
Proof.
  apply array_sort_sorted.
  - intros x y. rewrite !sorts_after_compare_results. apply xr_lt_asym.
  - intros x y z. rewrite !sorts_after_compare_results.
    apply xr_not_lt_trans; apply sort_key_not_NaN.
Qed.

Section AnyInput.
Variable input : TopsisInput xreal.
Hypothesis Hmaterials : selectedMaterialsData input ≠ [].
Hypothesis Hkeys : selectedCriteriaKeys input ≠ [].

Lemma result_of_scored_from_row (i : nat) (material : Material xreal) :
  selectedMaterialsData input !! i = Some material →
  scored_from_row (result_of input i material) i.
Proof.
  intros Hm. assert (Hi : i < numRows input) by (eapply lookup_lt_Some; eauto).
  exists (tabulate (numCols input) (weighted input i)),
    (separation input (ideal input) i),
    (separation input (anti_ideal input) i).
  split.
  { change (tabulate2 (numRows input) (numCols input) (weighted input) !! i
            = Some (tabulate (numCols input) (weighted input i))).
    unfold tabulate2. by rewrite lookup_tabulate. }
  split; [apply separation_distance_to|].
  split; [apply separation_distance_to|].
  split.
  { change (tabulate (numRows input) (separation input (ideal input)) !! i
            = Some (separation input (ideal input) i)).
    by rewrite lookup_tabulate. }
  split; [|reflexivity].
  change (tabulate (numRows input) (separation input (anti_ideal input)) !! i
          = Some (separation input (anti_ideal input) i)).
  by rewrite lookup_tabulate.
Qed.

(** C1.  For a non-empty input the engine throws nothing, and the final
    score of each material is [D- / (D+ + D-)], computed from the row of
    the material in the weighted matrix; it is [NaN] when [D+ + D-] is 0,
    and otherwise a number between 0 and 1 (or [NaN] again, when the
    distances themselves are not finite numbers). *)
Theorem score_is_relative_closeness :
  ∃ results,
    runTopsisCalculation input = Some results
    ∧ (∀ i material, selectedMaterialsData input !! i = Some material →
         ∃ r, r ∈ results ∧ r_originalData r = material
              ∧ r_name r = name material ∧ scored_from_row r i)
    ∧ (∀ r, r ∈ results →
         (∃ i, selectedMaterialsData input !! i = Some (r_originalData r)
               ∧ r_name r = name (r_originalData r) ∧ scored_from_row r i)
         ∧ score_in_range (r_score r)).
Proof.
  eexists. split; [by apply run_eq|]. split.
  - intros i material Hm. exists (result_of input i material).
    split; [apply sorted_results_elem; eauto|].
    repeat split. by apply result_of_scored_from_row.
  - intros r Hr. apply sorted_results_elem in Hr as (i & m & Hm & ->).
    split; [|apply score_of_in_range].
    exists i. repeat split; [done|]. by apply result_of_scored_from_row.
Qed.

End AnyInput.

(** ** The ranking (binary64) *)

Lemma float_sort_key_not_NaN (x : float) :
  PrimFloat.is_nan (sort_key x) = false.
Proof.
  unfold sort_key. simpl. by destruct (PrimFloat.is_nan x) eqn:Hx.
Qed.

(** The comparator of the final sort puts [a] after [b] exactly when the
    sort key of [a] is less than that of [b]. *)
Lemma float_sorts_after (a b : TopsisFullResults float) :
  sorts_after compare_results a b
  = (float_int (sort_key (r_score a))
     <? float_int (sort_key (r_score b)))%Z.
Proof.
  unfold sorts_after, compare_results.
  apply float_sub_positive; apply float_sort_key_not_NaN.
Qed.

Lemma float_results_sorted (l : list (TopsisFullResults float)) :
  StronglySorted (in_order compare_results) (array_sort compare_results l).
Proof.
  apply array_sort_sorted.
  - intros x y. rewrite !float_sorts_after, Z.ltb_lt, Z.ltb_ge. lia.
  - intros x y z. rewrite !float_sorts_after, !Z.ltb_ge. lia.
Qed.

(** A score is [NaN] or not negative, whatever the input: the distances
    are square roots. *)
Lemma float_score_not_negative (input : TopsisInput float) (i : nat) :
  float_not_negative (score_of input i).
Proof.
  unfold score_of, closeness. cbv zeta.
  destruct (js_strict_eq _ _) eqn:Hden; [exact I|].
  apply float_div_not_negative; [| |exact Hden].
  - apply float_sqrt_not_negative.
  - apply float_add_not_negative; apply float_sqrt_not_negative.
Qed.

Section FloatRanking.
Variable input : TopsisInput float.
Hypothesis Hmaterials : selectedMaterialsData input ≠ [].
Hypothesis Hkeys : selectedCriteriaKeys input ≠ [].

(** C2.  In binary64, for a non-empty input: the run returns one result for
    each material, sorted by score in descending order, the results whose
    score is [NaN] standing after all those with a numeric score.  Of two
    results, if the earlier one has the score [NaN] so has the later one;
    if it has a numeric score, the later one's score is [NaN] or at most
    the earlier one's. *)
Theorem results_sorted_descending_nan_last :
  ∃ results,
    runTopsisCalculation input = Some results
    ∧ length results = length (selectedMaterialsData input)
    ∧ ∀ i j a b, i < j → results !! i = Some a → results !! j = Some b →
        if PrimFloat.is_nan (r_score a)
        then PrimFloat.is_nan (r_score b) = true
        else PrimFloat.is_nan (r_score b) = true
             ∨ (r_score b <=? r_score a)%float = true.
Proof.
  eexists. split; [by apply run_eq|]. split.
  { rewrite (Permutation_length (array_sort_Permutation _ _)).
    apply length_imap. }
  intros i j a b Hij Ha Hb.
  pose proof (StronglySorted_lookup _ _ i j a b
    (float_results_sorted (unsorted_results input)) Hij Ha Hb) as Hord.
  unfold in_order in Hord. rewrite float_sorts_after, Z.ltb_ge in Hord.
  assert (Hb' : b ∈ array_sort compare_results (unsorted_results input))
    by by eapply list_elem_of_lookup_2.
  apply sorted_results_elem in Hb' as (ib & mb & _ & ->).
  pose proof (float_not_negative_int _ (float_score_not_negative input ib))
    as Hnn.
  change (r_score (result_of input ib mb)) with (score_of input ib) in *.
  unfold sort_key in Hord. simpl in Hord.
  destruct (PrimFloat.is_nan (r_score a)) eqn:Hna.
  - destruct (PrimFloat.is_nan (score_of input ib)) eqn:Hnb; [done|].
    exfalso. change (float_int neg_infinity) with (- 2 ^ 2098)%Z in Hord.
    assert (0 < 2 ^ 2098)%Z by (apply Z.pow_pos_nonneg; lia). lia.
  - destruct (PrimFloat.is_nan (score_of input ib)) eqn:Hnb; [by left|].
    right. rewrite float_leb_int by done. by apply Z.leb_le.
Qed.

End FloatRanking.

(** ** The cells of the initial and of the weighted matrix *)

Lemma matrix_entry_tabulate2 {A : Type} (nr nc : nat) (f : nat → nat → A)
    (i j : nat) :
  i < nr → j < nc → matrix_entry (tabulate2 nr nc f) i j = Some (f i j).
Proof.
  intros Hi Hj. unfold matrix_entry, tabulate2.
  rewrite lookup_tabulate by done. simpl. by apply lookup_tabulate.
Qed.

(** [entry || 0], the way the cost and the weight are read. *)
Lemma js_or_entry_or_zero {num : Type} {N : JSNumber num}
    (entry : option num) :
  js_or entry js_zero = entry_or_zero entry.
Proof.
  destruct entry as [x|]; [|done]. simpl. unfold js_truthy.
  rewrite orb_comm. by destruct (_ || _).
Qed.

Section Cells.
Context {num : Type} {N : JSNumber num}.
Variable input : TopsisInput num.
Hypothesis Hmaterials : selectedMaterialsData input ≠ [].
Hypothesis Hkeys : selectedCriteriaKeys input ≠ [].

(** C8, amended.  For a non-empty input, in every interpretation of the
    numbers, the run returns one result for each material, and: the cell of
    the initial matrix for the cost criterion ['cout'] is the cost recorded
    for the name of the material, and 0 if there is none or if it is [NaN];
    every other cell is the attribute of the material for the criterion
    key; the cell of the weighted matrix is the cell of the normalized
    matrix times the weight recorded for the key of the column, and times
    0 if there is none or if it is [NaN]. *)
Theorem cells_of_initial_and_weighted_matrix :
  ∃ results,
    runTopsisCalculation input = Some results
    ∧ length results = length (selectedMaterialsData input)
    ∧ ∀ r i j material k, r ∈ results →
      selectedMaterialsData input !! i = Some material →
      selectedCriteriaKeys input !! j = Some k →
      ∃ x n,
        matrix_entry (r_initialMatrix r) i j = Some x
        ∧ x = (if decide (k = k_cout)
               then entry_or_zero (costs input !! name material)
               else attribute material k)
        ∧ matrix_entry (r_normalizedMatrix r) i j = Some n
        ∧ matrix_entry (r_weightedMatrix r) i j
          = Some (js_mul n (entry_or_zero (weights input !! k))).
Proof.
  eexists. split; [by apply run_eq|]. split.
  { rewrite (Permutation_length (array_sort_Permutation _ _)).
    apply length_imap. }
  intros r i j material k Hr Hm Hk.
  apply sorted_results_elem in Hr as (i' & m' & _ & ->).
  assert (Hi : i < numRows input) by (eapply lookup_lt_Some; eauto).
  assert (Hj : j < numCols input) by (eapply lookup_lt_Some; eauto).
  exists (raw_value input i j), (normalized input i j).
  change (r_initialMatrix (result_of input i' m'))
    with (tabulate2 (numRows input) (numCols input) (raw_value input)).
  change (r_normalizedMatrix (result_of input i' m'))
    with (tabulate2 (numRows input) (numCols input) (normalized input)).
  change (r_weightedMatrix (result_of input i' m'))
    with (tabulate2 (numRows input) (numCols input) (weighted input)).
  rewrite !matrix_entry_tabulate2 by done.
  split; [done|]. split; [|split; [done|]].
  - unfold raw_value. rewrite Hm, Hk. case_decide; [|done].
    apply js_or_entry_or_zero.
  - unfold weighted, weight_of. rewrite Hk. simpl.
    by rewrite js_or_entry_or_zero.
Qed.

End Cells.

(** C8, as stated, fails on entries that are [NaN].  On
    [nan_entries_input] the cost recorded for the material is [NaN] and the
    cell of the initial matrix is 0; the weight recorded for [temp] is
    [NaN], and the cell of the weighted matrix is the normalized cell, 1,
    times 0, where 1 times the weight is [NaN]. *)
Lemma cell_is_not_the_entry_that_is_NaN :
  ∃ r,
    runTopsisCalculation nan_entries_input = Some [r]
    ∧ costs nan_entries_input !! "material1" = Some nan
    ∧ matrix_entry (r_initialMatrix r) 0 1 = Some 0%float
    ∧ weights nan_entries_input !! k_temp = Some nan
    ∧ matrix_entry (r_normalizedMatrix r) 0 0 = Some 1%float
    ∧ matrix_entry (r_weightedMatrix r) 0 0 = Some 0%float
    ∧ (1 * nan)%float = nan.
Proof.
  eexists. split; [vm_compute; reflexivity|]. by vm_compute.
Qed.

(** ** Scenario B (binary64 floating point) *)

(** C9.  On scenario B the engine computes the column norm 5, the
    normalized column [0.6, 0.8] and the same weighted column, the ideal
    0.8 and the anti-ideal 0.6, the score 1 for the second material and 0
    for the first, and returns the second material before the first.  The
    decimals denote the nearest binary64 numbers, as they do in
    JavaScript. *)
Theorem scenario_B_runs_as_specified :
  column_norm scenarioB 0 = 5%float
  ∧ ∃ second first,
      runTopsisCalculation scenarioB = Some [second; first]
      ∧ r_name second = "material2" ∧ r_name first = "material1"
      ∧ r_score second = 1%float ∧ r_score first = 0%float
      ∧ r_initialMatrix second = [[3%float]; [4%float]]
      ∧ r_normalizedMatrix second = [[0.6%float]; [0.8%float]]
      ∧ r_weightedMatrix second = [[0.6%float]; [0.8%float]]
      ∧ r_idealSolution second = [0.8%float]
      ∧ r_antiIdealSolution second = [0.6%float]
      ∧ r_normalizedMatrix first = r_normalizedMatrix second
      ∧ r_weightedMatrix first = r_weightedMatrix second
      ∧ r_idealSolution first = r_idealSolution second
      ∧ r_antiIdealSolution first = r_antiIdealSolution second.
Proof.
  split; [vm_compute; reflexivity|].
  eexists _, _. split; [vm_compute; reflexivity|].
  vm_compute. repeat split.
Qed.

(** ** Monotonicity in a benefit value *)

Lemma ranked_before_asym {num : Type} (results : list (TopsisFullResults num))
    (a b : string) :
  NoDup (r_name <$> results) →
  ranked_before results a b → ¬ ranked_before results b a.
Proof.
  intros Hnodup (i & j & ra & rb & Hij & Hi & Hj & Ha & Hb)
    (i' & j' & rb' & ra' & Hij' & Hi' & Hj' & Hb' & Ha').
  assert (i = j').
  { eapply (NoDup_lookup _ i j' a Hnodup);
      rewrite list_lookup_fmap; [rewrite Hi | rewrite Hj']; simpl; congruence. }
  assert (j = i').
  { eapply (NoDup_lookup _ j i' b Hnodup);
      rewrite list_lookup_fmap; [rewrite Hj | rewrite Hi']; simpl; congruence. }
  lia.
Qed.

Section Ranking.
Variable input : TopsisInput xreal.

Let results : list (TopsisFullResults xreal) :=
  array_sort compare_results (unsorted_results input).

(** A material whose sort key is strictly greater stands before. *)
Lemma ranked_before_of_key_lt (iA iB : nat) (mA mB : Material xreal) :
  selectedMaterialsData input !! iA = Some mA →
  selectedMaterialsData input !! iB = Some mB →
  xr_lt (sort_key (score_of input iB)) (sort_key (score_of input iA)) = true →
  ranked_before results (name mA) (name mB).
Proof.
  intros HA HB Hlt.
  assert (HinA : result_of input iA mA ∈ results)
    by (apply sorted_results_elem; eauto).
  assert (HinB : result_of input iB mB ∈ results)
    by (apply sorted_results_elem; eauto).
  apply list_elem_of_lookup in HinA as (pA & HpA).
  apply list_elem_of_lookup in HinB as (pB & HpB).
  exists pA, pB, (result_of input iA mA), (result_of input iB mB).
  split; [|done].
  destruct (decide (pA < pB)) as [|Hge]; [done|]. exfalso.
  destruct (decide (pA = pB)) as [->|Hne].
  - assert (Heq : result_of input iA mA = result_of input iB mB)
      by congruence.
    apply (f_equal r_score) in Heq. simpl in Heq. rewrite Heq in Hlt.
    destruct (sort_key (score_of input iB)) as [x| | |]; simpl in Hlt;
      try done.
    apply Rltb_true in Hlt. lra.
  - pose proof (StronglySorted_lookup _ _ pB pA _ _
      (compare_results_sorted (unsorted_results input))
      ltac:(lia) HpB HpA) as Hord.
    unfold in_order in Hord. rewrite sorts_after_compare_results in Hord.
    simpl in Hord. congruence.
Qed.

(** Where names identify the materials, a material that stands before
    another does not have a smaller sort key. *)
Lemma ranked_before_key_not_lt (iA iB : nat) (mA mB : Material xreal) :
  NoDup (name <$> selectedMaterialsData input) →
  selectedMaterialsData input !! iA = Some mA →
  selectedMaterialsData input !! iB = Some mB →
  ranked_before results (name mA) (name mB) →
  xr_lt (sort_key (score_of input iA)) (sort_key (score_of input iB)) = false.
Proof.
  intros Hnodup HA HB (i & j & ra & rb & Hij & Hi & Hj & Hna & Hnb).
  assert (Hid : ∀ p r i0 m0, results !! p = Some r → r_name r = name m0 →
            selectedMaterialsData input !! i0 = Some m0 →
            r_score r = score_of input i0).
  { intros p r i0 m0 Hp Hn Hm0.
    apply list_elem_of_lookup_2, sorted_results_elem in Hp
      as (i1 & m1 & Hm1 & ->). simpl in *.
    assert (i1 = i0); [|by subst].
    eapply (NoDup_lookup _ i1 i0 (name m0) Hnodup);
      rewrite list_lookup_fmap; [rewrite Hm1 | rewrite Hm0]; simpl;
      congruence. }
  pose proof (StronglySorted_lookup _ _ i j _ _
    (compare_results_sorted (unsorted_results input)) Hij Hi Hj) as Hord.
  unfold in_order in Hord. rewrite sorts_after_compare_results in Hord.
  by rewrite (Hid i ra iA mA), (Hid j rb iB mB) in Hord.
Qed.

End Ranking.

(** With a single selected criterion, of benefit type and with a positive
    weight, the score follows the raw value: a strictly greater raw value
    gives a strictly greater, numeric, score. *)
Section SingleCriterion.
Variable input : TopsisInput xreal.
Hypothesis Hnumeric : numeric_input input.
Hypothesis Hsingle : numCols input = 1.
Hypothesis Hbenefit : benefit_column input 0 = true.
Hypothesis Hweight : (0 < Rweight input 0)%R.

Lemma single_separation (v : nat → R) (i : nat) :
  Rseparation input v i = Rabs (Rweighted input i 0 - v 0).
Proof.
  unfold Rseparation. rewrite Hsingle. unfold Rsum. simpl.
  rewrite Rplus_0_l. apply sqrt_Rsqr_abs.
Qed.

Lemma Rweighted_in_column (i j : nat) :
  i < numRows input → Rweighted input i j ∈ Rcolumn input j.
Proof.
  intros Hi. apply list_elem_of_lookup. exists i.
  unfold Rcolumn. by rewrite lookup_tabulate.
Qed.

Lemma single_score_lt (iA iB : nat) :
  iA < numRows input → iB < numRows input →
  (Rraw input iA 0 < Rraw input iB 0)%R →
  ∃ sA sB, score_of input iA = Fin sA ∧ score_of input iB = Fin sB
           ∧ (sA < sB)%R.
Proof.
  intros HA HB Hlt.
  assert (Hrows : 0 < numRows input) by lia.
  pose proof (Rsum_squares_nonneg (numRows input) (λ i, Rraw input i 0))
    as Hsq. cbv beta in Hsq.
  assert (Hnorm : (0 < Rnorm input 0)%R).
  { destruct (sqrt_pos (Rsum (numRows input)
        (λ i, Rraw input i 0 * Rraw input i 0)%R)) as [Hpos|Hzero];
      [exact Hpos|]. exfalso.
    symmetry in Hzero. apply sqrt_eq_0 in Hzero; [|exact Hsq].
    assert (Hz : ∀ i, i < numRows input
                      → (Rraw input i 0 * Rraw input i 0 = 0)%R).
    { intros i Hi.
      apply (Rsum_zero (numRows input)
               (λ i, Rraw input i 0 * Rraw input i 0)%R i);
        [intros; nra | done | done]. }
    assert (Rraw input iA 0 = 0%R)
      by (destruct (Rmult_integral _ _ (Hz iA HA)); done).
    assert (Rraw input iB 0 = 0%R)
      by (destruct (Rmult_integral _ _ (Hz iB HB)); done).
    lra. }
  assert (HW : ∀ i, Rweighted input i 0
                    = (Rraw input i 0 / Rnorm input 0 * Rweight input 0)%R).
  { intros i. unfold Rweighted, Rnormalized.
    rewrite (proj2 (Reqb_false _ _)); [done | lra]. }
  assert (HWlt : (Rweighted input iA 0 < Rweighted input iB 0)%R).
  { rewrite !HW. apply Rmult_lt_compat_r; [done|].
    apply Rmult_lt_compat_r; [by apply Rinv_0_lt_compat | done]. }
  set (hi := MaxRlist (Rcolumn input 0)).
  set (lo := MinRlist (Rcolumn input 0)).
  assert (Hhi : ∀ i, i < numRows input → (Rweighted input i 0 <= hi)%R)
    by (intros; by apply MaxRlist_upper, Rweighted_in_column).
  assert (Hlo : ∀ i, i < numRows input → (lo <= Rweighted input i 0)%R)
    by (intros; by apply MinRlist_lower, Rweighted_in_column).
  assert (Hscore : ∀ i, i < numRows input →
    score_of input i = Fin ((Rweighted input i 0 - lo) / (hi - lo))).
  { intros i Hi. rewrite score_of_Rscore by done. unfold Rscore.
    rewrite !single_separation. unfold Rideal, Ranti_ideal.
    rewrite Hbenefit. fold hi lo.
    pose proof (Hhi i Hi). pose proof (Hlo i Hi).
    pose proof (Hhi iB HB). pose proof (Hlo iA HA).
    rewrite (Rabs_left1 (Rweighted input i 0 - hi)) by lra.
    rewrite (Rabs_right (Rweighted input i 0 - lo)) by lra.
    rewrite (proj2 (Reqb_false _ _)) by lra.
    do 2 f_equal. lra. }
  eexists _, _. split; [by apply Hscore|]. split; [by apply Hscore|].
  pose proof (Hhi iB HB). pose proof (Hlo iA HA).
  apply Rmult_lt_compat_r; [apply Rinv_0_lt_compat; lra | lra].
Qed.

End SingleCriterion.

Lemma raw_value_in_range {num : Type} {N : JSNumber num}
    (input : TopsisInput num) (i j : nat) :
  raw_value input i j ≠ js_nan → i < numRows input ∧ j < numCols input.
Proof.
  unfold raw_value, numRows, numCols. intros Hraw.
  destruct (selectedMaterialsData input !! i) eqn:Hi; [|done].
  destruct (selectedCriteriaKeys input !! j) eqn:Hj; [|done].
  split; eapply lookup_lt_Some; eauto.
Qed.

Lemma nonempty_of_length {A : Type} (l : list A) : 0 < length l → l ≠ [].
Proof. destruct l; simpl; [lia | done]. Qed.

(** Where exactly one criterion is selected, monotonicity holds: raising
    the value of a material on that criterion keeps the material before
    every material it stood before. *)
Lemma single_criterion_monotone :
  benefit_monotonicity (λ input, length (selectedCriteriaKeys input) = 1).
Proof.
  intros input input' iA jc w Hsingle Hnum Hnum' Hnodup Hben Hw Hwpos Hraised.
  destruct Hraised as [Hkeys Hcat Hweights Hnames (a & a' & Ha & Ha' & Haa')
                         Hothers].
  fold (numCols input) in Hsingle.
  destruct (raw_value_in_range input iA jc) as [HiA Hjc]; [by rewrite Ha|].
  assert (jc = 0) as -> by lia.
  assert (Hrows' : numRows input' = numRows input).
  { unfold numRows. apply (f_equal length) in Hnames.
    by rewrite !length_fmap in Hnames. }
  assert (Hsingle' : numCols input' = 1)
    by (unfold numCols in *; by rewrite Hkeys).
  assert (Hben' : benefit_column input' 0 = true)
    by (unfold benefit_column in *; by rewrite Hkeys, Hcat).
  assert (HRw : Rweight input 0 = w) by (unfold Rweight; by rewrite Hw).
  assert (HRw' : Rweight input' 0 = w).
  { unfold Rweight, weight_of in *. by rewrite Hkeys, Hweights, Hw. }
  exists (array_sort compare_results (unsorted_results input)),
    (array_sort compare_results (unsorted_results input')).
  split.
  { apply run_eq; apply nonempty_of_length;
      [fold (numRows input) | fold (numCols input)]; lia. }
  split.
  { apply run_eq; apply nonempty_of_length;
      [fold (numRows input') | fold (numCols input')]; lia. }
  intros iB mA mB HBA HmA HmB Hbefore.
  assert (HiB : iB < numRows input) by (eapply lookup_lt_Some; eauto).
  (* Before: B's raw value is at most A's. *)
  assert (Hle : (Rraw input iB 0 <= Rraw input iA 0)%R).
  { destruct (Rle_dec (Rraw input iB 0) (Rraw input iA 0)) as [|Hgt];
      [done|]. exfalso.
    destruct (single_score_lt input Hnum Hsingle Hben ltac:(lra) iA iB)
      as (sA & sB & HsA & HsB & Hlt); [done | done | lra |].
    pose proof (ranked_before_key_not_lt input iA iB mA mB
                  Hnodup HmA HmB Hbefore) as Hkey.
    rewrite HsA, HsB in Hkey. simpl in Hkey.
    apply Rltb_false in Hkey. lra. }
  (* After: A's raw value is strictly greater than B's. *)
  assert (HA' : Rraw input' iA 0 = a') by (unfold Rraw; by rewrite Ha').
  assert (HA0 : Rraw input iA 0 = a) by (unfold Rraw; by rewrite Ha).
  assert (HB' : Rraw input' iB 0 = Rraw input iB 0).
  { unfold Rraw. rewrite Hothers; [done | by left]. }
  destruct (single_score_lt input' Hnum' Hsingle' Hben' ltac:(lra) iB iA)
    as (sB & sA & HsB & HsA & Hlt); [lia | lia | lra |].
  destruct (lookup_lt_is_Some_2 (selectedMaterialsData input') iA)
    as [mA' HmA']; [fold (numRows input'); lia|].
  destruct (lookup_lt_is_Some_2 (selectedMaterialsData input') iB)
    as [mB' HmB']; [fold (numRows input'); lia|].
  assert (HnA : name mA' = name mA).
  { apply (f_equal (λ l, l !! iA)) in Hnames.
    rewrite !list_lookup_fmap, HmA, HmA' in Hnames. by injection Hnames. }
  assert (HnB : name mB' = name mB).
  { apply (f_equal (λ l, l !! iB)) in Hnames.
    rewrite !list_lookup_fmap, HmB, HmB' in Hnames. by injection Hnames. }
  rewrite <- HnA, <- HnB.
  apply (ranked_before_of_key_lt input' iA iB mA' mB' HmA' HmB').
  rewrite HsA, HsB. simpl. by apply Rltb_true.
Qed.

(** *** Two materials *)

Lemma sq_le_le (x y : R) :
  (0 <= x)%R → (0 <= y)%R → (x * x <= y * y)%R → (x <= y)%R.
Proof. intros. nra. Qed.

(** For [a < a'] and nothing negative, [(a - b) / |(a, b)|] is at most
    [(a' - b) / |(a', b)|], here with the norms multiplied out. *)
Lemma cross_monotone (a a' b n n' : R) :
  (0 <= a)%R → (a < a')%R → (0 <= b)%R → (0 < n)%R → (0 < n')%R →
  (n * n = a * a + b * b)%R → (n' * n' = a' * a' + b * b)%R →
  ((a - b) * n' <= (a' - b) * n)%R.
Proof.
  intros Ha Haa Hb Hn Hn' Hsq Hsq'.
  destruct (Rle_dec b a) as [Hba|Hba].
  - apply sq_le_le; [apply Rmult_le_pos; lra..|].
    replace ((a - b) * n' * ((a - b) * n'))%R
      with ((a - b) * (a - b) * (n' * n'))%R by ring.
    replace ((a' - b) * n * ((a' - b) * n))%R
      with ((a' - b) * (a' - b) * (n * n))%R by ring.
    rewrite Hsq, Hsq'.
    assert (H : ((a' - b) * (a' - b) * (a * a + b * b)
                 - (a - b) * (a - b) * (a' * a' + b * b)
                 = 2 * b * (a' - a) * (a * a' - b * b))%R) by ring.
    assert (0 <= 2 * b * (a' - a) * (a * a' - b * b))%R.
    { apply Rmult_le_pos; [apply Rmult_le_pos; lra|]. nra. }
    lra.
  - destruct (Rle_dec b a') as [Hba'|Hba'].
    + assert ((a - b) * n' <= 0)%R by nra.
      assert (0 <= (a' - b) * n)%R by (apply Rmult_le_pos; lra).
      lra.
    + assert (Hgoal : ((b - a') * n <= (b - a) * n')%R); [|lra].
      apply sq_le_le; [apply Rmult_le_pos; lra..|].
      replace ((b - a') * n * ((b - a') * n))%R
        with ((b - a') * (b - a') * (n * n))%R by ring.
      replace ((b - a) * n' * ((b - a) * n'))%R
        with ((b - a) * (b - a) * (n' * n'))%R by ring.
      rewrite Hsq, Hsq'.
      assert (H : ((b - a) * (b - a) * (a' * a' + b * b)
                   - (b - a') * (b - a') * (a * a + b * b)
                   = 2 * b * (a' - a) * (b * b - a * a'))%R) by ring.
      assert (0 <= 2 * b * (a' - a) * (b * b - a * a'))%R.
      { apply Rmult_le_pos; [apply Rmult_le_pos; lra|]. nra. }
      lra.
Qed.

Lemma Rsum_le (n : nat) (f g : nat → R) :
  (∀ i, i < n → (f i <= g i)%R) → (Rsum n f <= Rsum n g)%R.
Proof.
  intros Hfg. induction n as [|n IH]; [unfold Rsum; simpl; lra|].
  rewrite !Rsum_S. pose proof (Hfg n (Nat.lt_succ_diag_r n)).
  assert (Rsum n f <= Rsum n g)%R by (apply IH; intros; apply Hfg; lia).
  lra.
Qed.

Lemma Rsum_minus (n : nat) (f g : nat → R) :
  Rsum n (λ i, f i - g i)%R = (Rsum n f - Rsum n g)%R.
Proof.
  induction n as [|n IH]; [unfold Rsum; simpl; lra|].
  rewrite !Rsum_S, IH. lra.
Qed.

Section TwoMaterials.
Variable input : TopsisInput xreal.
Hypothesis Hnumeric : numeric_input input.
Hypothesis Htwo : numRows input = 2.
Variables iA iB : nat.
Hypothesis HA : iA < 2.
Hypothesis HB : iB < 2.
Hypothesis HAB : iA ≠ iB.

Lemma two_column (j : nat) :
  Rcolumn input j = [Rweighted input 0 j; Rweighted input 1 j].
Proof. unfold Rcolumn. by rewrite Htwo. Qed.

(** In each column the ideal and the anti-ideal entry are the entries of
    the two rows, one each. *)
Lemma two_extremes (j : nat) :
  (Rideal input j = Rweighted input iA j
   ∧ Ranti_ideal input j = Rweighted input iB j)
  ∨ (Rideal input j = Rweighted input iB j
     ∧ Ranti_ideal input j = Rweighted input iA j).
Proof.
  unfold Rideal, Ranti_ideal. rewrite two_column. simpl.
  assert (Hcases : (iA = 0 ∧ iB = 1) ∨ (iA = 1 ∧ iB = 0)) by lia.
  unfold Rmax, Rmin.
  destruct Hcases as [[-> ->]|[-> ->]], (benefit_column input j),
    (Rle_dec (Rweighted input 0 j) (Rweighted input 1 j)); auto.
Qed.

(** So each row is as far from the ideal as the other is from the
    anti-ideal. *)
Lemma two_swap :
  Rsq_separation input (Rideal input) iB
  = Rsq_separation input (Ranti_ideal input) iA
  ∧ Rsq_separation input (Ranti_ideal input) iB
    = Rsq_separation input (Rideal input) iA.
Proof.
  split; apply Rsum_ext; intros j _;
    destruct (two_extremes j) as [[-> ->]|[-> ->]]; ring.
Qed.

Lemma Rsq_separation_nonneg (v : nat → R) (i : nat) :
  (0 <= Rsq_separation input v i)%R.
Proof.
  unfold Rsq_separation. apply Rsum_nonneg. intros j _.
  apply (Rle_0_sqr (Rweighted input i j - v j)).
Qed.

(** B's sort key exceeds A's exactly when A is nearer to the anti-ideal
    than to the ideal solution. *)
Lemma two_keys :
  xr_lt (sort_key (score_of input iA)) (sort_key (score_of input iB))
  = Rltb (Rsq_separation input (Ranti_ideal input) iA)
         (Rsq_separation input (Rideal input) iA).
Proof.
  rewrite !(score_of_Rscore input Hnumeric) by lia.
  unfold Rscore. change (Rseparation input ?v ?i)
    with (sqrt (Rsq_separation input v i)).
  destruct two_swap as [-> ->].
  set (P := Rsq_separation input (Rideal input) iA).
  set (Q := Rsq_separation input (Ranti_ideal input) iA).
  assert (HP : (0 <= P)%R) by apply Rsq_separation_nonneg.
  assert (HQ : (0 <= Q)%R) by apply Rsq_separation_nonneg.
  pose proof (sqrt_pos P). pose proof (sqrt_pos Q).
  destruct (Req_dec_T (sqrt P + sqrt Q) 0) as [Hz|Hnz].
  - rewrite !(proj2 (Reqb_true _ 0)) by lra. simpl.
    assert (sqrt P = 0%R) by lra. assert (sqrt Q = 0%R) by lra.
    assert (P = 0%R) by by apply sqrt_eq_0.
    assert (Q = 0%R) by by apply sqrt_eq_0.
    symmetry. apply Rltb_false. lra.
  - rewrite !(proj2 (Reqb_false _ 0)) by lra. simpl.
    assert (Hd : (0 < / (sqrt P + sqrt Q))%R)
      by (apply Rinv_0_lt_compat; lra).
    replace (sqrt Q + sqrt P)%R with (sqrt P + sqrt Q)%R by lra.
    unfold Rdiv, Rltb.
    destruct (Rlt_dec (sqrt Q * / (sqrt P + sqrt Q))
                (sqrt P * / (sqrt P + sqrt Q))) as [Hlt|Hge],
      (Rlt_dec Q P) as [HQP|HQP]; try done.
    + exfalso. apply Rmult_lt_reg_r in Hlt; [|done].
      apply HQP. by apply sqrt_lt_0_alt.
    + exfalso. apply Hge. apply Rmult_lt_compat_r; [done|].
      by apply sqrt_lt_1.
Qed.

End TwoMaterials.

Lemma ranked_before_pair {num : Type} (x y : TopsisFullResults num)
    (a b : string) :
  ranked_before [x; y] a b ↔ r_name x = a ∧ r_name y = b.
Proof.
  split.
  - intros (i & j & ra & rb & Hij & Hi & Hj & Ha & Hb).
    destruct i as [|i], j as [|[|j]]; simpl in *; try lia; try done.
    split; congruence.
  - intros [<- <-]. exists 0, 1, x, y. repeat split. lia.
Qed.

(** With two materials the results are the two result objects, exchanged
    when the comparator puts the first after the second. *)
Lemma two_results (input : TopsisInput xreal) (m0 m1 : Material xreal) :
  selectedMaterialsData input = [m0; m1] →
  array_sort compare_results (unsorted_results input)
  = if xr_lt (sort_key (score_of input 0)) (sort_key (score_of input 1))
    then [result_of input 1 m1; result_of input 0 m0]
    else [result_of input 0 m0; result_of input 1 m1].
Proof.
  intros Hm. unfold unsorted_results. rewrite Hm.
  change (array_sort compare_results
            (imap (result_of input) [m0; m1]))
    with (if sorts_after compare_results (result_of input 0 m0)
               (result_of input 1 m1)
          then [result_of input 1 m1; result_of input 0 m0]
          else [result_of input 0 m0; result_of input 1 m1]).
  by rewrite sorts_after_compare_results.
Qed.

(** So, of two materials, A stands before B when A comes first in the
    input and its key is not the smaller one, or comes second and its key
    is the greater one. *)
Lemma two_ranked_before (input : TopsisInput xreal) (iA iB : nat)
    (mA mB : Material xreal) :
  numRows input = 2 →
  NoDup (name <$> selectedMaterialsData input) →
  iA ≠ iB →
  selectedMaterialsData input !! iA = Some mA →
  selectedMaterialsData input !! iB = Some mB →
  ranked_before (array_sort compare_results (unsorted_results input))
    (name mA) (name mB)
  ↔ (iA < iB
     ∧ xr_lt (sort_key (score_of input iA)) (sort_key (score_of input iB))
       = false)
    ∨ (iB < iA
       ∧ xr_lt (sort_key (score_of input iB)) (sort_key (score_of input iA))
         = true).
Proof.
  unfold numRows. intros Htwo Hnodup HAB HmA HmB.
  destruct (selectedMaterialsData input) as [|m0 [|m1 [|m2 ms]]] eqn:Hm;
    try done.
  assert (Hnames : name m0 ≠ name m1).
  { simpl in Hnodup. apply NoDup_cons in Hnodup as [Hnotin _].
    intros Heq. apply Hnotin. rewrite Heq. left. }
  rewrite (two_results input m0 m1 Hm).
  destruct iA as [|[|iA]], iB as [|[|iB]]; simpl in HmA, HmB; try done;
    injection HmA as <-; injection HmB as <-;
    destruct (xr_lt (sort_key (score_of input 0))
                (sort_key (score_of input 1)));
    rewrite ranked_before_pair; simpl; split;
    try (intros [? ?]; congruence);
    try (intros [[? ?]|[? ?]]; (lia || congruence));
    intros _; (done || (left; split; [lia | done])
               || (right; split; [lia | done])).
Qed.

Lemma nonnegative_Rraw (input : TopsisInput xreal) (i j : nat) :
  nonnegative_values input → (0 <= Rraw input i j)%R.
Proof.
  intros Hnonneg. unfold Rraw.
  destruct (raw_value input i j) as [x| | |] eqn:Hx; simpl; try lra.
  by eapply Hnonneg.
Qed.

(** Two materials A and B, and the value of A raised in the benefit column
    [jc]: the other columns of the weighted matrix stay as they are, and in
    column [jc] the lead of A over B does not shrink. *)
Section TwoMaterialsRaised.
Variables input input' : TopsisInput xreal.
Variables iA iB jc : nat.
Variable w : R.
Hypothesis Htwo : numRows input = 2.
Hypothesis Hnonneg : nonnegative_values input.
Hypothesis Hbenefit : benefit_column input jc = true.
Hypothesis Hweight : weight_of input jc = Fin w.
Hypothesis Hw : (0 < w)%R.
Hypothesis Hraised : benefit_value_raised input input' iA jc.
Hypothesis HA : iA < 2.
Hypothesis HB : iB < 2.
Hypothesis HAB : iA ≠ iB.

Lemma raised_numRows : numRows input' = numRows input.
Proof.
  unfold numRows. destruct Hraised as [_ _ _ Hnames _ _].
  apply (f_equal length) in Hnames. by rewrite !length_fmap in Hnames.
Qed.

Lemma raised_numCols : numCols input' = numCols input.
Proof. unfold numCols. by destruct Hraised as [-> _ _ _ _ _]. Qed.

Lemma raised_Rweight (j : nat) : Rweight input' j = Rweight input j.
Proof.
  unfold Rweight, weight_of. by destruct Hraised as [-> _ -> _ _ _].
Qed.

Lemma raised_benefit (j : nat) :
  benefit_column input' j = benefit_column input j.
Proof.
  unfold benefit_column. by destruct Hraised as [-> -> _ _ _ _].
Qed.

Lemma raised_Rraw (i j : nat) :
  i ≠ iA ∨ j ≠ jc → Rraw input' i j = Rraw input i j.
Proof.
  intros Hij. unfold Rraw. by rewrite (raised_other_cells _ _ _ _ Hraised).
Qed.

Lemma raised_Rweighted (i j : nat) :
  j ≠ jc → Rweighted input' i j = Rweighted input i j.
Proof.
  intros Hj. unfold Rweighted, Rnormalized, Rnorm.
  rewrite raised_Rweight, raised_numRows, raised_Rraw by by right.
  rewrite (Rsum_ext (numRows input)
             (λ i0, Rraw input' i0 j * Rraw input' i0 j)%R
             (λ i0, Rraw input i0 j * Rraw input i0 j)%R); [done|].
  intros i0 _. by rewrite raised_Rraw by by right.
Qed.

(** The norm of a column of two entries. *)
Lemma two_Rnorm (inp : TopsisInput xreal) (j : nat) :
  numRows inp = 2 →
  (0 <= Rnorm inp j)%R
  ∧ (Rnorm inp j * Rnorm inp j
     = Rraw inp iA j * Rraw inp iA j + Rraw inp iB j * Rraw inp iB j)%R.
Proof.
  intros Hrows. unfold Rnorm. split; [apply sqrt_pos|].
  rewrite sqrt_sqrt by apply Rsum_squares_nonneg.
  rewrite Hrows. unfold Rsum. simpl.
  assert (Hcases : (iA = 0 ∧ iB = 1) ∨ (iA = 1 ∧ iB = 0)) by lia.
  destruct Hcases as [[-> ->]|[-> ->]]; lra.
Qed.

(** In the column of the raised value, the weighted value of A exceeds
    that of B by at least as much as before. *)
Lemma raised_difference :
  (Rweighted input iA jc - Rweighted input iB jc
   <= Rweighted input' iA jc - Rweighted input' iB jc)%R.
Proof.
  destruct Hraised as [_ _ _ _ (a & a' & Ha & Ha' & Haa') _].
  assert (HRa : Rraw input iA jc = a) by (unfold Rraw; by rewrite Ha).
  assert (HRa' : Rraw input' iA jc = a') by (unfold Rraw; by rewrite Ha').
  assert (HRb : Rraw input' iB jc = Rraw input iB jc)
    by (apply raised_Rraw; left; lia).
  pose proof (nonnegative_Rraw input iA jc Hnonneg) as Hapos.
  pose proof (nonnegative_Rraw input iB jc Hnonneg) as Hbpos.
  destruct (two_Rnorm input jc Htwo) as [Hn Hsq].
  destruct (two_Rnorm input' jc) as [Hn' Hsq'];
    [by rewrite raised_numRows|].
  rewrite HRa in *. rewrite HRa', HRb in *.
  set (b := Rraw input iB jc) in *.
  assert (HRw : Rweight input jc = w) by (unfold Rweight; by rewrite Hweight).
  unfold Rweighted, Rnormalized.
  rewrite raised_Rweight, HRw, HRa, HRa', HRb. fold b.
  set (n := Rnorm input jc) in *. set (n' := Rnorm input' jc) in *.
  assert (Hn'pos : (0 < n')%R) by nra.
  rewrite (proj2 (Reqb_false n' 0)) by lra.
  destruct (Req_dec_T n 0) as [Hz|Hnz].
  - rewrite (proj2 (Reqb_true n 0)) by done.
    assert (Hb0 : b = 0%R) by nra.
    assert (0 < / n')%R by by apply Rinv_0_lt_compat.
    assert (0 <= a' * / n' * w)%R by (repeat apply Rmult_le_pos; lra).
    rewrite Hb0. unfold Rdiv. lra.
  - rewrite (proj2 (Reqb_false n 0)) by done.
    assert (Hnpos : (0 < n)%R) by lra.
    pose proof (cross_monotone a a' b n n' Hapos Haa' Hbpos Hnpos Hn'pos
                  Hsq Hsq') as Hcross.
    assert (Hin : (0 < / n)%R) by by apply Rinv_0_lt_compat.
    assert (Hin' : (0 < / n')%R) by by apply Rinv_0_lt_compat.
    assert (Hd : ((a - b) / n <= (a' - b) / n')%R).
    { replace ((a - b) / n)%R with ((a - b) * n' * (/ n * / n'))%R
        by (field; lra).
      replace ((a' - b) / n')%R with ((a' - b) * n * (/ n * / n'))%R
        by (field; lra).
      apply Rmult_le_compat_r; [|done].
      apply Rlt_le, Rmult_lt_0_compat; done. }
    unfold Rdiv in *. nra.
Qed.

(** Column by column, A's squared distance to the anti-ideal entry less
    its squared distance to the ideal entry does not decrease. *)
Lemma raised_term (j : nat) :
  ((Rweighted input iA j - Ranti_ideal input j)
     * (Rweighted input iA j - Ranti_ideal input j)
   - (Rweighted input iA j - Rideal input j)
     * (Rweighted input iA j - Rideal input j)
   <= (Rweighted input' iA j - Ranti_ideal input' j)
        * (Rweighted input' iA j - Ranti_ideal input' j)
      - (Rweighted input' iA j - Rideal input' j)
        * (Rweighted input' iA j - Rideal input' j))%R.
Proof.
  unfold Rideal, Ranti_ideal, Rcolumn.
  rewrite raised_benefit, raised_numRows, Htwo. simpl.
  destruct (decide (j = jc)) as [->|Hj].
  - rewrite Hbenefit. pose proof raised_difference as Hd.
    assert (Hcases : (iA = 0 ∧ iB = 1) ∨ (iA = 1 ∧ iB = 0)) by lia.
    unfold Rmax, Rmin.
    destruct Hcases as [[-> ->]|[-> ->]];
      destruct (Rle_dec (Rweighted input 0 jc) (Rweighted input 1 jc)),
        (Rle_dec (Rweighted input' 0 jc) (Rweighted input' 1 jc)); nra.
  - rewrite !raised_Rweighted by done. lra.
Qed.

Lemma raised_gap :
  (Rsq_separation input (Ranti_ideal input) iA
   - Rsq_separation input (Rideal input) iA
   <= Rsq_separation input' (Ranti_ideal input') iA
      - Rsq_separation input' (Rideal input') iA)%R.
Proof.
  unfold Rsq_separation. rewrite <- !Rsum_minus, raised_numCols.
  apply Rsum_le. intros j _. apply raised_term.
Qed.

End TwoMaterialsRaised.

(** With at most two materials and no negative raw value, monotonicity
    holds whatever the number of criteria. *)
Lemma two_materials_monotone :
  benefit_monotonicity
    (λ input, length (selectedMaterialsData input) ≤ 2
              ∧ nonnegative_values input).
Proof.
  intros input input' iA jc w [Hle Hnonneg] Hnum Hnum' Hnodup Hben Hw Hwpos
    Hraised.
  pose proof (raised_numRows input input' iA jc Hraised) as Hrows'.
  pose proof (raised_numCols input input' iA jc Hraised) as Hcols'.
  pose proof (raised_names _ _ _ _ Hraised) as Hnames.
  destruct (raised_cell _ _ _ _ Hraised) as (a & a' & Ha & _).
  destruct (raw_value_in_range input iA jc) as [HiA Hjc]; [by rewrite Ha|].
  exists (array_sort compare_results (unsorted_results input)),
    (array_sort compare_results (unsorted_results input')).
  split.
  { apply run_eq; apply nonempty_of_length;
      [fold (numRows input) | fold (numCols input)]; lia. }
  split.
  { apply run_eq; apply nonempty_of_length;
      [fold (numRows input') | fold (numCols input')]; lia. }
  intros iB mA mB HBA HmA HmB Hbefore.
  assert (HiB : iB < numRows input) by (eapply lookup_lt_Some; eauto).
  fold (numRows input) in Hle.
  assert (Htwo : numRows input = 2) by lia.
  assert (Htwo' : numRows input' = 2) by lia.
  assert (HA : iA < 2) by lia. assert (HB : iB < 2) by lia.
  assert (HAB : iA ≠ iB) by lia.
  destruct (lookup_lt_is_Some_2 (selectedMaterialsData input') iA)
    as [mA' HmA']; [fold (numRows input'); lia|].
  destruct (lookup_lt_is_Some_2 (selectedMaterialsData input') iB)
    as [mB' HmB']; [fold (numRows input'); lia|].
  assert (HnA : name mA' = name mA).
  { apply (f_equal (λ l, l !! iA)) in Hnames.
    rewrite !list_lookup_fmap, HmA, HmA' in Hnames. by injection Hnames. }
  assert (HnB : name mB' = name mB).
  { apply (f_equal (λ l, l !! iB)) in Hnames.
    rewrite !list_lookup_fmap, HmB, HmB' in Hnames. by injection Hnames. }
  rewrite <- HnA, <- HnB.
  apply (two_ranked_before input iA iB mA mB Htwo Hnodup HAB HmA HmB)
    in Hbefore.
  apply (two_ranked_before input' iA iB mA' mB' Htwo');
    [by rewrite Hnames | done..|].
  pose proof (raised_gap input input' iA iB jc w Htwo Hnonneg Hben Hw Hwpos
                Hraised HA HB HAB) as Hgap.
  rewrite (two_keys input Hnum Htwo iA iB HA HB HAB),
    (two_keys input Hnum Htwo iB iA HB HA) in Hbefore by done.
  rewrite (two_keys input' Hnum' Htwo' iA iB HA HB HAB),
    (two_keys input' Hnum' Htwo' iB iA HB HA) by done.
  destruct (two_swap input Htwo iA iB HA HB HAB) as [Hs1 Hs2].
  destruct (two_swap input' Htwo' iA iB HA HB HAB) as [Hs1' Hs2'].
  rewrite Hs1, Hs2 in Hbefore. rewrite Hs1', Hs2'.
  rewrite Rltb_false, Rltb_true in *.
  destruct Hbefore as [[? ?]|[? ?]]; [left | right]; split; (done || lra).
Qed.

(** C5, amended.  In exact arithmetic, where exactly one criterion is
    selected, or at most two materials are and no raw value is negative,
    monotonicity holds: raising the value of a material on a criterion of
    benefit type and positive weight, every other cell, the criteria and
    the weights staying as they are, keeps the material before every
    material it stood before.  Binary64 does not keep even this: with B
    ([temp] 1) listed before A and the one criterion [temp], raising the
    [temp] of A from 2 to 1e200 makes the sum of the squares overflow and
    every score [NaN], and moves A from before B to behind B. *)
Theorem monotone_in_exact_arithmetic :
  benefit_monotonicity one_criterion_or_two_materials
  ∧ ranking (runTopsisCalculation (raised_input_float 2))
    = Some ["A"; "B"]
  ∧ ranking (runTopsisCalculation (raised_input_float 1e200))
    = Some ["B"; "A"].
Proof.
  split; [|split; vm_compute; reflexivity].
  intros input input' iA jc w [Hone|Htwo].
  - by apply single_criterion_monotone.
  - by apply two_materials_monotone.
Qed.

(** *** A rank reversal *)

(** Scores compared through the squared distances. *)
Lemma closeness_lt_of_squares (Sp Sm Sp' Sm' : R) :
  (0 <= Sp)%R → (0 <= Sm)%R → (0 <= Sp')%R → (0 <= Sm')%R →
  (Sm * Sp' < Sm' * Sp)%R →
  (0 < sqrt Sp + sqrt Sm)%R ∧ (0 < sqrt Sp' + sqrt Sm')%R
  ∧ (sqrt Sm / (sqrt Sp + sqrt Sm) < sqrt Sm' / (sqrt Sp' + sqrt Sm'))%R.
Proof.
  intros Hp Hm Hp' Hm' Hlt.
  assert (Hprod : (sqrt Sm * sqrt Sp' < sqrt Sm' * sqrt Sp)%R).
  { rewrite <- !sqrt_mult by done. apply sqrt_lt_1; [nra | nra | done]. }
  pose proof (sqrt_pos Sp). pose proof (sqrt_pos Sm).
  pose proof (sqrt_pos Sp'). pose proof (sqrt_pos Sm').
  assert (0 < sqrt Sm' * sqrt Sp)%R by nra.
  assert (0 < sqrt Sm')%R by nra. assert (0 < sqrt Sp)%R by nra.
  assert (Hden : (0 < sqrt Sp + sqrt Sm)%R) by lra.
  assert (Hden' : (0 < sqrt Sp' + sqrt Sm')%R) by lra.
  split; [done|]. split; [done|].
  apply (Rmult_lt_reg_r (sqrt Sp + sqrt Sm)); [done|].
  apply (Rmult_lt_reg_r (sqrt Sp' + sqrt Sm')); [done|].
  field_simplify; [|lra|lra]. nra.
Qed.

Lemma js_or_Fin_nonzero (c : R) :
  c ≠ 0%R → js_or (Some (Fin c)) (Fin 0) = Fin c.
Proof.
  intros Hc. unfold js_or, js_truthy. simpl.
  by rewrite (proj2 (Reqb_false c 0) Hc).
Qed.

Section RankReversal.
Variable a : R.
Hypothesis Ha : (2 <= a <= 3)%R.
Let inp := rank_reversal_input a.
Let n1 := sqrt (a * a + 9).
Let n2 := sqrt 113.

Lemma rr_numeric : numeric_input inp.
Proof.
  split; [|split].
  - repeat constructor; intros []; done.
  - apply map_Forall_empty.
  - unfold inp, rank_reversal_input. simpl.
    apply map_Forall_insert_2; [done|]. by apply map_Forall_singleton.
Qed.

Lemma rr_weight0 : Rweight inp 0 = (1 / 8)%R.
Proof.
  unfold Rweight, weight_of. simpl.
  by rewrite lookup_insert_eq, js_or_Fin_nonzero by lra.
Qed.

Lemma rr_weight1 : Rweight inp 1 = (7 / 8)%R.
Proof.
  unfold Rweight, weight_of. simpl.
  by rewrite lookup_insert_ne, lookup_singleton_eq, js_or_Fin_nonzero
    by (done || lra).
Qed.

Lemma rr_n1 : (0 < n1)%R ∧ (n1 * n1 = a * a + 9)%R.
Proof.
  split; [apply sqrt_lt_R0; nra | apply sqrt_def; nra].
Qed.

Lemma rr_n2 : (0 < n2)%R ∧ (n2 * n2 = 113)%R.
Proof.
  split; [apply sqrt_lt_R0; lra | apply sqrt_def; lra].
Qed.

Lemma rr_norm0 : Rnorm inp 0 = n1.
Proof.
  unfold Rnorm, n1. f_equal. unfold Rsum. simpl.
  change (Rraw inp 0 0) with a. change (Rraw inp 1 0) with 0%R.
  change (Rraw inp 2 0) with 3%R. ring.
Qed.

Lemma rr_norm1 : Rnorm inp 1 = n2.
Proof.
  unfold Rnorm, n2. f_equal. unfold Rsum. simpl.
  change (Rraw inp 0 1) with 7%R. change (Rraw inp 1 1) with 8%R.
  change (Rraw inp 2 1) with 0%R. ring.
Qed.

Lemma rr_weighted0 (i : nat) :
  Rweighted inp i 0 = (Rraw inp i 0 / n1 * (1 / 8))%R.
Proof.
  unfold Rweighted, Rnormalized. rewrite rr_norm0, rr_weight0.
  destruct rr_n1. by rewrite (proj2 (Reqb_false n1 0)) by lra.
Qed.

Lemma rr_weighted1 (i : nat) :
  Rweighted inp i 1 = (Rraw inp i 1 / n2 * (7 / 8))%R.
Proof.
  unfold Rweighted, Rnormalized. rewrite rr_norm1, rr_weight1.
  destruct rr_n2. by rewrite (proj2 (Reqb_false n2 0)) by lra.
Qed.

Lemma rr_benefit (j : nat) : j < 2 → benefit_column inp j = true.
Proof.
  intros Hj. destruct j as [|[|j]]; [vm_compute; reflexivity..|lia].
Qed.

Lemma rr_column0 :
  Rcolumn inp 0 = [(a / n1 * (1 / 8))%R; (0 / n1 * (1 / 8))%R;
                   (3 / n1 * (1 / 8))%R].
Proof.
  unfold Rcolumn, tabulate. simpl. by rewrite !rr_weighted0.
Qed.

Lemma rr_column1 :
  Rcolumn inp 1 = [(7 / n2 * (7 / 8))%R; (8 / n2 * (7 / 8))%R;
                   (0 / n2 * (7 / 8))%R].
Proof.
  unfold Rcolumn, tabulate. simpl. by rewrite !rr_weighted1.
Qed.

Lemma rr_inv_n1 : (0 < / n1)%R.
Proof. apply Rinv_0_lt_compat, rr_n1. Qed.

Lemma rr_inv_n2 : (0 < / n2)%R.
Proof. apply Rinv_0_lt_compat, rr_n2. Qed.

Lemma rr_ideal0 : Rideal inp 0 = (3 / n1 * (1 / 8))%R.
Proof.
  unfold Rideal. rewrite rr_benefit, rr_column0 by lia.
  pose proof rr_inv_n1. simpl. unfold Rdiv.
  rewrite (Rmax_right (0 * / n1 * (1 * / 8))) by nra.
  apply Rmax_right. nra.
Qed.

Lemma rr_anti0 : Ranti_ideal inp 0 = 0%R.
Proof.
  unfold Ranti_ideal. rewrite rr_benefit, rr_column0 by lia.
  pose proof rr_inv_n1. simpl. unfold Rdiv.
  rewrite (Rmin_left (0 * / n1 * (1 * / 8))) by nra.
  rewrite Rmin_right by nra. ring.
Qed.

Lemma rr_ideal1 : Rideal inp 1 = (8 / n2 * (7 / 8))%R.
Proof.
  unfold Rideal. rewrite rr_benefit, rr_column1 by lia.
  pose proof rr_inv_n2. simpl. unfold Rdiv.
  rewrite (Rmax_left (8 * / n2 * (7 * / 8))) by nra.
  apply Rmax_right. nra.
Qed.

Lemma rr_anti1 : Ranti_ideal inp 1 = 0%R.
Proof.
  unfold Ranti_ideal. rewrite rr_benefit, rr_column1 by lia.
  pose proof rr_inv_n2. simpl. unfold Rdiv.
  rewrite (Rmin_right (8 * / n2 * (7 * / 8))) by nra.
  rewrite Rmin_right by nra. ring.
Qed.

Lemma rr_separation (v : nat → R) (i : nat) :
  Rseparation inp v i
  = sqrt ((Rweighted inp i 0 - v 0) * (Rweighted inp i 0 - v 0)
          + (Rweighted inp i 1 - v 1) * (Rweighted inp i 1 - v 1)).
Proof.
  unfold Rseparation. f_equal. unfold Rsum. simpl. ring.
Qed.

Lemma rr_separations :
  Rseparation inp (Rideal inp) 0 = sqrt (rr_A_plus a)
  ∧ Rseparation inp (Ranti_ideal inp) 0 = sqrt (rr_A_minus a)
  ∧ Rseparation inp (Rideal inp) 1 = sqrt (rr_B_plus a)
  ∧ Rseparation inp (Ranti_ideal inp) 1 = sqrt rr_B_minus.
Proof.
  destruct rr_n1 as [Hn1 Hsq1], rr_n2 as [Hn2 Hsq2].
  rewrite !rr_separation, !rr_weighted0, !rr_weighted1.
  rewrite rr_ideal0, rr_ideal1, rr_anti0, rr_anti1.
  change (Rraw inp 0 0) with a. change (Rraw inp 1 0) with 0%R.
  change (Rraw inp 0 1) with 7%R. change (Rraw inp 1 1) with 8%R.
  unfold rr_A_plus, rr_A_minus, rr_B_plus, rr_B_minus.
  rewrite <- Hsq1, <- Hsq2.
  repeat split; f_equal; field; lra.
Qed.

Lemma rr_squares_nonneg :
  (0 <= rr_A_plus a)%R ∧ (0 <= rr_A_minus a)%R ∧ (0 <= rr_B_plus a)%R
  ∧ (0 <= rr_B_minus)%R.
Proof.
  assert (0 < / (a * a + 9))%R by (apply Rinv_0_lt_compat; nra).
  unfold rr_A_plus, rr_A_minus, rr_B_plus, rr_B_minus, Rdiv.
  repeat split; try lra.
  - apply Rplus_le_le_0_compat; [|lra].
    apply Rmult_le_pos; [apply Rmult_le_pos; [nra | lra] | lra].
  - apply Rplus_le_le_0_compat; [|lra].
    apply Rmult_le_pos; [apply Rmult_le_pos; [nra | lra] | lra].
Qed.

(** Who scores higher is read off the squared distances. *)
Lemma rr_A_above_B :
  (rr_B_minus * rr_A_plus a < rr_A_minus a * rr_B_plus a)%R →
  xr_lt (sort_key (score_of inp 1)) (sort_key (score_of inp 0)) = true.
Proof.
  intros Hlt.
  destruct rr_squares_nonneg as (? & ? & ? & ?).
  destruct rr_separations as (HAp & HAm & HBp & HBm).
  destruct (closeness_lt_of_squares (rr_B_plus a) rr_B_minus
              (rr_A_plus a) (rr_A_minus a)) as (HdB & HdA & Hscore);
    [done..|].
  rewrite !(score_of_Rscore inp rr_numeric) by (unfold numRows; simpl; lia).
  unfold Rscore. rewrite HAp, HAm, HBp, HBm.
  rewrite !(proj2 (Reqb_false _ 0)) by lra. simpl.
  by apply Rltb_true.
Qed.

Lemma rr_B_above_A :
  (rr_A_minus a * rr_B_plus a < rr_B_minus * rr_A_plus a)%R →
  xr_lt (sort_key (score_of inp 0)) (sort_key (score_of inp 1)) = true.
Proof.
  intros Hlt.
  destruct rr_squares_nonneg as (? & ? & ? & ?).
  destruct rr_separations as (HAp & HAm & HBp & HBm).
  destruct (closeness_lt_of_squares (rr_A_plus a) (rr_A_minus a)
              (rr_B_plus a) rr_B_minus) as (HdA & HdB & Hscore);
    [done..|].
  rewrite !(score_of_Rscore inp rr_numeric) by (unfold numRows; simpl; lia).
  unfold Rscore. rewrite HAp, HAm, HBp, HBm.
  rewrite !(proj2 (Reqb_false _ 0)) by lra. simpl.
  by apply Rltb_true.
Qed.

End RankReversal.

(** With [temp] 2, A stands before B; with [temp] raised to 3, and nothing
    else changed, B stands before A. *)
Lemma rank_reversal_before :
  ∃ results,
    runTopsisCalculation (rank_reversal_input 2) = Some results
    ∧ ranked_before results "A" "B".
Proof.
  eexists. split; [by apply run_eq|].
  apply (ranked_before_of_key_lt (rank_reversal_input 2) 0 1 _ _
           eq_refl eq_refl).
  apply rr_A_above_B; [lra|].
  unfold rr_B_minus, rr_A_plus, rr_A_minus, rr_B_plus. lra.
Qed.

Lemma rank_reversal_after :
  ∃ results,
    runTopsisCalculation (rank_reversal_input 3) = Some results
    ∧ ranked_before results "B" "A".
Proof.
  eexists. split; [by apply run_eq|].
  apply (ranked_before_of_key_lt (rank_reversal_input 3) 1 0 _ _
           eq_refl eq_refl).
  apply rr_B_above_A; [lra|].
  unfold rr_B_minus, rr_A_plus, rr_A_minus, rr_B_plus. lra.
Qed.

Lemma rank_reversal_raised :
  benefit_value_raised (rank_reversal_input 2) (rank_reversal_input 3) 0 0.
Proof.
  split; try reflexivity.
  - exists 2%R, 3%R. repeat split. lra.
  - intros i j Hij.
    destruct i as [|[|[|i]]], j as [|[|j]]; try reflexivity.
    by destruct Hij.
Qed.

Lemma rank_reversal_names (a : R) :
  NoDup (name <$> selectedMaterialsData (rank_reversal_input a)).
Proof. by apply (bool_decide_unpack _). Qed.

Lemma rank_reversal_weight (a : R) :
  weight_of (rank_reversal_input a) 0 = Fin (1 / 8).
Proof.
  unfold weight_of. simpl.
  by rewrite lookup_insert_eq, js_or_Fin_nonzero by lra.
Qed.

(** C5, as stated, fails.  On [rank_reversal_input], [temp] is a benefit
    criterion of weight 1/8; raising A's [temp] from 2 to 3, with every
    other cell, weight and criterion fixed, moves A from before B to
    behind B, whose values are unchanged: in exact arithmetic, and in the
    run that binary64 computes. *)
Lemma monotonicity_fails_with_two_criteria :
  ¬ benefit_monotonicity (λ _, True)
  ∧ ranking (runTopsisCalculation (rank_reversal_input_float 2))
    = Some ["A"; "B"; "C"]
  ∧ ranking (runTopsisCalculation (rank_reversal_input_float 3))
    = Some ["B"; "A"; "C"].
Proof.
  split; [|split; vm_compute; reflexivity].
  intros Hclaim.
  destruct (Hclaim (rank_reversal_input 2) (rank_reversal_input 3) 0 0
              (1 / 8)%R I (rr_numeric 2) (rr_numeric 3)
              (rank_reversal_names 2) (rr_benefit 2 0 ltac:(lia))
              (rank_reversal_weight 2) ltac:(lra) rank_reversal_raised)
    as (before & after & Hrun & Hrun' & Hmono).
  destruct rank_reversal_before as (before0 & Hrun0 & Hbefore).
  destruct rank_reversal_after as (after0 & Hrun0' & Hafter).
  assert (before0 = before) as -> by congruence.
  assert (after0 = after) as -> by congruence.
  specialize (Hmono 1 _ _ ltac:(lia) eq_refl eq_refl Hbefore).
  revert Hafter. apply ranked_before_asym; [|exact Hmono].
  assert (Hafter_eq : after = array_sort compare_results
                                (unsorted_results (rank_reversal_input 3)))
    by (rewrite run_eq in Hrun' by done; congruence).
  rewrite Hafter_eq, sorted_results_names. apply rank_reversal_names.
Qed.

(** ** The theorems at concrete inputs *)

Lemma single_criterion_numeric (temp1 : R) :
  numeric_input (single_criterion_input temp1).
Proof.
  split; [|split].
  - repeat constructor; intros []; done.
  - apply map_Forall_empty.
  - by apply map_Forall_singleton.
Qed.

Lemma cost_input_numeric : numeric_input cost_input.
Proof.
  split; [|split].
  - repeat constructor; intros []; done.
  - by apply map_Forall_singleton.
  - apply map_Forall_insert_2; [done|]. by apply map_Forall_singleton.
Qed.

Lemma empty_selection_witness :
  runTopsisCalculation empty_selection_input = Some [].
Proof.
  apply empty_selection_gives_empty_results. left. reflexivity.
Defined.

Lemma one_result_per_material_witness :
  let input := scenarioB in
  ∃ results,
    runTopsisCalculation input = Some results
    ∧ length results = length (selectedMaterialsData input)
    ∧ r_name <$> results ≡ₚ name <$> selectedMaterialsData input
    ∧ (NoDup (name <$> selectedMaterialsData input) →
       ∀ material, material ∈ selectedMaterialsData input →
         ∃ i r, results !! i = Some r ∧ r_name r = name material
           ∧ ∀ i' r', results !! i' = Some r' →
                      r_name r' = name material → i' = i).
Proof.
  intros input. apply (one_result_per_material input); discriminate.
Defined.

Lemma score_is_relative_closeness_witness :
  let input := single_criterion_input 3 in
  ∃ results,
    runTopsisCalculation input = Some results
    ∧ (∀ i material, selectedMaterialsData input !! i = Some material →
         ∃ r, r ∈ results ∧ r_originalData r = material
              ∧ r_name r = name material ∧ scored_from_row r i)
    ∧ (∀ r, r ∈ results →
         (∃ i, selectedMaterialsData input !! i = Some (r_originalData r)
               ∧ r_name r = name (r_originalData r) ∧ scored_from_row r i)
         ∧ score_in_range (r_score r)).
Proof.
  intros input. apply (score_is_relative_closeness input); discriminate.
Defined.

Lemma results_sorted_descending_nan_last_witness :
  let input := mixed_scores_input in
  ∃ results,
    runTopsisCalculation input = Some results
    ∧ (λ r, (r_name r, r_score r)) <$> results
      = [("C", 1%float); ("A", 0%float); ("B", nan)]
    ∧ length results = length (selectedMaterialsData input)
    ∧ ∀ i j a b, i < j → results !! i = Some a → results !! j = Some b →
        if PrimFloat.is_nan (r_score a)
        then PrimFloat.is_nan (r_score b) = true
        else PrimFloat.is_nan (r_score b) = true
             ∨ (r_score b <=? r_score a)%float = true.
Proof.
  intros input.
  destruct (results_sorted_descending_nan_last input)
    as (results & Hrun & Hsorted); [discriminate | discriminate |].
  exists results. split; [exact Hrun|]. split; [|exact Hsorted].
  assert (Some results = runTopsisCalculation input) as Heq by done.
  vm_compute in Heq. by injection Heq as ->.
Defined.


Lemma ideal_is_column_extreme_by_polarity_witness :
  let input := single_criterion_input 3 in
  ∃ results,
    runTopsisCalculation input = Some results
    ∧ length results = length (selectedMaterialsData input)
    ∧ ∀ r j k flag, r ∈ results →
      selectedCriteriaKeys input !! j = Some k →
      (∃ c, c ∈ allCriteriaDefinition input ∧ key c = k) →
      (∀ c, c ∈ allCriteriaDefinition input → key c = k → isBenefit c = flag) →
      ∃ (col : list R) (hi lo : R),
        column (r_weightedMatrix r) j = Fin <$> col
        ∧ greatest hi col ∧ least lo col
        ∧ r_idealSolution r !! j = Some (Fin (if flag then hi else lo))
        ∧ r_antiIdealSolution r !! j = Some (Fin (if flag then lo else hi)).
Proof.
  intros input.
  apply (ideal_is_column_extreme_by_polarity input);
    [discriminate | discriminate | apply single_criterion_numeric].
Defined.

Lemma unknown_key_is_treated_as_cost_witness :
  let input := cost_input in
  ∃ results,
    runTopsisCalculation input = Some results
    ∧ length results = length (selectedMaterialsData input)
    ∧ ∀ r j k, r ∈ results →
      selectedCriteriaKeys input !! j = Some k →
      (∀ c, c ∈ allCriteriaDefinition input → key c ≠ k) →
      ∃ (col : list R) (hi lo : R),
        column (r_weightedMatrix r) j = Fin <$> col
        ∧ greatest hi col ∧ least lo col
        ∧ r_idealSolution r !! j = Some (Fin lo)
        ∧ r_antiIdealSolution r !! j = Some (Fin hi).
Proof.
  intros input.
  apply (unknown_key_is_treated_as_cost input);
    [discriminate | discriminate | apply cost_input_numeric].
Defined.

Lemma cells_of_initial_and_weighted_matrix_witness :
  let input := nan_entries_input in
  ∃ results,
    runTopsisCalculation input = Some results
    ∧ length results = length (selectedMaterialsData input)
    ∧ ∀ r i j material k, r ∈ results →
      selectedMaterialsData input !! i = Some material →
      selectedCriteriaKeys input !! j = Some k →
      ∃ x n,
        matrix_entry (r_initialMatrix r) i j = Some x
        ∧ x = (if decide (k = k_cout)
               then entry_or_zero (costs input !! name material)
               else attribute material k)
        ∧ matrix_entry (r_normalizedMatrix r) i j = Some n
        ∧ matrix_entry (r_weightedMatrix r) i j
          = Some (js_mul n (entry_or_zero (weights input !! k))).
Proof.
  intros input.
  apply (cells_of_initial_and_weighted_matrix input); discriminate.
Defined.

Lemma single_criterion_raised (a a' : R) :
  (a < a')%R →
  benefit_value_raised (single_criterion_input a) (single_criterion_input a')
    0 0.
Proof.
  intros Ha. split; try reflexivity.
  - exists a, a'. by repeat split.
  - intros i j Hij.
    destruct i as [|[|i]], j as [|j]; try reflexivity.
    by destruct Hij.
Qed.

Lemma single_criterion_weight_one (a : R) :
  weight_of (single_criterion_input a) 0 = Fin 1.
Proof.
  unfold weight_of. simpl.
  by rewrite lookup_singleton_eq, js_or_Fin_nonzero by lra.
Qed.

(** With [temp] 5, the first material stands before the second, whose
    [temp] is 4. *)
Lemma single_criterion_first_before :
  ranked_before
    (array_sort compare_results (unsorted_results (single_criterion_input 5)))
    "material1" "material2".
Proof.
  apply (ranked_before_of_key_lt (single_criterion_input 5) 0 1 _ _
           eq_refl eq_refl).
  assert (Hw : (0 < Rweight (single_criterion_input 5) 0)%R).
  { unfold Rweight. rewrite single_criterion_weight_one. simpl. lra. }
  destruct (single_score_lt (single_criterion_input 5)
              (single_criterion_numeric 5) eq_refl eq_refl Hw 1 0)
    as (s2 & s1 & -> & -> & Hlt).
  - unfold numRows. simpl. lia.
  - unfold numRows. simpl. lia.
  - change (Rraw (single_criterion_input 5) 1 0) with 4%R.
    change (Rraw (single_criterion_input 5) 0 0) with 5%R. lra.
  - simpl. by apply Rltb_true.
Qed.

Lemma monotone_in_exact_arithmetic_witness :
  let input := single_criterion_input 5 in
  let input' := single_criterion_input 6 in
  ∃ results results',
    runTopsisCalculation input = Some results
    ∧ runTopsisCalculation input' = Some results'
    ∧ ranked_before results "material1" "material2"
    ∧ ranked_before results' "material1" "material2".
Proof.
  intros input input'.
  destruct (proj1 monotone_in_exact_arithmetic input input' 0 0 1%R)
    as (results & results' & Hrun & Hrun' & Hmono).
  - left. reflexivity.
  - apply single_criterion_numeric.
  - apply single_criterion_numeric.
  - by apply (bool_decide_unpack _).
  - vm_compute. reflexivity.
  - apply single_criterion_weight_one.
  - lra.
  - apply single_criterion_raised. lra.
  - exists results, results'. split; [done|]. split; [done|].
    assert (Hbefore : ranked_before results "material1" "material2").
    { unfold input in Hrun. rewrite run_eq in Hrun by done.
      injection Hrun as <-. apply single_criterion_first_before. }
    split; [done|].
    by apply (Hmono 1 _ _ ltac:(lia) eq_refl eq_refl).
Defined.

(** ** Further facts *)

(** X1.  The engine throws on no input, whatever the interpretation of the
    numbers. *)
Theorem run_never_throws {num : Type} {N : JSNumber num}
    (input : TopsisInput num) :
  ∃ results, runTopsisCalculation input = Some results.
Proof.
  destruct (selectedMaterialsData input) as [|m ms] eqn:Hm.
  { exists []. apply run_empty. by left. }
  destruct (selectedCriteriaKeys input) as [|k ks] eqn:Hk.
  { exists []. apply run_empty. by right. }
  eexists. apply run_eq; congruence.
Qed.

(** Scenario A: the single material is its own ideal and anti-ideal, both
    distances are 0, and the score is [NaN]. *)
Theorem scenario_A_scores_NaN :
  ∃ r,
    runTopsisCalculation scenarioA = Some [r]
    ∧ r_normalizedMatrix r = [[1%float]]
    ∧ r_weightedMatrix r = [[1%float]]
    ∧ r_idealSolution r = [1%float] ∧ r_antiIdealSolution r = [1%float]
    ∧ r_distanceToIdeal r = [0%float] ∧ r_distanceToAntiIdeal r = [0%float]
    ∧ PrimFloat.is_nan (r_score r) = true.
Proof.
  eexists. split; [vm_compute; reflexivity|].
  vm_compute. repeat split.
Qed.

(** X3.  The trail describes the run: every result of a run carries the same
    matrices and vectors. *)
Theorem trail_is_shared {num : Type} {N : JSNumber num}
    (input : TopsisInput num) :
  ∃ results,
    runTopsisCalculation input = Some results
    ∧ ∀ r r', r ∈ results → r' ∈ results →
        r_initialMatrix r = r_initialMatrix r'
        ∧ r_normalizedMatrix r = r_normalizedMatrix r'
        ∧ r_weightedMatrix r = r_weightedMatrix r'
        ∧ r_idealSolution r = r_idealSolution r'
        ∧ r_antiIdealSolution r = r_antiIdealSolution r'
        ∧ r_distanceToIdeal r = r_distanceToIdeal r'
        ∧ r_distanceToAntiIdeal r = r_distanceToAntiIdeal r'.
Proof.
  destruct (decide (selectedMaterialsData input = [])) as [Hm|Hm].
  { exists []. split; [apply run_empty; by left|].
    intros r r' Hr. by apply elem_of_nil in Hr. }
  destruct (decide (selectedCriteriaKeys input = [])) as [Hk|Hk].
  { exists []. split; [apply run_empty; by right|].
    intros r r' Hr. by apply elem_of_nil in Hr. }
  eexists. split; [by apply run_eq|]. intros r r' Hr Hr'.
  apply sorted_results_elem in Hr as (i & m & _ & ->).
  apply sorted_results_elem in Hr' as (i' & m' & _ & ->).
  repeat split.
Qed.

(** Scenario B once more, in exact arithmetic. *)
Section ScenarioBExact.
Let inp := single_criterion_input 3.

Lemma sb_rows : 0 < numRows inp.
Proof. unfold numRows. simpl. lia. Qed.

Lemma sb_norm : Rnorm inp 0 = 5%R.
Proof.
  unfold Rnorm, Rsum. simpl.
  change (Rraw inp 0 0) with 3%R. change (Rraw inp 1 0) with 4%R.
  replace (0 + 3 * 3 + 4 * 4)%R with (5 * 5)%R by ring.
  apply sqrt_square. lra.
Qed.

Lemma sb_weight : Rweight inp 0 = 1%R.
Proof.
  unfold Rweight, weight_of. simpl.
  by rewrite lookup_singleton_eq, js_or_Fin_nonzero by lra.
Qed.

Lemma sb_weighted (i : nat) : Rweighted inp i 0 = (Rraw inp i 0 / 5)%R.
Proof.
  unfold Rweighted, Rnormalized. rewrite sb_norm, sb_weight.
  rewrite (proj2 (Reqb_false 5 0)) by lra. lra.
Qed.

Lemma sb_ideal : Rideal inp 0 = (4 / 5)%R ∧ Ranti_ideal inp 0 = (3 / 5)%R.
Proof.
  assert (Hcol : Rcolumn inp 0 = [(3 / 5)%R; (4 / 5)%R]).
  { unfold Rcolumn, tabulate. simpl. by rewrite !sb_weighted. }
  assert (Hben : benefit_column inp 0 = true) by (vm_compute; reflexivity).
  unfold Rideal, Ranti_ideal. rewrite Hben, Hcol. simpl.
  split; [apply Rmax_right | apply Rmin_left]; lra.
Qed.

Lemma sb_scores : score_of inp 0 = Fin 0 ∧ score_of inp 1 = Fin 1.
Proof.
  destruct sb_ideal as [Hi Ha].
  rewrite !(score_of_Rscore inp (single_criterion_numeric 3) sb_rows)
    by (unfold numRows; simpl; lia).
  unfold Rscore. rewrite !(single_separation inp eq_refl).
  rewrite !sb_weighted, Hi, Ha.
  change (Rraw inp 0 0) with 3%R. change (Rraw inp 1 0) with 4%R.
  replace (3 / 5 - 4 / 5)%R with (- (1 / 5))%R by lra.
  replace (3 / 5 - 3 / 5)%R with 0%R by lra.
  replace (4 / 5 - 4 / 5)%R with 0%R by lra.
  replace (4 / 5 - 3 / 5)%R with (1 / 5)%R by lra.
  rewrite Rabs_Ropp, Rabs_R0, (Rabs_right (1 / 5)) by lra.
  rewrite !(proj2 (Reqb_false _ 0)) by lra.
  split; f_equal; field.
Qed.

Theorem scenario_B_in_exact_arithmetic :
  column_norm inp 0 = Fin 5
  ∧ ∃ results,
      runTopsisCalculation inp = Some results
      ∧ ranked_before results "material2" "material1"
      ∧ ∀ r, r ∈ results →
          r_normalizedMatrix r = [[Fin (3 / 5)]; [Fin (4 / 5)]]
          ∧ r_weightedMatrix r = [[Fin (3 / 5)]; [Fin (4 / 5)]]
          ∧ r_idealSolution r = [Fin (4 / 5)]
          ∧ r_antiIdealSolution r = [Fin (3 / 5)]
          ∧ r_score r
            = (if decide (r_name r = "material2") then Fin 1 else Fin 0).
Proof.
  pose proof (single_criterion_numeric 3) as Hnum.
  destruct sb_scores as [Hs0 Hs1]. destruct sb_ideal as [Hi Ha].
  split.
  { rewrite (column_norm_Fin inp Hnum) by (unfold numCols; simpl; lia).
    by rewrite sb_norm. }
  eexists. split; [by apply run_eq|]. split.
  { apply (ranked_before_of_key_lt inp 1 0 _ _ eq_refl eq_refl).
    rewrite Hs0, Hs1. simpl. apply Rltb_true. lra. }
  intros r Hr.
  assert (HW : ∀ i, i < 2 → weighted inp i 0 = Fin (Rraw inp i 0 / 5)).
  { intros i Hi'. rewrite (weighted_Fin inp Hnum), sb_weighted; [done|..];
      [unfold numRows | unfold numCols]; simpl; lia. }
  assert (HN : ∀ i, i < 2 → normalized inp i 0 = Fin (Rraw inp i 0 / 5)).
  { intros i Hi'. rewrite (normalized_Fin inp Hnum);
      [|unfold numRows; simpl; lia | unfold numCols; simpl; lia].
    unfold Rnormalized. rewrite sb_norm.
    by rewrite (proj2 (Reqb_false 5 0)) by lra. }
  apply sorted_results_elem in Hr as (i & m & Hm & ->).
  split.
  { change ([[normalized inp 0 0]; [normalized inp 1 0]]
            = [[Fin (3 / 5)]; [Fin (4 / 5)]]).
    by rewrite !HN by lia. }
  split.
  { change ([[weighted inp 0 0]; [weighted inp 1 0]]
            = [[Fin (3 / 5)]; [Fin (4 / 5)]]).
    by rewrite !HW by lia. }
  split.
  { change ([ideal inp 0] = [Fin (4 / 5)]).
    rewrite (ideal_Fin inp Hnum sb_rows) by (unfold numCols; simpl; lia).
    by rewrite Hi. }
  split.
  { change ([anti_ideal inp 0] = [Fin (3 / 5)]).
    rewrite (anti_ideal_Fin inp Hnum sb_rows) by (unfold numCols; simpl; lia).
    by rewrite Ha. }
  change (score_of inp i
          = if decide (name m = "material2") then Fin 1 else Fin 0).
  destruct i as [|[|i]]; simpl in Hm; [| |done].
  - injection Hm as <-. by rewrite Hs0.
  - injection Hm as <-. by rewrite Hs1.
Qed.

End ScenarioBExact.

(** ** The result objects (every interpretation) *)

Lemma lookup_foldl_insert_imap {K V : Type} `{Countable K} (keys : list K)
    (F : nat → V) (f : K → V) (m0 : gmap K V) (k : K) :
  (∀ j k', keys !! j = Some k' → F j = f k') →
  foldl (λ cv (p : nat * K), <[p.2:=F p.1]> cv) m0 (imap pair keys) !! k
  = if bool_decide (k ∈ keys) then Some (f k) else m0 !! k.
Proof.
  induction keys as [|x l IH] using rev_ind; intros HF.
  - case_bool_decide as Hin; [by apply elem_of_nil in Hin | done].
  - rewrite imap_app, foldl_app. simpl. rewrite Nat.add_0_r.
    destruct (decide (k = x)) as [->|Hne].
    + rewrite lookup_insert_eq.
      rewrite bool_decide_eq_true_2 by (apply elem_of_app; right; left).
      f_equal. apply HF. by rewrite lookup_app_r, Nat.sub_diag.
    + rewrite lookup_insert_ne by done.
      rewrite IH by (intros j k' Hj; apply HF; by apply lookup_app_l_Some).
      apply (f_equal (λ b : bool, if b then Some (f k) else m0 !! k)).
      apply bool_decide_ext.
      rewrite elem_of_app, list_elem_of_singleton. naive_solver.
Qed.

Lemma lookup_calculated_values {num : Type} {N : JSNumber num}
    (input : TopsisInput num) (index : nat) (material : Material num)
    (k : CriterionKey) :
  selectedMaterialsData input !! index = Some material →
  calculated_values input index !! k
  = if bool_decide (k ∈ selectedCriteriaKeys input)
    then Some (criterion_value input material k) else None.
Proof.
  intros Hm. unfold calculated_values.
  rewrite (lookup_foldl_insert_imap _ _ (criterion_value input material));
    [done|].
  intros j k' Hk'. unfold raw_value, criterion_value. by rewrite Hm, Hk'.
Qed.

(** X4.  Each result is the result object of one selected material: it carries
    the name of the material, the material itself, and in
    [calculatedValues] the value of the material on each selected criterion
    (for ['cout'], [costs[material.name] || 0]) and no other key. *)
Theorem result_carries_material_and_values {num : Type} {N : JSNumber num}
    (input : TopsisInput num) :
  ∃ results,
    runTopsisCalculation input = Some results
    ∧ ∀ r, r ∈ results →
        ∃ i material,
          selectedMaterialsData input !! i = Some material
          ∧ r_name r = name material
          ∧ r_originalData r = material
          ∧ ∀ k, r_calculatedValues r !! k
                 = if bool_decide (k ∈ selectedCriteriaKeys input)
                   then Some (criterion_value input material k)
                   else None.
Proof.
  destruct (decide (selectedMaterialsData input = [])) as [Hm|Hm].
  { exists []. split; [apply run_empty; by left|].
    intros r Hr. by apply elem_of_nil in Hr. }
  destruct (decide (selectedCriteriaKeys input = [])) as [Hk|Hk].
  { exists []. split; [apply run_empty; by right|].
    intros r Hr. by apply elem_of_nil in Hr. }
  eexists. split; [by apply run_eq|].
  intros r Hr. apply sorted_results_elem in Hr as (i & m & Hi & ->).
  exists i, m. repeat split; [done|].
  intros k. by apply lookup_calculated_values.
Qed.

Lemma has_shape_tabulate2 {A : Type} (nr nc : nat) (f : nat → nat → A) :
  has_shape nr nc (tabulate2 nr nc f).
Proof.
  split; [apply length_tabulate|].
  apply Forall_forall. intros row Hrow.
  apply list_elem_of_lookup in Hrow as (i & Hi).
  apply lookup_tabulate_Some in Hi as (_ & ->). apply length_tabulate.
Qed.

(** X5.  The trail has the dimensions of the selection: with [nr] materials and
    [nc] criteria selected, the three matrices have [nr] rows of [nc]
    entries, the ideal and the anti-ideal solution have [nc] entries and
    the two distance vectors [nr]. *)
Theorem trail_has_the_shape_of_the_selection {num : Type} {N : JSNumber num}
    (input : TopsisInput num) :
  ∃ results,
    runTopsisCalculation input = Some results
    ∧ ∀ r, r ∈ results →
        let nr := length (selectedMaterialsData input) in
        let nc := length (selectedCriteriaKeys input) in
        has_shape nr nc (r_initialMatrix r)
        ∧ has_shape nr nc (r_normalizedMatrix r)
        ∧ has_shape nr nc (r_weightedMatrix r)
        ∧ length (r_idealSolution r) = nc
        ∧ length (r_antiIdealSolution r) = nc
        ∧ length (r_distanceToIdeal r) = nr
        ∧ length (r_distanceToAntiIdeal r) = nr.
Proof.
  destruct (decide (selectedMaterialsData input = [])) as [Hm|Hm].
  { exists []. split; [apply run_empty; by left|].
    intros r Hr. by apply elem_of_nil in Hr. }
  destruct (decide (selectedCriteriaKeys input = [])) as [Hk|Hk].
  { exists []. split; [apply run_empty; by right|].
    intros r Hr. by apply elem_of_nil in Hr. }
  eexists. split; [by apply run_eq|].
  intros r Hr. apply sorted_results_elem in Hr as (i & m & Hi & ->).
  simpl. repeat split;
    try apply has_shape_tabulate2; try apply length_tabulate;
    apply has_shape_tabulate2.
Qed.

(** ** The sort is stable *)

Section SortStable.
Context {num : Type} {N : JSNumber num} {A : Type}.
Variable comparefn : A → A → num.

Lemma sort_insert_sublist (x : A) (l : list A) :
  l `sublist_of` sort_insert comparefn x l.
Proof.
  induction l as [|z l IH]; simpl; [apply sublist_nil_l|].
  destruct (sorts_after comparefn x z).
  - by apply sublist_skip.
  - by apply sublist_cons.
Qed.

(** An element is inserted in front of every element that the comparator
    does not put strictly before it. *)
Lemma sort_insert_before (x y : A) (l : list A) :
  y ∈ l → sorts_after comparefn x y = false →
  [x; y] `sublist_of` sort_insert comparefn x l.
Proof.
  intros Hy Hxy. induction l as [|z l IH]; [by apply elem_of_nil in Hy|].
  simpl. destruct (sorts_after comparefn x z) eqn:Hxz.
  - apply sublist_cons, IH.
    apply elem_of_cons in Hy as [->|Hy]; [congruence | done].
  - apply sublist_skip. by apply singleton_sublist_l.
Qed.

Lemma array_sort_stable (x y : A) (l : list A) :
  [x; y] `sublist_of` l → sorts_after comparefn x y = false →
  [x; y] `sublist_of` array_sort comparefn l.
Proof.
  intros Hsub Hxy. induction l as [|z l IH].
  - by apply sublist_nil_r in Hsub.
  - simpl. apply sublist_cons_r in Hsub as [Hsub|(l' & [= <- <-] & Hsub)].
    + etrans; [by apply IH | apply sort_insert_sublist].
    + apply sort_insert_before; [|done].
      rewrite array_sort_Permutation. by apply singleton_sublist_l.
Qed.

(** Elements none of which the comparator puts after another keep their
    order. *)
Lemma array_sort_id (l : list A) :
  (∀ x y, x ∈ l → y ∈ l → sorts_after comparefn x y = false) →
  array_sort comparefn l = l.
Proof.
  induction l as [|x l IH]; intros Hl; [done|]. simpl.
  rewrite IH by (intros; apply Hl; by right).
  destruct l as [|y l]; [done|]. simpl.
  by rewrite Hl by (repeat constructor).
Qed.

End SortStable.

Lemma sublist_pair_lookup {A : Type} (x y : A) (l : list A) :
  [x; y] `sublist_of` l ↔
  ∃ i j, i < j ∧ l !! i = Some x ∧ l !! j = Some y.
Proof.
  split.
  - induction l as [|z l IH]; intros Hsub.
    + by apply sublist_nil_r in Hsub.
    + apply sublist_cons_r in Hsub as [Hsub|(l' & [= <- <-] & Hsub)].
      * destruct (IH Hsub) as (i & j & Hij & Hi & Hj).
        exists (S i), (S j). repeat split; [lia | done..].
      * apply singleton_sublist_l, list_elem_of_lookup in Hsub as (j & Hj).
        exists 0, (S j). repeat split; [lia | done].
  - intros (i & j & Hij & Hi & Hj). revert i j Hij Hi Hj.
    induction l as [|z l IH]; intros i j Hij Hi Hj; [done|].
    destruct j as [|j]; [lia|]. simpl in Hj. destruct i as [|i].
    + injection Hi as ->. apply sublist_skip, singleton_sublist_l.
      by eapply list_elem_of_lookup_2.
    + apply sublist_cons, (IH i j); [lia | done..].
Qed.

(** ** The ranking (exact arithmetic) *)

(** X6.  The ranking in full.  Where names identify the materials, material A
    stands before material B in the results exactly when the sort key of A
    (its score, [-Infinity] for [NaN]) is greater than that of B, or
    neither key is smaller than the other and A comes before B in the
    input: the sort is by descending score and leaves ties in the order of
    the input. *)
Theorem ranking_by_score_then_input_order (input : TopsisInput xreal) :
  selectedMaterialsData input ≠ [] →
  selectedCriteriaKeys input ≠ [] →
  NoDup (name <$> selectedMaterialsData input) →
  ∃ results,
    runTopsisCalculation input = Some results
    ∧ ∀ iA iB mA mB rA rB,
        selectedMaterialsData input !! iA = Some mA →
        selectedMaterialsData input !! iB = Some mB →
        iA ≠ iB →
        rA ∈ results → r_name rA = name mA →
        rB ∈ results → r_name rB = name mB →
        (ranked_before results (name mA) (name mB)
         ↔ xr_lt (sort_key (r_score rB)) (sort_key (r_score rA)) = true
           ∨ (xr_lt (sort_key (r_score rA)) (sort_key (r_score rB)) = false
              ∧ iA < iB)).
Proof.
  intros Hm Hk Hnodup. eexists. split; [by apply run_eq|].
  intros iA iB mA mB rA rB HmA HmB HAB HrA HnA HrB HnB.
  assert (Hid : ∀ r i m, r ∈ array_sort compare_results
                               (unsorted_results input) →
            r_name r = name m → selectedMaterialsData input !! i = Some m →
            r = result_of input i m).
  { intros r i m Hr Hn Hi.
    apply sorted_results_elem in Hr as (i' & m' & Hi' & ->). simpl in Hn.
    assert (i' = i).
    { eapply (NoDup_lookup _ i' i (name m) Hnodup);
        rewrite list_lookup_fmap; [rewrite Hi' | rewrite Hi]; simpl;
        congruence. }
    subst i'. congruence. }
  rewrite (Hid rA iA mA HrA HnA HmA), (Hid rB iB mB HrB HnB HmB). simpl.
  assert (Hnodup' : NoDup (r_name <$> array_sort compare_results
                                        (unsorted_results input))).
  { by rewrite sorted_results_names. }
  assert (Hstable : ∀ i i' m m', i < i' →
    selectedMaterialsData input !! i = Some m →
    selectedMaterialsData input !! i' = Some m' →
    xr_lt (sort_key (score_of input i)) (sort_key (score_of input i'))
      = false →
    ranked_before (array_sort compare_results (unsorted_results input))
      (name m) (name m')).
  { intros i i' m m' Hlt Hi Hi' Hkey.
    assert (Hsub : [result_of input i m; result_of input i' m']
                   `sublist_of` unsorted_results input).
    { apply sublist_pair_lookup. exists i, i'.
      split; [done|].
      split; apply lookup_unsorted_results; eauto. }
    apply (array_sort_stable compare_results) in Hsub;
      [|by rewrite sorts_after_compare_results].
    apply sublist_pair_lookup in Hsub as (p & q & Hpq & Hp & Hq).
    by exists p, q, (result_of input i m), (result_of input i' m'). }
  split.
  - intros Hbefore.
    pose proof (ranked_before_key_not_lt input iA iB mA mB Hnodup HmA HmB
                  Hbefore) as Hnot.
    destruct (xr_lt (sort_key (score_of input iB))
                (sort_key (score_of input iA))) eqn:Hgt; [by left|].
    right. split; [done|].
    destruct (decide (iA < iB)) as [|Hge]; [done|]. exfalso.
    apply (ranked_before_asym _ _ _ Hnodup' Hbefore).
    apply (Hstable iB iA mB mA); [lia | done..].
  - intros [Hgt|[Htie Hlt]].
    + by apply (ranked_before_of_key_lt input iA iB mA mB).
    + by apply (Hstable iA iB mA mB).
Qed.

(** ** Degenerate inputs (exact arithmetic) *)

Lemma MaxRlist_unique (l : list R) (m : R) : greatest m l → MaxRlist l = m.
Proof.
  intros [Hm Hup].
  assert (Hl : l ≠ []) by (intros ->; by apply elem_of_nil in Hm).
  pose proof (MaxRlist_upper l m Hm).
  pose proof (Hup _ (MaxRlist_elem l Hl)). lra.
Qed.

Lemma MinRlist_unique (l : list R) (m : R) : least m l → MinRlist l = m.
Proof.
  intros [Hm Hlow].
  assert (Hl : l ≠ []) by (intros ->; by apply elem_of_nil in Hm).
  pose proof (MinRlist_lower l m Hm).
  pose proof (Hlow _ (MinRlist_elem l Hl)). lra.
Qed.

Section Extremes.
Variable input : TopsisInput xreal.
Hypothesis Hrows : 0 < numRows input.

Lemma Rweighted_le_max (i j : nat) :
  i < numRows input → (Rweighted input i j <= MaxRlist (Rcolumn input j))%R.
Proof. intros Hi. by apply MaxRlist_upper, Rweighted_in_column. Qed.

Lemma Rweighted_ge_min (i j : nat) :
  i < numRows input → (MinRlist (Rcolumn input j) <= Rweighted input i j)%R.
Proof. intros Hi. by apply MinRlist_lower, Rweighted_in_column. Qed.

Lemma Rcolumn_elem (x : R) (j : nat) :
  x ∈ Rcolumn input j → ∃ i, i < numRows input ∧ x = Rweighted input i j.
Proof.
  intros Hx. apply list_elem_of_lookup in Hx as (i & Hi).
  apply lookup_tabulate_Some in Hi as (Hi & ->). eauto.
Qed.

(** The extremes of a column coincide exactly when the column is
    constant. *)
Lemma column_extremes_coincide (j : nat) :
  MaxRlist (Rcolumn input j) = MinRlist (Rcolumn input j) ↔
  ∀ i i', i < numRows input → i' < numRows input →
          Rweighted input i j = Rweighted input i' j.
Proof.
  split.
  - intros Heq i i' Hi Hi'.
    pose proof (Rweighted_le_max i j Hi). pose proof (Rweighted_ge_min i j Hi).
    pose proof (Rweighted_le_max i' j Hi').
    pose proof (Rweighted_ge_min i' j Hi'). lra.
  - intros Hconst.
    pose proof (Rcolumn_nonempty input Hrows j) as Hne.
    destruct (Rcolumn_elem _ j (MaxRlist_elem _ Hne)) as (i & Hi & ->).
    destruct (Rcolumn_elem _ j (MinRlist_elem _ Hne)) as (i' & Hi' & ->).
    by apply Hconst.
Qed.

Lemma Rseparation_zero (v : nat → R) (i : nat) :
  Rseparation input v i = 0%R ↔
  ∀ j, j < numCols input → Rweighted input i j = v j.
Proof.
  change (Rseparation input v i) with (sqrt (Rsq_separation input v i)).
  pose proof (Rsq_separation_nonneg input v i) as Hpos.
  split.
  - intros Hz j Hj. apply sqrt_eq_0 in Hz; [|done].
    pose proof (Rsum_zero _ _ j
      (λ j' _, Rle_0_sqr (Rweighted input i j' - v j')) Hz Hj) as Hterm.
    cbv beta in Hterm. destruct (Rmult_integral _ _ Hterm); lra.
  - intros Heq. unfold Rsq_separation.
    rewrite Rsum_all_zero; [apply sqrt_0|].
    intros j Hj. rewrite Heq by done. lra.
Qed.

(** A score is [NaN] exactly when in every column the extremes coincide;
    this does not depend on the row. *)
Lemma Rscore_NaN (i : nat) :
  i < numRows input →
  Rscore input i = NaN ↔
  ∀ j, j < numCols input →
       MaxRlist (Rcolumn input j) = MinRlist (Rcolumn input j).
Proof.
  intros Hi. unfold Rscore.
  pose proof (sqrt_pos (Rsq_separation input (Rideal input) i)) as HP.
  pose proof (sqrt_pos (Rsq_separation input (Ranti_ideal input) i)) as HQ.
  change (sqrt (Rsq_separation input ?v i)) with (Rseparation input v i)
    in HP, HQ.
  destruct (Reqb _ 0) eqn:Hden.
  - apply Reqb_true in Hden. split; [intros _ | done]. intros j Hj.
    assert (HP0 : Rseparation input (Rideal input) i = 0%R) by lra.
    assert (HQ0 : Rseparation input (Ranti_ideal input) i = 0%R) by lra.
    pose proof (proj1 (Rseparation_zero _ i) HP0 j Hj) as Hideal.
    pose proof (proj1 (Rseparation_zero _ i) HQ0 j Hj) as Hanti.
    unfold Rideal, Ranti_ideal in *.
    destruct (benefit_column input j); congruence.
  - apply Reqb_false in Hden. split; [done|]. intros Hconst. exfalso.
    apply Hden.
    assert (Hcols : ∀ v, (v = Rideal input ∨ v = Ranti_ideal input) →
              Rseparation input v i = 0%R).
    { intros v Hv. apply Rseparation_zero. intros j Hj.
      pose proof (Hconst j Hj) as Heq.
      pose proof (Rweighted_le_max i j Hi).
      pose proof (Rweighted_ge_min i j Hi).
      destruct Hv as [-> | ->]; unfold Rideal, Ranti_ideal;
        destruct (benefit_column input j); lra. }
    rewrite (Hcols (Rideal input)), (Hcols (Ranti_ideal input)) by auto.
    lra.
Qed.

End Extremes.

Lemma all_rows_equal_tabulate2 {A : Type} (nr nc : nat) (f : nat → nat → A) :
  all_rows_equal (tabulate2 nr nc f) ↔
  ∀ i i' j, i < nr → i' < nr → j < nc → f i j = f i' j.
Proof.
  unfold all_rows_equal, tabulate2. split.
  - intros Heq i i' j Hi Hi' Hj.
    assert (Hrows : tabulate nc (f i) = tabulate nc (f i')).
    { apply Heq; apply list_elem_of_lookup; [exists i | exists i'];
        by rewrite lookup_tabulate. }
    apply (f_equal (λ l, l !! j)) in Hrows.
    rewrite !lookup_tabulate in Hrows by done. by injection Hrows.
  - intros Heq row row' Hrow Hrow'.
    apply list_elem_of_lookup in Hrow as (i & Hi).
    apply list_elem_of_lookup in Hrow' as (i' & Hi').
    apply lookup_tabulate_Some in Hi as (Hi & ->).
    apply lookup_tabulate_Some in Hi' as (Hi' & ->).
    apply tabulate_ext. intros j Hj. by apply Heq.
Qed.

Section NaNScores.
Variable input : TopsisInput xreal.
Hypothesis Hmaterials : selectedMaterialsData input ≠ [].
Hypothesis Hkeys : selectedCriteriaKeys input ≠ [].
Hypothesis Hnumeric : numeric_input input.

Lemma weighted_rows_equal :
  all_rows_equal (tabulate2 (numRows input) (numCols input) (weighted input))
  ↔ ∀ j, j < numCols input →
         MaxRlist (Rcolumn input j) = MinRlist (Rcolumn input j).
Proof.
  pose proof (numRows_pos input Hmaterials) as Hrows.
  rewrite all_rows_equal_tabulate2. split.
  - intros Heq j Hj. apply column_extremes_coincide; [done|].
    intros i i' Hi Hi'. specialize (Heq i i' j Hi Hi' Hj).
    rewrite !(weighted_Fin input Hnumeric) in Heq by done. congruence.
  - intros Heq i i' j Hi Hi' Hj.
    rewrite !(weighted_Fin input Hnumeric) by done. f_equal.
    apply (column_extremes_coincide input Hrows j); [|done..]. by apply Heq.
Qed.

(** X8.  With one material only, with every weight 0 or missing, or with
    materials that all have the same values, every score is [NaN] and the
    results stand in the order of the input. *)
Theorem degenerate_selection_scores_NaN :
  length (selectedMaterialsData input) = 1
  ∨ (∀ j, j < numCols input → weight_of input j = Fin 0)
  ∨ (∀ i i' j, i < numRows input → i' < numRows input →
               raw_value input i j = raw_value input i' j) →
  ∃ results,
    runTopsisCalculation input = Some results
    ∧ r_name <$> results = name <$> selectedMaterialsData input
    ∧ ∀ r, r ∈ results → r_score r = NaN.
Proof.
  intros Hdegenerate.
  pose proof (numRows_pos input Hmaterials) as Hrows.
  assert (Hconst : ∀ j, j < numCols input →
            MaxRlist (Rcolumn input j) = MinRlist (Rcolumn input j)).
  { intros j Hj. apply column_extremes_coincide; [done|].
    intros i i' Hi Hi'.
    destruct Hdegenerate as [Hone|[Hzero|Hsame]].
    - fold (numRows input) in Hone. by replace i' with i by lia.
    - unfold Rweighted, Rweight. rewrite Hzero by done. simpl. lra.
    - unfold Rweighted, Rnormalized, Rraw. by rewrite (Hsame i i' j). }
  assert (Hscore : ∀ i, i < numRows input → score_of input i = NaN).
  { intros i Hi. rewrite (score_of_Rscore input Hnumeric Hrows) by done.
    by apply (Rscore_NaN input i Hi). }
  assert (Hunsorted : ∀ r, r ∈ unsorted_results input → r_score r = NaN).
  { intros r Hr. apply list_elem_of_lookup in Hr as (i & Hi).
    apply lookup_unsorted_results in Hi as (m & Hm & ->).
    apply Hscore. by eapply lookup_lt_Some. }
  exists (unsorted_results input). split; [|split].
  - rewrite run_eq by done. f_equal. apply array_sort_id.
    intros x y Hx Hy. rewrite sorts_after_compare_results.
    by rewrite (Hunsorted x Hx), (Hunsorted y Hy).
  - apply unsorted_results_names.
  - exact Hunsorted.
Qed.

End NaNScores.

(** ** The best and the worst material (exact arithmetic) *)

Section Dominance.
Variable input : TopsisInput xreal.
Hypothesis Hmaterials : selectedMaterialsData input ≠ [].
Hypothesis Hkeys : selectedCriteriaKeys input ≠ [].
Hypothesis Hnumeric : numeric_input input.
Hypothesis Hweights : nonnegative_weights input.

(** Under a weight that is not negative, the weighted value follows the
    raw value. *)
Lemma Rweighted_mono (i i' j : nat) :
  (Rraw input i j <= Rraw input i' j)%R →
  (Rweighted input i j <= Rweighted input i' j)%R.
Proof.
  intros Hle. unfold Rweighted, Rnormalized.
  assert (Hw : (0 <= Rweight input j)%R)
    by (apply (Hweights j), weight_of_Fin, Hnumeric).
  destruct (Reqb (Rnorm input j) 0) eqn:Hn; [lra|].
  apply Reqb_false in Hn.
  assert (Hpos : (0 < Rnorm input j)%R).
  { pose proof (sqrt_pos (Rsum (numRows input)
      (λ i0, Rraw input i0 j * Rraw input i0 j)%R)) as Hsqrt.
    fold (Rnorm input j) in Hsqrt. lra. }
  apply Rmult_le_compat_r; [done|].
  apply Rmult_le_compat_r; [|done].
  apply Rlt_le. by apply Rinv_0_lt_compat.
Qed.

(** The weighted row of the best material is the ideal solution, that of
    the worst material the anti-ideal solution. *)
Lemma extreme_row (best : bool) (iA : nat) :
  iA < numRows input →
  (if best then best_on_every_criterion input iA
   else worst_on_every_criterion input iA) →
  ∀ j, j < numCols input →
    Rweighted input iA j
    = (if best then Rideal input j else Ranti_ideal input j).
Proof.
  intros HA Hdom j Hj.
  assert (Hraw : ∀ i, i < numRows input →
    if Bool.eqb best (benefit_column input j)
    then (Rraw input i j <= Rraw input iA j)%R
    else (Rraw input iA j <= Rraw input i j)%R).
  { intros i Hi.
    pose proof (raw_value_Fin input Hnumeric iA j HA Hj) as Ha.
    pose proof (raw_value_Fin input Hnumeric i j Hi Hj) as Hx.
    destruct best; specialize (Hdom i j _ _ Ha Hx);
      by destruct (benefit_column input j). }
  assert (Hin : Rweighted input iA j ∈ Rcolumn input j)
    by by apply Rweighted_in_column.
  unfold Rideal, Ranti_ideal. symmetry.
  destruct best, (benefit_column input j); simpl in Hraw;
    (apply MaxRlist_unique || apply MinRlist_unique);
    (split; [done|]); intros x Hx;
    apply Rcolumn_elem in Hx as (i & Hi & ->);
    apply Rweighted_mono; by apply Hraw.
Qed.

(** X10.  A material that is at most as good as every material on every
    selected criterion has the score 0, provided no weight is negative;
    again with the exception of the input on which every score is
    [NaN]. *)
Theorem worst_material_scores_zero (iA : nat) (mA : Material xreal) :
  selectedMaterialsData input !! iA = Some mA →
  worst_on_every_criterion input iA →
  ∃ results,
    runTopsisCalculation input = Some results
    ∧ ∃ r, r ∈ results ∧ r_name r = name mA ∧ r_originalData r = mA
           ∧ (r_score r = Fin 0 ∨ ∀ r', r' ∈ results → r_score r' = NaN).
Proof.
  intros HmA Hworst.
  pose proof (numRows_pos input Hmaterials) as Hrows.
  assert (HA : iA < numRows input) by by eapply lookup_lt_Some.
  eexists. split; [by apply run_eq|].
  exists (result_of input iA mA).
  split; [apply sorted_results_elem; eauto|]. do 2 (split; [done|]).
  change (score_of input iA = Fin 0
          ∨ ∀ r', r' ∈ array_sort compare_results (unsorted_results input)
                  → r_score r' = NaN).
  rewrite (score_of_Rscore input Hnumeric Hrows) by done.
  destruct (Rscore input iA) as [s| | |] eqn:HsA;
    try (unfold Rscore in HsA; by destruct (Reqb _ 0)).
  - left. unfold Rscore in HsA.
    rewrite (proj2 (Rseparation_zero input (Ranti_ideal input) iA)) in HsA
      by apply (extreme_row false iA HA Hworst).
    destruct (Reqb _ 0) eqn:Hden; [done|]. apply Reqb_false in Hden.
    injection HsA as <-. f_equal. field. lra.
  - right. intros r' Hr'.
    apply sorted_results_elem in Hr' as (i & m & Hi & ->).
    apply lookup_lt_Some in Hi. fold (numRows input) in Hi.
    change (score_of input i = NaN).
    rewrite (score_of_Rscore input Hnumeric Hrows) by done.
    apply (Rscore_NaN input i Hi). by apply (Rscore_NaN input iA HA).
Qed.

End Dominance.

(** ** Units (exact arithmetic) *)

Section SortRelated.
Context {num : Type} {N : JSNumber num} {A B : Type}.
Variable comparefn : A → A → num.
Variable comparefn' : B → B → num.
Variable related : A → B → Prop.
Hypothesis Hcompare :
  ∀ x y x' y', related x x' → related y y' →
    sorts_after comparefn x y = sorts_after comparefn' x' y'.

Lemma sort_insert_Forall2 (x : A) (x' : B) (l : list A) (l' : list B) :
  related x x' → Forall2 related l l' →
  Forall2 related (sort_insert comparefn x l) (sort_insert comparefn' x' l').
Proof.
  intros Hx Hl. induction Hl as [|y y' l l' Hy Hl IH]; simpl.
  - by repeat constructor.
  - rewrite (Hcompare x y x' y') by done.
    destruct (sorts_after comparefn' x' y'); by repeat constructor.
Qed.

(** Lists that the comparators see alike are sorted alike. *)
Lemma array_sort_Forall2 (l : list A) (l' : list B) :
  Forall2 related l l' →
  Forall2 related (array_sort comparefn l) (array_sort comparefn' l').
Proof.
  induction 1 as [|x x' l l' Hx Hl IH]; simpl; [constructor|].
  by apply sort_insert_Forall2.
Qed.

End SortRelated.

(** ** The selection handlers ([page.tsx]) *)

Lemma filter_all {A : Type} (P : A → Prop) `{!∀ x, Decision (P x)}
    (l : list A) :
  (∀ x, x ∈ l → P x) → filter P l = l.
Proof.
  induction l as [|x l IH]; intros Hl; [done|].
  rewrite filter_cons_True by (apply Hl; left).
  f_equal. apply IH. intros y Hy. apply Hl. by right.
Qed.

Section Toggle.
Context {A : Type} `{EqDecision A}.
Implicit Types (item x : A) (prev : list A).

Lemma elem_of_toggle_selected item x prev :
  x ∈ toggle_selected item prev ↔
  if decide (x = item) then x ∉ prev else x ∈ prev.
Proof.
  unfold toggle_selected. case_bool_decide as Hin.
  - rewrite list_elem_of_filter. destruct (decide (x = item)) as [->|];
      naive_solver.
  - rewrite elem_of_app, list_elem_of_singleton.
    destruct (decide (x = item)) as [->|]; naive_solver.
Qed.

Lemma NoDup_toggle_selected item prev :
  NoDup prev → NoDup (toggle_selected item prev).
Proof.
  intros Hprev. unfold toggle_selected. case_bool_decide as Hin.
  - by apply NoDup_filter.
  - apply NoDup_app. repeat split; [done | | apply NoDup_singleton].
    intros x Hx ->%list_elem_of_singleton. done.
Qed.

Lemma toggle_selected_twice item prev :
  toggle_selected item (toggle_selected item prev)
  = if bool_decide (item ∈ prev) then filter (λ x, x ≠ item) prev ++ [item]
    else prev.
Proof.
  unfold toggle_selected at 2. case_bool_decide as Hin.
  - unfold toggle_selected. rewrite bool_decide_eq_false_2; [done|].
    rewrite list_elem_of_filter. naive_solver.
  - unfold toggle_selected.
    rewrite bool_decide_eq_true_2 by (apply elem_of_app; right; left).
    rewrite filter_app, filter_cons_False, filter_nil, app_nil_r
      by naive_solver.
    apply filter_all. intros x Hx ->. done.
Qed.

End Toggle.

(** X12.  A click on a material, or on a criterion, changes whether that item is
    selected and nothing else: the item is selected afterwards exactly when
    it was not before, and every other item is selected exactly when it
    was. *)
Theorem selection_click_flips_the_item :
  (∀ materialName x prev,
     x ∈ handleMaterialSelection materialName prev ↔
     if decide (x = materialName) then x ∉ prev else x ∈ prev)
  ∧ (∀ criterionKey x prev,
       x ∈ handleCriteriaSelection criterionKey prev ↔
       if decide (x = criterionKey) then x ∉ prev else x ∈ prev).
Proof. split; intros; apply elem_of_toggle_selected. Qed.

(** X13.  A second click on the same item does not restore the selection in
    general: an item that was not selected is gone again and the list is
    as before, but an item that was selected comes back at the end of the
    list. *)
Theorem selection_click_twice :
  (∀ materialName prev,
     handleMaterialSelection materialName
       (handleMaterialSelection materialName prev)
     = if bool_decide (materialName ∈ prev)
       then filter (λ x, x ≠ materialName) prev ++ [materialName]
       else prev)
  ∧ (∀ criterionKey prev,
       handleCriteriaSelection criterionKey
         (handleCriteriaSelection criterionKey prev)
       = if bool_decide (criterionKey ∈ prev)
         then filter (λ x, x ≠ criterionKey) prev ++ [criterionKey]
         else prev).
Proof. split; intros; apply toggle_selected_twice. Qed.

(** X14.  A selection without duplicates stays without duplicates. *)
Theorem selection_click_keeps_NoDup (materialName : string)
    (criterionKey : CriterionKey) (names : list string)
    (keys : list CriterionKey) :
  NoDup names → NoDup keys →
  NoDup (handleMaterialSelection materialName names)
  ∧ NoDup (handleCriteriaSelection criterionKey keys).
Proof. intros. split; by apply NoDup_toggle_selected. Qed.

(** ** The database and the run of the page *)

Lemma filter_ext_elem {A : Type} (P Q : A → Prop) `{!∀ x, Decision (P x)}
    `{!∀ x, Decision (Q x)} (l : list A) :
  (∀ x, x ∈ l → P x ↔ Q x) → filter P l = filter Q l.
Proof.
  induction l as [|x l IH]; intros Hl; [done|].
  assert (Htail : filter P l = filter Q l)
    by (apply IH; intros y Hy; apply Hl; by right).
  destruct (decide (P x)) as [HP|HP].
  - rewrite !filter_cons_True by (done || by apply Hl; [left|]). by f_equal.
  - rewrite !filter_cons_False; [done | | done].
    intros HQ. apply HP, Hl; [left | done].
Qed.

Lemma fmap_filter_elem {A B : Type} `{EqDecision B} (f : A → B)
    (s : list B) (l : list A) :
  f <$> filter (λ x, f x ∈ s) l = filter (λ y, y ∈ s) (f <$> l).
Proof.
  induction l as [|x l IH]; [done|]. simpl.
  destruct (decide (f x ∈ s)) as [Hx|Hx].
  - rewrite !filter_cons_True by done. simpl. by f_equal.
  - by rewrite !filter_cons_False by done.
Qed.

(** The part of a duplicate-free list that lies in one of its sublists is
    that sublist. *)
Lemma filter_sublist_elem {A : Type} `{EqDecision A} (s l : list A) :
  NoDup l → s `sublist_of` l → filter (λ x, x ∈ s) l = s.
Proof.
  intros Hl Hsub. induction Hsub as [|x s l Hsub IH|x s l Hsub IH].
  - done.
  - apply NoDup_cons in Hl as [Hx Hl].
    rewrite filter_cons_True by left. f_equal.
    transitivity (filter (λ y, y ∈ s) l); [|by apply IH].
    apply filter_ext_elem.
    intros y Hy. rewrite elem_of_cons. naive_solver.
  - apply NoDup_cons in Hl as [Hx Hl].
    rewrite filter_cons_False; [by apply IH|].
    intros Hxs. apply Hx. by eapply elem_of_sublist.
Qed.

Section Run.
Context {num : Type} {N : JSNumber num} {L : JSLiteral num}.
Variable parseFloat : string → num.

Lemma materialsDb_names :
  name <$> materialsDb (num:=num)
  = ["Cuivre"; "PER"; "PP-R"; "Fonte"; "CPVC"; "PEHD"; "PVC"].
Proof. reflexivity. Qed.

Lemma materialsDb_names_NoDup : NoDup (name <$> materialsDb (num:=num)).
Proof. rewrite materialsDb_names. by apply (bool_decide_unpack _). Qed.

Lemma materialsDb_names_nonempty (n : string) :
  n ∈ name <$> materialsDb (num:=num) → n ≠ "".
Proof.
  rewrite materialsDb_names. intros Hn ->.
  repeat (apply elem_of_cons in Hn as [Hn|Hn]; [discriminate|]).
  by apply elem_of_nil in Hn.
Qed.

Lemma topsis_input_names (names : list string) (keys : list CriterionKey)
    (catalog : list Criterion) (materialCosts : gmap string string)
    (criteriaWeights : gmap CriterionKey string) :
  name <$> selectedMaterialsData
             (topsis_input parseFloat names keys catalog materialCosts
                criteriaWeights)
  = filter (λ n, n ∈ names) (name <$> materialsDb (num:=num)).
Proof. apply fmap_filter_elem. Qed.

(** X15.  Whatever is selected and entered, a run started by the page returns
    one result for each material of the database whose name is selected,
    and no other: a name that is selected twice, or that the database does
    not have, makes no difference.  (At least one criterion is selected,
    which the page checks at step 4.) *)
Theorem page_run_gives_one_result_per_selected_material
    (names : list string) (keys : list CriterionKey)
    (catalog : list Criterion) (materialCosts : gmap string string)
    (criteriaWeights : gmap CriterionKey string) :
  keys ≠ [] →
  ∃ results,
    runTopsisCalculation
      (topsis_input parseFloat names keys catalog materialCosts
         criteriaWeights) = Some results
    ∧ NoDup (r_name <$> results)
    ∧ ∀ n, n ∈ r_name <$> results ↔
           n ∈ names ∧ n ∈ name <$> materialsDb (num:=num).
Proof.
  intros Hkeys.
  set (input := topsis_input parseFloat names keys catalog materialCosts
                  criteriaWeights).
  assert (Hnames : name <$> selectedMaterialsData input
                   = filter (λ n, n ∈ names) (name <$> materialsDb (num:=num)))
    by apply topsis_input_names.
  assert (Hnodup : NoDup (name <$> selectedMaterialsData input)).
  { rewrite Hnames. apply NoDup_filter, materialsDb_names_NoDup. }
  assert (Helem : ∀ n, n ∈ name <$> selectedMaterialsData input ↔
                       n ∈ names ∧ n ∈ name <$> materialsDb (num:=num))
    by (intros n; by rewrite Hnames, list_elem_of_filter).
  destruct (decide (selectedMaterialsData input = [])) as [Hm|Hm].
  - exists []. split; [apply run_empty; by left|].
    split; [constructor|]. intros n. rewrite <- Helem, Hm. done.
  - eexists. split; [by apply run_eq|].
    split; [by rewrite sorted_results_names|].
    intros n. by rewrite sorted_results_names.
Qed.

(** X16.  The rows of the matrices are the selected materials in the order of
    the database, while the detail tables head the rows with the selected
    names in the order in which they were selected.  For a selection of
    distinct names of the database, every row is headed by the name of its
    material exactly when the names were selected in the order of the
    database. *)
Theorem row_headers_name_the_rows_in_database_order_only
    (names : list string) (keys : list CriterionKey)
    (catalog : list Criterion) (materialCosts : gmap string string)
    (criteriaWeights : gmap CriterionKey string) :
  NoDup names →
  (∀ n, n ∈ names → n ∈ name <$> materialsDb (num:=num)) →
  (∀ i m,
     selectedMaterialsData
       (topsis_input parseFloat names keys catalog materialCosts
          criteriaWeights) !! i = Some m →
     row_header names i = name m)
  ↔ names `sublist_of` name <$> materialsDb (num:=num).
Proof.
  intros Hnodup Hdb.
  set (input := topsis_input parseFloat names keys catalog materialCosts
                  criteriaWeights).
  pose proof (topsis_input_names names keys catalog materialCosts
                criteriaWeights) as Hnames.
  fold input in Hnames.
  set (rows := filter (λ n, n ∈ names) (name <$> materialsDb (num:=num)))
    in *.
  assert (Hperm : rows ≡ₚ names).
  { apply NoDup_Permutation;
      [apply NoDup_filter, materialsDb_names_NoDup | done |].
    intros n. unfold rows. rewrite list_elem_of_filter. naive_solver. }
  assert (Hheader : ∀ i n, names !! i = Some n → row_header names i = n).
  { intros i n Hi. unfold row_header. rewrite Hi.
    destruct (String.eqb_spec n "") as [->|]; [|done].
    exfalso. eapply materialsDb_names_nonempty; [|done].
    apply Hdb. by eapply list_elem_of_lookup_2. }
  split.
  - intros Hrows.
    assert (Heq : names = rows); [|rewrite Heq; apply sublist_filter].
    apply list_eq_same_length with (length names);
      [by rewrite Hperm | done |].
    intros i n n' Hi Hn Hn'. rewrite <- Hnames in Hn'.
    rewrite list_lookup_fmap in Hn'.
    destruct (selectedMaterialsData input !! i) as [m|] eqn:Hm; [|done].
    injection Hn' as <-. rewrite <- (Hrows i m Hm). symmetry.
    by apply Hheader.
  - intros Hsub i m Hm.
    assert (Heq : rows = names)
      by (apply filter_sublist_elem; [apply materialsDb_names_NoDup | done]).
    apply Hheader. rewrite <- Heq, <- Hnames, list_lookup_fmap, Hm. done.
Qed.

End Run.

(** ** The effects of the page *)

Section Effects.
Context {num : Type} {N : JSNumber num} {L : JSLiteral num}.

(** X17.  The effect on the materials offers materials of the database, in the
    order of the database, and settles: run again on the state it has
    written (as React does, [selectedPN] being one of its dependencies), it
    writes the same state. *)
Theorem materials_effect_settles (networkMainType : option NetworkMainType)
    (selectedSubtype : option string) (state : MaterialsState num) :
  availableMaterials (materials_effect networkMainType selectedSubtype state)
    `sublist_of` materialsDb
  ∧ materials_effect networkMainType selectedSubtype
      (materials_effect networkMainType selectedSubtype state)
    = materials_effect networkMainType selectedSubtype state.
Proof.
  unfold materials_effect.
  destruct (bool_decide (is_Some networkMainType)
            && js_truthy_string selectedSubtype) eqn:Hcond; simpl.
  - destruct networkMainType as [[|]|]; simpl.
    + destruct (selectedPN state) as [PN|]; simpl.
      * split; [apply sublist_filter | done].
      * split; [apply sublist_nil_l | done].
    + split; [apply sublist_filter | done].
    + split; [apply sublist_nil_l | done].
  - split; [apply sublist_nil_l | done].
Qed.

(** X18.  For an evacuation network the materials offered are Fonte, PEHD and
    PVC, whatever the subtype and the pressure, and the pressure is
    cleared. *)
Theorem evacuation_offers_the_same_materials (selectedSubtype : option string)
    (state : MaterialsState num) :
  js_truthy_string selectedSubtype = true →
  name <$> availableMaterials
             (materials_effect (Some Evacuation) selectedSubtype state)
  = ["Fonte"; "PEHD"; "PVC"]
  ∧ selectedPN (materials_effect (Some Evacuation) selectedSubtype state)
    = None.
Proof.
  intros Hsub. unfold materials_effect. rewrite Hsub. done.
Qed.

Lemma allCriteria_polarity (c : Criterion) :
  c ∈ allCriteria → isBenefit c = bool_decide (key c ≠ k_cout).
Proof.
  intros Hc. unfold allCriteria in Hc.
  repeat (apply elem_of_cons in Hc as [->|Hc]; [done|]).
  by apply elem_of_nil in Hc.
Qed.

Lemma criteria_effect_selectable (networkMainType : option NetworkMainType)
    (selectedSubtype : option string) (keys : list CriterionKey)
    (c : Criterion) :
  c ∈ (criteria_effect networkMainType selectedSubtype keys).1 ↔
  c ∈ allCriteria
  ∧ (key c = k_temp → selectedSubtype = Some "ECS")
  ∧ (key c = k_surpression → networkMainType ≠ Some Evacuation).
Proof.
  unfold criteria_effect. cbv zeta. cbn [fst].
  repeat case_bool_decide; rewrite ?list_elem_of_filter; naive_solver.
Qed.

Lemma criteria_effect_keeps_the_selection_selectable_aux
    (networkMainType : option NetworkMainType)
    (selectedSubtype : option string) (keys : list CriterionKey)
    (k : CriterionKey) :
  k ∈ (criteria_effect networkMainType selectedSubtype keys).2 →
  ∃ c, c ∈ (criteria_effect networkMainType selectedSubtype keys).1
       ∧ key c = k.
Proof.
  unfold criteria_effect. cbv zeta. cbn [fst snd].
  match goal with |- context [forallb ?f keys] =>
    set (valid := f); destruct (forallb valid keys) eqn:Hvalid end.
  - intros Hk. rewrite forallb_forall in Hvalid.
    specialize (Hvalid k (proj1 (list_elem_of_In _ _) Hk)).
    apply existsb_exists in Hvalid as (c & Hc & Hkey).
    exists c. split; [by apply list_elem_of_In|].
    by apply bool_decide_eq_true in Hkey.
  - intros Hk. by apply elem_of_nil in Hk.
Qed.

(** X19.  The effect on the criteria.  The criteria that can be selected are
    those of the catalog, without [temp] unless the subtype is ECS and
    without [surpression] for an evacuation network.  The selection is kept
    if every selected key can still be selected and emptied otherwise, so
    that afterwards every selected key can be selected; and the effect
    settles. *)
Theorem criteria_effect_keeps_the_selection_selectable
    (networkMainType : option NetworkMainType)
    (selectedSubtype : option string) (keys : list CriterionKey) :
  let effect := criteria_effect networkMainType selectedSubtype keys in
  (∀ c, c ∈ effect.1 ↔
        c ∈ allCriteria
        ∧ (key c = k_temp → selectedSubtype = Some "ECS")
        ∧ (key c = k_surpression → networkMainType ≠ Some Evacuation))
  ∧ (effect.2 = keys ∨ effect.2 = [])
  ∧ (∀ k, k ∈ effect.2 → ∃ c, c ∈ effect.1 ∧ key c = k)
  ∧ ((∀ k, k ∈ keys → ∃ c, c ∈ effect.1 ∧ key c = k) → effect.2 = keys)
  ∧ criteria_effect networkMainType selectedSubtype effect.2 = effect.
Proof.
  intros effect. split; [apply criteria_effect_selectable|].
  subst effect. unfold criteria_effect. cbv zeta. cbn [fst snd].
  match goal with |- context [forallb ?f keys] =>
    set (valid := f); destruct (forallb valid keys) eqn:Hvalid end.
  - split; [by left|]. split; [|split; [done|]].
    + intros k Hk. rewrite forallb_forall in Hvalid.
      specialize (Hvalid k (proj1 (list_elem_of_In _ _) Hk)).
      apply existsb_exists in Hvalid as (c & Hc & Hkey).
      exists c. split; [by apply list_elem_of_In|].
      by apply bool_decide_eq_true in Hkey.
    + by rewrite Hvalid.
  - split; [by right|]. split; [|split; [|done]].
    + intros k Hk. by apply elem_of_nil in Hk.
    + intros Hall. exfalso.
      apply not_true_iff_false in Hvalid. apply Hvalid.
      apply forallb_forall. intros k Hk. apply existsb_exists.
      destruct (Hall k (proj2 (list_elem_of_In _ _) Hk)) as (c & Hc & Hkey).
      exists c. split; [by apply list_elem_of_In|].
      by apply bool_decide_eq_true.
Qed.

Section Polarity_of_the_page.
Variable parseFloat : string → num.

(** X20.  On the page the polarity of a criterion is that of the catalog.  After
    the effect on the criteria every selected key has its definition among
    the criteria that the page passes to the engine, so no selected
    criterion falls back to a cost for want of a definition: ['cout'] is
    minimised and every other selected criterion maximised. *)
Theorem page_polarity_is_that_of_the_catalog
    (networkMainType : option NetworkMainType)
    (selectedSubtype : option string) (selected : list CriterionKey)
    (names : list string) (materialCosts : gmap string string)
    (criteriaWeights : gmap CriterionKey string) :
  let effect := criteria_effect networkMainType selectedSubtype selected in
  ∀ j k, effect.2 !! j = Some k →
    benefit_column
      (topsis_input parseFloat names effect.2 effect.1 materialCosts
         criteriaWeights) j
    = bool_decide (k ≠ k_cout).
Proof.
  intros effect j k Hk.
  destruct (criteria_effect_keeps_the_selection_selectable_aux
              networkMainType selectedSubtype selected k)
    as (c0 & Hc0 & Hkey0); [by eapply list_elem_of_lookup_2|].
  assert (Hpol : ∀ c, c ∈ effect.1 →
            isBenefit c = bool_decide (key c ≠ k_cout)).
  { intros c Hc. apply allCriteria_polarity.
    by apply criteria_effect_selectable in Hc as [Hc _]. }
  case_bool_decide as Hcout.
  - apply (benefit_column_true _ j k); [done | by exists c0|].
    intros c Hc Hkc. rewrite (Hpol c Hc), Hkc. by apply bool_decide_eq_true.
  - apply (benefit_column_false _ j k); [done|].
    intros c Hc Hkc. rewrite (Hpol c Hc), Hkc, Hcout.
    apply bool_decide_eq_false. by intros Hne.
Qed.

End Polarity_of_the_page.
End Effects.

(** ** The validation of step 5 (exact arithmetic) *)

Lemma materialsDb_attributes (m : Material xreal) (k : CriterionKey) :
  m ∈ materialsDb → k ≠ k_cout →
  ∃ z : Z, attribute m k = Fin (IZR z) ∧ (0 < z)%Z.
Proof.
  intros Hm Hk. unfold materialsDb in Hm.
  repeat (apply elem_of_cons in Hm as [->|Hm];
          [destruct k; try done; eexists; (split; [reflexivity | lia])|]).
  by apply elem_of_nil in Hm.
Qed.

Section Validation.
Variable parseFloat : string → xreal.

Lemma js_ge_zero (v : xreal) :
  xr_isNaN v = false → js_ge v (Fin 0) = true →
  ∀ x, v = Fin x → (0 <= x)%R.
Proof.
  intros _ Hge x ->. unfold js_ge in Hge. simpl in Hge.
  apply negb_true_iff, Rltb_false in Hge. done.
Qed.

Lemma costsValid_elem (names : list string)
    (materialCosts : gmap string string) (n : string) :
  costsValid parseFloat names materialCosts = true → n ∈ names →
  ∃ cost, materialCosts !! n = Some cost
          ∧ ∀ x, parseFloat cost = Fin x → (0 <= x)%R.
Proof.
  intros Hvalid Hn. unfold costsValid in Hvalid.
  rewrite forallb_forall in Hvalid.
  specialize (Hvalid n (proj1 (list_elem_of_In _ _) Hn)).
  destruct (materialCosts !! n) as [cost|]; [|done].
  exists cost. split; [done|].
  apply andb_true_iff in Hvalid as [Hvalid Hge].
  apply andb_true_iff in Hvalid as [_ Hnan].
  apply js_ge_zero; [by apply negb_true_iff in Hnan | done].
Qed.

Lemma weightsValid_from_elem (criteriaWeights : gmap CriterionKey string)
    (totalWeight : xreal) (keys : list CriterionKey) (k : CriterionKey) :
  (weightsValid_from parseFloat criteriaWeights totalWeight keys).1 = true →
  k ∈ keys →
  ∃ weight w, criteriaWeights !! k = Some weight
              ∧ parseFloat weight = Fin w ∧ (0 <= w <= 1)%R.
Proof.
  revert totalWeight. induction keys as [|k0 keys IH]; intros t Hvalid Hk.
  { by apply elem_of_nil in Hk. }
  simpl in Hvalid.
  destruct (criteriaWeights !! k0) as [weight|] eqn:Hk0; [|done].
  destruct (negb (String.eqb weight "") && _ && _ && _) eqn:Hcond; [|done].
  apply elem_of_cons in Hk as [->|Hk]; [|by apply (IH _ Hvalid)].
  exists weight.
  apply andb_true_iff in Hcond as [Hcond Hle].
  apply andb_true_iff in Hcond as [Hcond Hge].
  apply andb_true_iff in Hcond as [_ Hnan].
  unfold js_ge, js_le in *. simpl in *.
  destruct (parseFloat weight) as [w| | |]; simpl in *; try done.
  exists w. split; [done|]. split; [done|].
  apply negb_true_iff, Rltb_false in Hge.
  apply negb_true_iff, Rltb_false in Hle.
  unfold js_int, xreal_literal in Hle. lra.
Qed.

(** X21.  What the validation of step 5 gives the engine.  If [costsValid] and
    [weightsValid] hold, then in the input that the page passes no value of
    the decision matrix is negative, and the weight of every selected
    criterion is a number from 0 to 1.  (A cost may still be [Infinity],
    which both checks of [costsValid] let through.) *)
Theorem validated_input_is_not_negative (names : list string)
    (keys : list CriterionKey) (catalog : list Criterion)
    (materialCosts : gmap string string)
    (criteriaWeights : gmap CriterionKey string) :
  costsValid parseFloat names materialCosts = true →
  (weightsValid parseFloat keys criteriaWeights).1 = true →
  let input := topsis_input parseFloat names keys catalog materialCosts
                 criteriaWeights in
  nonnegative_values input
  ∧ nonnegative_weights input
  ∧ ∀ j, j < numCols input →
      ∃ w, weight_of input j = Fin w ∧ (0 <= w <= 1)%R.
Proof.
  intros Hcosts Hweights input.
  assert (Hweight : ∀ j, ∃ w, weight_of input j = Fin w ∧ (0 <= w <= 1)%R).
  { intros j. unfold weight_of. simpl.
    destruct (keys !! j) as [k|] eqn:Hk; simpl;
      [|exists 0%R; split; [done|lra]].
    destruct (weightsValid_from_elem criteriaWeights (Fin 0) keys k Hweights)
      as (weight & w & Hlookup & Hparse & Hw);
      [by eapply list_elem_of_lookup_2|].
    rewrite lookup_fmap, Hlookup. simpl. rewrite Hparse.
    destruct (js_truthy (Fin w));
      [by exists w | exists 0%R; split; [done|lra]]. }
  split; [|split].
  - intros i j x Hx. unfold raw_value in Hx.
    destruct (selectedMaterialsData input !! i) as [m|] eqn:Hm; [|done].
    destruct (selectedCriteriaKeys input !! j) as [k|]; [|done].
    apply list_elem_of_lookup_2 in Hm. simpl in Hm.
    apply list_elem_of_filter in Hm as [Hname Hdb].
    case_decide as Hk.
    + destruct (costsValid_elem names materialCosts (name m) Hcosts Hname)
        as (cost & Hlookup & Hcost).
      simpl in Hx. rewrite lookup_fmap, Hlookup in Hx. simpl in Hx.
      destruct (js_truthy (parseFloat cost)); [by apply Hcost|].
      injection Hx as <-. lra.
    + destruct (materialsDb_attributes m k Hdb Hk) as (z & Hz & Hpos).
      rewrite Hz in Hx. injection Hx as <-.
      apply IZR_le. lia.
  - intros j w Hw. destruct (Hweight j) as (w' & Hw' & Hrange).
    rewrite Hw in Hw'. injection Hw' as ->. lra.
  - intros j _. apply Hweight.
Qed.

End Validation.

(** ** What the database offers (binary64) *)

(** X22.  For a supply network (subtype EF or ECS) and a pressure of the list
    [pressureNominalValues], the database has no material to offer exactly
    when the pressure is 40: the one material rated for it is an evacuation
    material. *)
Theorem pressure_40_offers_no_supply_material (subtype : string)
    (PN : float) (state : MaterialsState float) :
  subtype ∈ ["EF"; "ECS"] →
  PN ∈ pressureNominalValues →
  selectedPN state = Some PN →
  availableMaterials
    (materials_effect (Some Alimentation) (Some subtype) state) = []
  ↔ PN = js_int 40.
Proof.
  intros Hsubtype HPN Hstate.
  assert (Hcompute :
    availableMaterials
      (materials_effect (Some Alimentation) (Some subtype) state)
    = filter (λ m, string_includes (type m) subtype
                   && array_includes (pn m) PN) materialsDb).
  { unfold materials_effect. rewrite Hstate.
    repeat (apply elem_of_cons in Hsubtype as [->|Hsubtype]; [done|]).
    by apply elem_of_nil in Hsubtype. }
  rewrite Hcompute. clear Hcompute Hstate state.
  unfold pressureNominalValues in HPN.
  repeat (apply elem_of_cons in Hsubtype as [->|Hsubtype];
    [repeat (apply elem_of_cons in HPN as [->|HPN];
       [vm_compute; split; [try done | try done];
        intros Heq;
        apply (f_equal (λ x, PrimFloat.eqb x 40%float)) in Heq;
        vm_compute in Heq; done|]);
     by apply elem_of_nil in HPN|]).
  by apply elem_of_nil in Hsubtype.
Qed.

(** ** The step indicator *)

Lemma fmap_imap_replicate {A B : Type} (f : A → B) (g : nat → A) (n : nat) :
  f <$> imap (λ index _, g index) (replicate n ()) = tabulate n (λ i, f (g i)).
Proof.
  apply list_eq. intros i. rewrite list_lookup_fmap, list_lookup_imap.
  destruct (decide (i < n)) as [Hi|Hi].
  - by rewrite lookup_replicate_2, lookup_tabulate by done.
  - rewrite (proj1 (lookup_replicate_None n () i)), lookup_tabulate_ge by lia.
    done.
Qed.

Lemma tabulate_threshold (n a : nat) (h : nat → bool) :
  a ≤ n → (∀ i, i < n → h i = bool_decide (i < a)) →
  tabulate n h = replicate a true ++ replicate (n - a) false.
Proof.
  intros Ha Hh. apply list_eq. intros i.
  destruct (decide (i < n)) as [Hi|Hi].
  - rewrite lookup_tabulate, Hh by done. case_bool_decide.
    + by rewrite lookup_app_l, lookup_replicate_2
        by (rewrite ?length_replicate; lia).
    + rewrite lookup_app_r by (rewrite length_replicate; lia).
      by rewrite lookup_replicate_2 by (rewrite length_replicate; lia).
  - rewrite lookup_tabulate_ge by lia. symmetry. apply lookup_ge_None.
    rewrite length_app, !length_replicate. lia.
Qed.

(** X23.  For a current step from 1 to the number of steps, the indicator shows
    that many filled circles followed by empty ones, one item for each
    step; exactly one item is active, the one of the current step, and
    every item but the last has a connector to the next. *)
Theorem step_indicator_shows_the_progress (currentStep totalSteps : Z)
    (stepNames : list string) :
  (1 <= currentStep <= totalSteps)%Z →
  let items := StepIndicator currentStep totalSteps stepNames in
  let current := Z.to_nat currentStep in
  let total := Z.to_nat totalSteps in
  circlePrimary <$> items
  = replicate current true ++ replicate (total - current) false
  ∧ isCompleted <$> items
    = replicate (current - 1) true ++ replicate (total - (current - 1)) false
  ∧ hasConnector <$> items = replicate (total - 1) true ++ [false]
  ∧ ∀ index item, items !! index = Some item →
      (isActive item = true ↔ index = current - 1)
      ∧ stepNumber item = (Z.of_nat index + 1)%Z
      ∧ stepName item = stepNames !! index.
Proof.
  intros Hrange items current total. subst items. unfold StepIndicator.
  split; [|split; [|split]].
  - rewrite (fmap_imap_replicate circlePrimary). simpl.
    apply tabulate_threshold; [lia|]. intros i Hi.
    destruct (Z.eqb_spec (Z.of_nat i + 1) currentStep);
      [|destruct (Z.ltb_spec (Z.of_nat i + 1) currentStep)];
      symmetry; (apply bool_decide_eq_true || apply bool_decide_eq_false);
      lia.
  - rewrite (fmap_imap_replicate isCompleted). simpl.
    apply tabulate_threshold; [lia|]. intros i Hi.
    destruct (Z.ltb_spec (Z.of_nat i + 1) currentStep);
      symmetry; (apply bool_decide_eq_true || apply bool_decide_eq_false);
      lia.
  - rewrite (fmap_imap_replicate hasConnector). simpl.
    replace [false] with (replicate (total - (total - 1)) false)
      by (replace (total - (total - 1)) with 1 by lia; done).
    apply tabulate_threshold; [lia|]. intros i Hi.
    destruct (Z.ltb_spec (Z.of_nat i + 1) totalSteps);
      symmetry; (apply bool_decide_eq_true || apply bool_decide_eq_false);
      lia.
  - intros index item Hitem. rewrite list_lookup_imap in Hitem.
    destruct (replicate (Z.to_nat totalSteps) () !! index); [|done].
    injection Hitem as <-. simpl. split; [|done].
    subst current.
    destruct (Z.eqb_spec (Z.of_nat index + 1) currentStep); split;
      (done || lia).
Qed.

(** ** A criterion of weight 0 (exact arithmetic) *)

Section ZeroWeight.
Variable input : TopsisInput xreal.
Variable k : CriterionKey.
Hypothesis Hmaterials : selectedMaterialsData input ≠ [].
Hypothesis Hnumeric : numeric_input input.
Hypothesis Hzero : js_or (weights input !! k) (Fin 0) = Fin 0.

Let input' := with_criterion input k.

Lemma added_numCols : numCols input' = S (numCols input).
Proof. unfold numCols. simpl. rewrite length_app. simpl. lia. Qed.

Lemma added_key (j : nat) :
  j < numCols input →
  selectedCriteriaKeys input' !! j = selectedCriteriaKeys input !! j.
Proof. intros Hj. simpl. by apply lookup_app_l. Qed.

Lemma added_Rweighted (i j : nat) :
  j < numCols input → Rweighted input' i j = Rweighted input i j.
Proof.
  intros Hj.
  unfold Rweighted, Rnormalized, Rnorm, Rraw, Rweight, raw_value, weight_of.
  by rewrite added_key.
Qed.

Lemma added_Rweighted_last (i : nat) :
  Rweighted input' i (numCols input) = 0%R.
Proof.
  unfold Rweighted, Rweight, weight_of. simpl.
  rewrite lookup_app_r by done. fold (numCols input).
  rewrite Nat.sub_diag. simpl. rewrite Hzero. simpl. lra.
Qed.

Lemma added_extremes (j : nat) :
  j < numCols input →
  Rideal input' j = Rideal input j
  ∧ Ranti_ideal input' j = Ranti_ideal input j.
Proof.
  intros Hj. unfold Rideal, Ranti_ideal, benefit_column.
  assert (Hcol : Rcolumn input' j = Rcolumn input j).
  { unfold Rcolumn. apply tabulate_ext. intros. by apply added_Rweighted. }
  by rewrite Hcol, added_key.
Qed.

Lemma added_extremes_last :
  Rideal input' (numCols input) = 0%R
  ∧ Ranti_ideal input' (numCols input) = 0%R.
Proof.
  pose proof (numRows_pos input Hmaterials) as Hrows.
  assert (Hcol : ∀ x, x ∈ Rcolumn input' (numCols input) → x = 0%R).
  { intros x Hx. apply Rcolumn_elem in Hx as (i & _ & ->).
    apply added_Rweighted_last. }
  assert (Hne : Rcolumn input' (numCols input) ≠ [])
    by by apply Rcolumn_nonempty.
  pose proof (Hcol _ (MaxRlist_elem _ Hne)).
  pose proof (Hcol _ (MinRlist_elem _ Hne)).
  unfold Rideal, Ranti_ideal.
  by destruct (benefit_column input' (numCols input)).
Qed.

Lemma added_score (i : nat) :
  i < numRows input → score_of input' i = score_of input i.
Proof.
  intros Hi. pose proof (numRows_pos input Hmaterials) as Hrows.
  rewrite (score_of_Rscore input Hnumeric Hrows) by done.
  rewrite (score_of_Rscore input' Hnumeric Hrows) by done.
  assert (Hsep : ∀ v v', (∀ j, j < numCols input → v' j = v j) →
            v' (numCols input) = 0%R →
            Rseparation input' v' i = Rseparation input v i).
  { intros v v' Hv Hlast. unfold Rseparation.
    rewrite added_numCols, Rsum_S, added_Rweighted_last, Hlast.
    rewrite (Rsum_ext _ _
      (λ j, (Rweighted input i j - v j) * (Rweighted input i j - v j))%R).
    - f_equal. lra.
    - intros j Hj. by rewrite added_Rweighted, Hv. }
  unfold Rscore.
  rewrite (Hsep (Rideal input) (Rideal input')),
    (Hsep (Ranti_ideal input) (Ranti_ideal input'));
    (done || (intros; by apply added_extremes) || apply added_extremes_last).
Qed.

End ZeroWeight.

(** X25.  A criterion whose weight is 0, or that has no weight, has no
    influence: selected in addition to the others, it leaves the order and
    the scores of the results as they are. *)
Theorem criterion_of_weight_zero_has_no_influence (input : TopsisInput xreal)
    (k : CriterionKey) :
  selectedMaterialsData input ≠ [] →
  selectedCriteriaKeys input ≠ [] →
  numeric_input input →
  js_or (weights input !! k) (Fin 0) = Fin 0 →
  ∃ results results',
    runTopsisCalculation input = Some results
    ∧ runTopsisCalculation (with_criterion input k) = Some results'
    ∧ r_name <$> results' = r_name <$> results
    ∧ r_score <$> results' = r_score <$> results.
Proof.
  intros Hm Hk Hnum Hzero.
  eexists _, _. split; [by apply run_eq|]. split.
  { apply run_eq; [done|]. simpl. by destruct (selectedCriteriaKeys input). }
  set (related := λ r r' : TopsisFullResults xreal,
         r_name r' = r_name r ∧ r_score r' = r_score r).
  assert (Hsorted : Forall2 related
            (array_sort compare_results (unsorted_results input))
            (array_sort compare_results
               (unsorted_results (with_criterion input k)))).
  { apply array_sort_Forall2.
    - intros x y x' y' [_ Hx] [_ Hy].
      by rewrite !sorts_after_compare_results, Hx, Hy.
    - apply Forall2_same_length_lookup_2.
      + unfold unsorted_results. by rewrite !length_imap.
      + intros i r r' Hr Hr'.
        apply lookup_unsorted_results in Hr as (m & Hi & ->).
        apply lookup_unsorted_results in Hr' as (m' & Hi' & ->).
        simpl in Hi'. split; simpl; [congruence|].
        apply added_score; try done. by eapply lookup_lt_Some. }
  split; apply list_eq; intros p; rewrite !list_lookup_fmap;
    destruct (proj1 (Forall2_lookup _ _ _) Hsorted p) as [r r' [Hn Hs]|];
    simpl; congruence.
Qed.

(** ** What the results depend on (every interpretation) *)

Section Frame.
Context {num : Type} {N : JSNumber num}.
Variables input input' : TopsisInput num.
Hypothesis Hsame : same_decision_data input input'.

Lemma frame_numRows : numRows input' = numRows input.
Proof.
  destruct Hsame as (Hnames & _). unfold numRows.
  apply (f_equal length) in Hnames. by rewrite !length_fmap in Hnames.
Qed.

Lemma frame_numCols : numCols input' = numCols input.
Proof. by destruct Hsame as (_ & ? & _). Qed.

Lemma frame_normalized (i j : nat) :
  i < numRows input → j < numCols input →
  normalized input' i j = normalized input i j.
Proof.
  intros Hi Hj. destruct Hsame as (_ & _ & Hraw & _).
  unfold normalized, column_norm. rewrite frame_numRows, Hraw by done.
  by rewrite (sum_over_ext _ (λ i0, js_pow2 (raw_value input' i0 j))
                (λ i0, js_pow2 (raw_value input i0 j)))
    by (intros; by rewrite Hraw).
Qed.

Lemma frame_weighted (i j : nat) :
  i < numRows input → j < numCols input →
  weighted input' i j = weighted input i j.
Proof.
  intros Hi Hj. destruct Hsame as (_ & _ & _ & Hweight & _).
  unfold weighted. by rewrite frame_normalized, Hweight.
Qed.

Lemma frame_extremes (j : nat) :
  j < numCols input →
  ideal input' j = ideal input j ∧ anti_ideal input' j = anti_ideal input j.
Proof.
  intros Hj. destruct Hsame as (_ & _ & _ & _ & Hbenefit).
  assert (Hcol : weighted_column input' j = weighted_column input j).
  { unfold weighted_column. rewrite frame_numRows.
    apply tabulate_ext. intros. by apply frame_weighted. }
  unfold ideal, anti_ideal. by rewrite Hcol, Hbenefit.
Qed.

Lemma frame_separation (v v' : nat → num) (i : nat) :
  i < numRows input →
  (∀ j, j < numCols input → v' j = v j) →
  separation input' v' i = separation input v i.
Proof.
  intros Hi Hv. unfold separation. rewrite frame_numCols. f_equal.
  apply sum_over_ext. intros j Hj. by rewrite frame_weighted, Hv.
Qed.

Lemma frame_score (i : nat) :
  i < numRows input → score_of input' i = score_of input i.
Proof.
  intros Hi. unfold score_of.
  by rewrite (frame_separation (ideal input) (ideal input')),
    (frame_separation (anti_ideal input) (anti_ideal input'))
    by (done || (intros; by apply frame_extremes)).
Qed.

Lemma frame_trail : trail_of input' = trail_of input.
Proof.
  destruct Hsame as (_ & _ & Hraw & _).
  unfold trail_of. rewrite frame_numRows, frame_numCols.
  f_equal;
    (apply tabulate2_ext || apply tabulate_ext); intros;
    try (by apply Hraw); try (by apply frame_normalized);
    try (by apply frame_weighted); try (by apply frame_extremes);
    try (by apply frame_score);
    apply frame_separation; try done; intros; by apply frame_extremes.
Qed.

End Frame.

(** X30.  The results depend on the decision data only.  Two inputs with the
    same names of materials, with cell by cell the same value in the
    decision matrix and column by column the same weight in use and the
    same polarity, give the same results in the same order: names, scores,
    matrices and vectors.  Whatever else the inputs hold (other attributes
    of the materials, costs and weights that are not in use, other catalog
    entries) is not read. *)
Theorem results_depend_on_the_decision_data_only {num : Type}
    {N : JSNumber num} (input input' : TopsisInput num) :
  same_decision_data input input' →
  ∃ results results',
    runTopsisCalculation input = Some results
    ∧ runTopsisCalculation input' = Some results'
    ∧ Forall2 same_result results results'.
Proof.
  intros Hsame.
  pose proof (frame_numRows input input' Hsame) as Hrows.
  pose proof (frame_numCols input input' Hsame) as Hcols.
  destruct (decide (selectedMaterialsData input = [])) as [Hm|Hm].
  { exists [], []. split; [apply run_empty; by left|].
    split; [|constructor]. apply run_empty. left.
    unfold numRows in Hrows. rewrite Hm in Hrows.
    by destruct (selectedMaterialsData input'). }
  destruct (decide (selectedCriteriaKeys input = [])) as [Hk|Hk].
  { exists [], []. split; [apply run_empty; by right|].
    split; [|constructor]. apply run_empty. right.
    unfold numCols in Hcols. rewrite Hk in Hcols.
    by destruct (selectedCriteriaKeys input'). }
  eexists _, _. split; [by apply run_eq|]. split.
  { apply run_eq; intros E.
    - apply Hm. unfold numRows in Hrows. rewrite E in Hrows.
      by destruct (selectedMaterialsData input).
    - apply Hk. unfold numCols in Hcols. rewrite E in Hcols.
      by destruct (selectedCriteriaKeys input). }
  apply array_sort_Forall2.
  - intros x y x' y' (_ & Hx & _) (_ & Hy & _).
    unfold sorts_after, compare_results. by rewrite Hx, Hy.
  - apply Forall2_same_length_lookup_2.
    + unfold unsorted_results. rewrite !length_imap.
      by fold (numRows input) (numRows input').
    + intros i r r' Hr Hr'.
      apply lookup_unsorted_results in Hr as (m & Hi & ->).
      apply lookup_unsorted_results in Hr' as (m' & Hi' & ->).
      unfold same_result, result_of.
      rewrite (frame_trail input input' Hsame). simpl.
      split.
      { destruct Hsame as (Hnames & _).
        apply (f_equal (λ l, l !! i)) in Hnames.
        rewrite !list_lookup_fmap, Hi, Hi' in Hnames. by injection Hnames. }
      split; [|done].
      apply (frame_score input input' Hsame). by eapply lookup_lt_Some.
Qed.

(** ** The sign of the scores (binary64) *)

Lemma float_not_negative_ltb (x : float) :
  float_not_negative x → (x <? 0)%float = false.
Proof.
  unfold float_not_negative. rewrite ltb_spec.
  change (Prim2SF 0) with (S754_zero false).
  destruct (Prim2SF x) as [s|s| |s m e]; try done; by destruct s.
Qed.

(** X31.  In binary64 no score is negative, whatever the numbers of the input,
    finite or not: the run returns one result for each material, and the
    score of each is [NaN], or a number that is not less than 0. *)
Theorem binary64_score_is_not_negative (input : TopsisInput float) :
  selectedMaterialsData input ≠ [] →
  selectedCriteriaKeys input ≠ [] →
  ∃ results,
    runTopsisCalculation input = Some results
    ∧ length results = length (selectedMaterialsData input)
    ∧ ∀ r, r ∈ results → (r_score r <? 0)%float = false.
Proof.
  intros Hm Hk. eexists. split; [by apply run_eq|]. split.
  { rewrite (Permutation_length (array_sort_Permutation _ _)).
    apply length_imap. }
  intros r Hr.
  apply sorted_results_elem in Hr as (i & m & _ & ->).
  apply float_not_negative_ltb, float_score_not_negative.
Qed.

(** ** The further properties at concrete inputs *)

Lemma ranking_by_score_then_input_order_witness :
  let input := single_criterion_input 3 in
  ∃ results,
    runTopsisCalculation input = Some results
    ∧ ∀ iA iB mA mB rA rB,
        selectedMaterialsData input !! iA = Some mA →
        selectedMaterialsData input !! iB = Some mB →
        iA ≠ iB →
        rA ∈ results → r_name rA = name mA →
        rB ∈ results → r_name rB = name mB →
        (ranked_before results (name mA) (name mB)
         ↔ xr_lt (sort_key (r_score rB)) (sort_key (r_score rA)) = true
           ∨ (xr_lt (sort_key (r_score rA)) (sort_key (r_score rB)) = false
              ∧ iA < iB)).
Proof.
  intros input.
  apply (ranking_by_score_then_input_order input);
    [discriminate | discriminate | by apply (bool_decide_unpack _)].
Defined.

Lemma single_material_numeric : numeric_input single_material_input.
Proof.
  split; [|split].
  - repeat constructor; intros []; done.
  - apply map_Forall_empty.
  - by apply map_Forall_singleton.
Qed.

Lemma degenerate_selection_scores_NaN_witness :
  let input := single_material_input in
  ∃ results,
    runTopsisCalculation input = Some results
    ∧ r_name <$> results = name <$> selectedMaterialsData input
    ∧ ∀ r, r ∈ results → r_score r = NaN.
Proof.
  intros input.
  apply (degenerate_selection_scores_NaN input);
    [discriminate | discriminate | apply single_material_numeric|].
  left. reflexivity.
Defined.

Lemma single_criterion_weight (temp1 : R) (j : nat) :
  weight_of (single_criterion_input temp1) j
  = Fin (if decide (j = 0) then 1 else 0).
Proof.
  unfold weight_of. destruct j as [|j]; simpl.
  - by rewrite lookup_singleton_eq, js_or_Fin_nonzero by lra.
  - done.
Qed.

Lemma single_criterion_weights_nonnegative (temp1 : R) :
  nonnegative_weights (single_criterion_input temp1).
Proof.
  intros j w Hw. rewrite single_criterion_weight in Hw.
  injection Hw as <-. case_decide; lra.
Qed.

Lemma single_criterion_raw (temp1 : R) (i j : nat) (x : R) :
  raw_value (single_criterion_input temp1) i j = Fin x →
  j = 0 ∧ ((i = 0 ∧ x = temp1) ∨ (i = 1 ∧ x = 4%R)).
Proof.
  intros Hx. destruct i as [|[|i]], j as [|j]; try done;
    injection Hx as <-; auto.
Qed.

Lemma worst_material_scores_zero_witness :
  let input := single_criterion_input 3 in
  ∃ results,
    runTopsisCalculation input = Some results
    ∧ ∃ r, r ∈ results ∧ r_name r = "material1"
           ∧ r_originalData r
             = example_material "material1" (Fin 3) (Fin 1) (Fin 1)
           ∧ (r_score r = Fin 0 ∨ ∀ r', r' ∈ results → r_score r' = NaN).
Proof.
  intros input.
  apply (worst_material_scores_zero input ltac:(discriminate)
           ltac:(discriminate) (single_criterion_numeric 3)
           (single_criterion_weights_nonnegative 3) 0
           (example_material "material1" (Fin 3) (Fin 1) (Fin 1)));
    [reflexivity|].
  intros i j a x Ha Hx.
  apply single_criterion_raw in Ha as [-> [[_ ->]|[[=] _]]].
  apply single_criterion_raw in Hx as [_ [[_ ->]|[_ ->]]];
    change (benefit_column input 0) with true; simpl; lra.
Defined.

Lemma criterion_of_weight_zero_has_no_influence_witness :
  let input := single_criterion_input 3 in
  ∃ results results',
    runTopsisCalculation input = Some results
    ∧ runTopsisCalculation (with_criterion input k_corrosion) = Some results'
    ∧ r_name <$> results' = r_name <$> results
    ∧ r_score <$> results' = r_score <$> results.
Proof.
  intros input.
  apply (criterion_of_weight_zero_has_no_influence input k_corrosion);
    [discriminate | discriminate | apply single_criterion_numeric|].
  simpl. by rewrite lookup_singleton_ne.
Defined.

Lemma selection_click_keeps_NoDup_witness :
  NoDup (handleMaterialSelection "PER" ["Cuivre"; "PER"])
  ∧ NoDup (handleCriteriaSelection k_cout [k_temp]).
Proof.
  apply (selection_click_keeps_NoDup "PER" k_cout ["Cuivre"; "PER"] [k_temp]);
    by apply (bool_decide_unpack _).
Defined.

Lemma page_run_gives_one_result_per_selected_material_witness :
  ∃ results,
    runTopsisCalculation
      (topsis_input (λ _, 1%float) ["PER"; "Cuivre"] [k_temp; k_cout]
         allCriteria ∅ ∅) = Some results
    ∧ NoDup (r_name <$> results)
    ∧ ∀ n, n ∈ r_name <$> results ↔
           n ∈ ["PER"; "Cuivre"] ∧ n ∈ name <$> materialsDb (num:=float).
Proof.
  apply (page_run_gives_one_result_per_selected_material (λ _, 1%float)
           ["PER"; "Cuivre"] [k_temp; k_cout] allCriteria ∅ ∅).
  discriminate.
Defined.

Lemma row_headers_name_the_rows_in_database_order_only_witness :
  (∀ i m,
     selectedMaterialsData
       (topsis_input (λ _, 1%float) ["PER"; "Cuivre"] [k_temp] allCriteria
          ∅ ∅) !! i = Some m →
     row_header ["PER"; "Cuivre"] i = name m)
  ↔ ["PER"; "Cuivre"] `sublist_of` name <$> materialsDb (num:=float).
Proof.
  apply (row_headers_name_the_rows_in_database_order_only (λ _, 1%float)
           ["PER"; "Cuivre"] [k_temp] allCriteria ∅ ∅).
  - by apply (bool_decide_unpack _).
  - intros n Hn. rewrite materialsDb_names.
    repeat (apply elem_of_cons in Hn as [->|Hn];
            [by apply (bool_decide_unpack _)|]).
    by apply elem_of_nil in Hn.
Defined.

Lemma evacuation_offers_the_same_materials_witness :
  let state : MaterialsState float :=
    {| availableMaterials := []; selectedMaterialNames := ["PER"];
       selectedPN := Some (js_int 16) |} in
  name <$> availableMaterials
             (materials_effect (Some Evacuation) (Some "Eaux pluviales") state)
  = ["Fonte"; "PEHD"; "PVC"]
  ∧ selectedPN
      (materials_effect (Some Evacuation) (Some "Eaux pluviales") state)
    = None.
Proof.
  intros state.
  apply (evacuation_offers_the_same_materials (Some "Eaux pluviales") state).
  reflexivity.
Defined.

Lemma page_polarity_is_that_of_the_catalog_witness :
  let effect :=
    criteria_effect (Some Alimentation) (Some "ECS") [k_temp; k_cout] in
  benefit_column
    (topsis_input (λ _, 1%float) ["PER"; "Cuivre"] effect.2 effect.1 ∅ ∅) 1
  = bool_decide (k_cout ≠ k_cout).
Proof.
  intros effect.
  apply (page_polarity_is_that_of_the_catalog (λ _, 1%float)
           (Some Alimentation) (Some "ECS") [k_temp; k_cout]
           ["PER"; "Cuivre"] ∅ ∅ 1 k_cout).
  reflexivity.
Defined.

Lemma validated_input_is_not_negative_witness :
  let parseFloat : string → xreal := λ _, Fin 1 in
  let input :=
    topsis_input parseFloat ["PER"] [k_cout] allCriteria {[ "PER" := "1" ]}
      {[ k_cout := "1" ]} in
  nonnegative_values input
  ∧ nonnegative_weights input
  ∧ ∀ j, j < numCols input →
      ∃ w, weight_of input j = Fin w ∧ (0 <= w <= 1)%R.
Proof.
  intros parseFloat input.
  apply (validated_input_is_not_negative parseFloat ["PER"] [k_cout]
           allCriteria {[ "PER" := "1" ]} {[ k_cout := "1" ]}).
  - unfold costsValid. simpl. rewrite lookup_singleton_eq. simpl.
    unfold js_ge. simpl. rewrite (proj2 (Rltb_false 1 0)) by lra. done.
  - unfold weightsValid. simpl. rewrite lookup_singleton_eq. simpl.
    unfold js_ge, js_le. simpl. unfold js_int, xreal_literal.
    rewrite (proj2 (Rltb_false 1 0)), (proj2 (Rltb_false 1 1)) by lra. done.
Defined.

Lemma pressure_40_offers_no_supply_material_witness :
  let state : MaterialsState float :=
    {| availableMaterials := []; selectedMaterialNames := [];
       selectedPN := Some (js_int 40) |} in
  availableMaterials (materials_effect (Some Alimentation) (Some "EF") state)
  = []
  ↔ js_int 40 = js_int (num:=float) 40.
Proof.
  intros state.
  apply (pressure_40_offers_no_supply_material "EF" (js_int 40) state).
  - by apply (bool_decide_unpack _).
  - unfold pressureNominalValues. simpl. do 5 right. left.
  - reflexivity.
Defined.

Lemma step_indicator_shows_the_progress_witness :
  let items := StepIndicator 3 6 ["a"; "b"; "c"; "d"; "e"; "f"] in
  circlePrimary <$> items
  = replicate 3 true ++ replicate (6 - 3) false
  ∧ isCompleted <$> items
    = replicate (3 - 1) true ++ replicate (6 - (3 - 1)) false
  ∧ hasConnector <$> items = replicate (6 - 1) true ++ [false]
  ∧ ∀ index item, items !! index = Some item →
      (isActive item = true ↔ index = 3 - 1)
      ∧ stepNumber item = (Z.of_nat index + 1)%Z
      ∧ stepName item = ["a"; "b"; "c"; "d"; "e"; "f"] !! index.
Proof.
  intros items.
  apply (step_indicator_shows_the_progress 3 6 ["a"; "b"; "c"; "d"; "e"; "f"]).
  lia.
Defined.

Lemma results_depend_on_the_decision_data_only_witness :
  ∃ results results',
    runTopsisCalculation scenarioB = Some results
    ∧ runTopsisCalculation
        {| selectedMaterialsData :=
             [example_material "material1" 3%float 7%float 2%float;
              example_material "material2" 4%float 8%float 9%float];
           selectedCriteriaKeys := [k_temp];
           allCriteriaDefinition := allCriteria;
           costs := {[ "material1" := 10%float ]};
           weights := {[ k_temp := 1%float; k_vie := 5%float ]} |}
      = Some results'
    ∧ Forall2 same_result results results'.
Proof.
  apply (results_depend_on_the_decision_data_only scenarioB).
  split; [reflexivity|]. split; [reflexivity|].
  split; [|split].
  - intros i j Hi Hj. unfold numRows, numCols in *. simpl in *.
    destruct i as [|[|i]], j as [|j]; (reflexivity || lia).
  - intros j Hj. unfold numCols in Hj. simpl in Hj.
    destruct j as [|j]; [|lia]. vm_compute. reflexivity.
  - intros j Hj. unfold numCols in Hj. simpl in Hj.
    destruct j as [|j]; [|lia]. vm_compute. reflexivity.
Defined.

Lemma binary64_score_is_not_negative_witness :
  let input := mixed_scores_input in
  ∃ results,
    runTopsisCalculation input = Some results
    ∧ length results = length (selectedMaterialsData input)
    ∧ ∀ r, r ∈ results → (r_score r <? 0)%float = false.
Proof.
  intros input. apply (binary64_score_is_not_negative input); discriminate.
Defined.
